(** * bitstring.py: bitstring optimisation problems (BitString, Genetic, ProbOpt)

    A shallow embedding of the classes [BitString], [Genetic] and [ProbOpt]
    of [bitstring.py], and of the fitness functions [OneMax], [FlipFlop],
    [FourPeaks], [SixPeaks], [ContinuousPeaks] and [Knapsack].

    Modelling conventions.
    - A Python object is a record of its attributes; a method that mutates
      [self] returns the updated record.
    - A method that can raise returns a [result]; the object that a
      raising call leaves behind is not modelled. A [while] loop that may
      not terminate takes a fuel argument and returns [None] when the fuel
      runs out.
    - A 1-D numpy array is a [list], a 2-D numpy array is a list of rows
      ([matrix]); all rows of a matrix have the same length. A read of a
      column that the array does not have raises [IndexError].
    - Bits are integers ([Z]). A finite floating point number is given by
      its exact value, a rational ([Q]); [npfloat] adds the values [inf],
      [-inf] and [nan]. Where the code takes [np.ceil] of a product, the
      product is rounded to the nearest float first ([round64]), since the
      rounding decides the integer. Sums, quotients and the interpolation
      of [np.percentile] are exact; the statements that depend on them say
      so.
    - Random draws are an explicit argument.
    - The functions of scikit-learn and scipy called by [update_probs]
      are fields of a record [scilib]; what is known about their results
      is stated as hypotheses of the theorems that need it. *)

From Stdlib Require Import List Arith ZArith QArith Qround Qabs Lia Lqa Bool Permutation.
From Stdlib Require Import Sorting.Sorted.
Import ListNotations.

Set Implicit Arguments.

Local Open Scope nat_scope.

(** ** Exceptions and results *)

Inductive exn : Type :=
| ValueError
| IndexError
| TypeError.

Inductive result (A : Type) : Type :=
| Ok (a : A)
| Raise (e : exn).

Arguments Ok {A} a.
Arguments Raise {A} e.

Definition bind {A B : Type} (c : result A) (k : A -> result B) : result B :=
  match c with
  | Ok a => k a
  | Raise e => Raise e
  end.

Notation "x <- c ;; k" := (bind c (fun x => k))
  (at level 61, c at next level, right associativity).

Fixpoint mapM {A B : Type} (f : A -> result B) (l : list A) : result (list B) :=
  match l with
  | [] => Ok []
  | x :: t => y <- f x ;; ys <- mapM f t ;; Ok (y :: ys)
  end.

Fixpoint foldM {A S : Type} (f : S -> A -> result S) (l : list A) (s : S)
  : result S :=
  match l with
  | [] => Ok s
  | x :: t => s' <- f s x ;; foldM f t s'
  end.

(** ** Numbers *)

Definition Qlt_bool (a b : Q) : bool := negb (Qle_bool b a).

(** The value of a numpy floating point expression. *)
Inductive npfloat : Type :=
| Fin (q : Q)
| PosInf
| NegInf
| NaN.

(** [a / b] on numpy floats: a division by zero does not raise, it gives
    [nan] for [0 / 0] and an infinity otherwise. *)
Definition np_divide (a b : Q) : npfloat :=
  if Qeq_bool b 0 then
    if Qeq_bool a 0 then NaN
    else if Qle_bool 0 a then PosInf else NegInf
  else Fin (a / b).

(** [x < p] and [x >= p] for a finite [x]; a comparison with [nan] is false. *)
Definition np_less (x : Q) (p : npfloat) : bool :=
  match p with
  | Fin q => Qlt_bool x q
  | PosInf => true
  | NegInf => false
  | NaN => false
  end.

Definition np_greater_equal (x : Q) (p : npfloat) : bool :=
  match p with
  | Fin q => Qle_bool q x
  | PosInf => false
  | NegInf => true
  | NaN => false
  end.

Definition is_finite (p : npfloat) : bool :=
  match p with
  | Fin _ => true
  | _ => false
  end.

(** [x > p] and [x <= p] for a finite [x]. *)
Definition np_greater (x : Q) (p : npfloat) : bool :=
  match p with
  | Fin q => Qlt_bool q x
  | PosInf => false
  | NegInf => true
  | NaN => false
  end.

Definition np_less_equal (x : Q) (p : npfloat) : bool :=
  match p with
  | Fin q => Qle_bool x q
  | PosInf => true
  | NegInf => false
  | NaN => false
  end.

(** *** Rounding

    A Python float is an IEEE 754 binary64 number: 53 significant bits,
    exponents down to the subnormal numbers (multiples of 2^-1074), and
    overflow to an infinity from 2^1024 on. A finite float is given by its
    exact value; [round64 x] is the float nearest to the rational [x],
    ties going to the even significand. This is also how a decimal
    literal is read, so that [round64 (1 # 10)] is the float [0.1]. The
    sign of a zero is not recorded (no operation of the program
    distinguishes [-0.0] from [0.0]). *)

Definition Qpow2 (e : Z) : Q :=
  match e with
  | Z0 => 1%Q
  | Zpos p => inject_Z (2 ^ Zpos p)
  | Zneg p => (1 # (2 ^ p))%Q
  end.

(** The integer part of the binary logarithm of a positive rational. *)
Definition Qlog2 (x : Q) : Z :=
  let l := (Z.log2 (Qnum x) - Z.log2 (Zpos (Qden x)))%Z in
  if Qle_bool (Qpow2 l) x then l else (l - 1)%Z.

Definition round_half_even (x : Q) : Z :=
  let f := Qfloor x in
  match (x - inject_Z f ?= 1 # 2)%Q with
  | Lt => f
  | Gt => (f + 1)%Z
  | Eq => if Z.even f then f else (f + 1)%Z
  end.

Definition round64 (x : Q) : npfloat :=
  if Qeq_bool x 0 then Fin 0
  else
    let e := Z.max (Qlog2 (Qabs x) - 52) (-1074) in
    let y := Qred (inject_Z (round_half_even (x / Qpow2 e)) * Qpow2 e) in
    if Qle_bool (Qpow2 1024) (Qabs y)
    then (if Qle_bool 0 x then PosInf else NegInf)
    else Fin y.

(** The sign of a float that is not [nan]: [Lt], [Eq] or [Gt]. *)
Definition fl_sign (a : npfloat) : comparison :=
  match a with
  | Fin x => (x ?= 0)%Q
  | PosInf => Gt
  | NegInf => Lt
  | NaN => Eq
  end.

(** [a * b] on floats: the exact product, rounded; an infinity times
    zero is [nan]. *)
Definition fl_mul (a b : npfloat) : npfloat :=
  match a, b with
  | NaN, _ | _, NaN => NaN
  | Fin x, Fin y => round64 (x * y)
  | _, _ =>
      match fl_sign a, fl_sign b with
      | Eq, _ | _, Eq => NaN
      | Gt, Gt | Lt, Lt => PosInf
      | _, _ => NegInf
      end
  end.

(** [np.ceil(a)]. *)
Definition np_ceil (a : npfloat) : npfloat :=
  match a with
  | Fin x => Fin (inject_Z (Qceiling x))
  | _ => a
  end.

Definition Zsum (l : list Z) : Z := fold_left Z.add l 0%Z.

Definition Qsum (l : list Q) : Q := fold_left Qplus l 0%Q.

Definition Qsum_fin (l : list npfloat) : Q :=
  Qsum (map (fun p => match p with Fin q => q | _ => 0%Q end) l).

(** ** numpy arrays *)

Definition matrix (A : Type) : Type := list (list A).

(** [l[i] = v] for [i] in range. *)
Fixpoint set_nth {A : Type} (i : nat) (v : A) (l : list A) {struct l} : list A :=
  match l, i with
  | [], _ => []
  | _ :: t, O => v :: t
  | x :: t, S i' => x :: set_nth i' v t
  end.

(** [m[i, j]], read at indices that are in range. *)
Definition entry {A : Type} (d : A) (m : matrix A) (i j : nat) : A :=
  nth j (nth i m []) d.

(** [m[i, j] = v]. *)
Definition set_entry {A : Type} (m : matrix A) (i j : nat) (v : A) : matrix A :=
  set_nth i (set_nth j v (nth i m [])) m.

(** [m[:, j]]. *)
Definition col {A : Type} (d : A) (m : matrix A) (j : nat) : list A :=
  map (fun row => nth j row d) m.

(** [m[:, j]] on an array with [ncols] columns. *)
Definition np_col {A : Type} (d : A) (ncols : nat) (m : matrix A) (j : nat)
  : result (list A) :=
  if j <? ncols then Ok (col d m j) else Raise IndexError.

(** [m[:, j]] on an array with [ncols] columns, every row of which is
    read at [j]. *)
Definition np_column {A : Type} (ncols : nat) (m : matrix A) (j : nat)
  : result (list A) :=
  if j <? ncols then
    mapM (fun row => match nth_error row j with
                     | Some x => Ok x
                     | None => Raise IndexError
                     end) m
  else Raise IndexError.

(** [np.zeros([r, c])] and [np.zeros(n)]. *)
Definition np_zeros2 {A : Type} (zero : A) (r c : nat) : matrix A :=
  repeat (repeat zero c) r.

(** [np.where(mask)[0]]: the indices at which [mask] holds, increasing. *)
Fixpoint where_from (i : nat) (mask : list bool) : list nat :=
  match mask with
  | [] => []
  | b :: t => if b then i :: where_from (S i) t else where_from (S i) t
  end.

Definition np_where (mask : list bool) : list nat := where_from 0 mask.

(** [v[idx] = x] for an index array [idx]. *)
Definition assign_at {A : Type} (v : list A) (idx : list nat) (x : A) : list A :=
  fold_left (fun v r => set_nth r x v) idx v.

(** [m[idx, j] = x] for an index array [idx] of rows. *)
Definition assign_rows_col {A : Type} (m : matrix A) (idx : list nat) (j : nat)
  (x : A) : matrix A :=
  fold_left (fun m r => set_entry m r j x) idx m.

(** [m[:, j] = x]. *)
Definition assign_col {A : Type} (m : matrix A) (j : nat) (x : A) : matrix A :=
  map (set_nth j x) m.

(** [m[:, j] = x] on an array with [ncols] columns. *)
Definition np_assign_col {A : Type} (ncols : nat) (m : matrix A) (j : nat) (x : A)
  : result (matrix A) :=
  if j <? ncols then Ok (assign_col m j x) else Raise IndexError.

(** [m[idx]] for an index array [idx] of rows. *)
Definition np_take {A : Type} (m : matrix A) (idx : list nat) : result (matrix A) :=
  mapM (fun r => match nth_error m r with
                 | Some row => Ok row
                 | None => Raise IndexError
                 end) idx.

(** [np.argmax(l)]: the first index of a maximal element. *)
Fixpoint argmax_from (best_i : nat) (best : Q) (i : nat) (l : list Q) : nat :=
  match l with
  | [] => best_i
  | x :: t =>
      if Qlt_bool best x then argmax_from i x (S i) t
      else argmax_from best_i best (S i) t
  end.

Definition np_argmax (l : list Q) : result nat :=
  match l with
  | [] => Raise ValueError
  | x :: t => Ok (argmax_from 0 x 1 t)
  end.

(** [np.argmin(l)]: the first index of a minimal element. *)
Fixpoint argmin_from (best_i : nat) (best : Q) (i : nat) (l : list Q) : nat :=
  match l with
  | [] => best_i
  | x :: t =>
      if Qlt_bool x best then argmin_from i x (S i) t
      else argmin_from best_i best (S i) t
  end.

Definition np_argmin (l : list Q) : result nat :=
  match l with
  | [] => Raise ValueError
  | x :: t => Ok (argmin_from 0 x 1 t)
  end.

(** Number of columns of a 2-D array given by its rows. *)
Definition ncols {A : Type} (m : matrix A) : nat :=
  match m with
  | [] => 0
  | r :: _ => length r
  end.

(** [np.argmin(m, axis = 0)]: for each column, the row of its first
    minimum; of an array without rows there is no minimum to take. *)
Definition np_argmin_axis0 (m : matrix Q) : result (list nat) :=
  match m with
  | [] => Raise ValueError
  | _ => mapM (fun c => np_argmin (col 0%Q m c)) (seq 0 (ncols m))
  end.

(** [m[:, 1:]]. *)
Definition drop_first_col {A : Type} (m : matrix A) : matrix A :=
  map (@tl A) m.

(** ** numpy.percentile

    [np.percentile(a, q)] is a library function. It is modelled from its
    documentation (default method, linear interpolation): with the sorted
    values [s] of [a] and [n = len(a)], the virtual index is
    [q / 100 * (n - 1)], and the result interpolates linearly between the
    two order statistics around it. [q] outside of [0, 100] raises
    [ValueError]; of an empty array there is no order statistic to take,
    and the call raises ([IndexError]). The interpolation is exact here:
    in floating point the result can differ from it in its last bits. *)




(** ** Fitness functions *)

Record FitnessFn : Type := mkFitnessFn {
  evaluate : list Z -> result Q
}.

(** [OneMax.evaluate]: [sum(bitstring)]. *)
Definition OneMax : FitnessFn :=
  mkFitnessFn (fun bitstring => Ok (inject_Z (Zsum bitstring))).

(** [FlipFlop.evaluate]: the number of positions that differ from the
    position before. *)
Definition FlipFlop_evaluate (bitstring : list Z) : Z :=
  fold_left
    (fun fitness i =>
       if negb (Z.eqb (nth i bitstring 0%Z) (nth (i - 1) bitstring 0%Z))
       then (fitness + 1)%Z else fitness)
    (seq 1 (length bitstring - 1)) 0%Z.

Definition FlipFlop : FitnessFn :=
  mkFitnessFn (fun bitstring => Ok (inject_Z (FlipFlop_evaluate bitstring))).

(** [head(b, x)]: the [for] loop that counts and leaves at the first
    element other than [b]. *)
Fixpoint head_loop (b : Z) (x : list Z) (idx : list nat) (head : Z) : Z :=
  match idx with
  | [] => head
  | i :: rest =>
      if Z.eqb (nth i x 0%Z) b then head_loop b x rest (head + 1)%Z else head
  end.

Definition head (b : Z) (x : list Z) : Z :=
  head_loop b x (seq 0 (length x)) 0%Z.

(** [tail(b, x)]: the same loop over [x[len(x) - i - 1]]. *)
Fixpoint tail_loop (b : Z) (x : list Z) (idx : list nat) (tail : Z) : Z :=
  match idx with
  | [] => tail
  | i :: rest =>
      if Z.eqb (nth (length x - i - 1) x 0%Z) b
      then tail_loop b x rest (tail + 1)%Z else tail
  end.

Definition tail (b : Z) (x : list Z) : Z :=
  tail_loop b x (seq 0 (length x)) 0%Z.

(** One round of the loop of [max_run] on the element [v]; the state is
    the pair [(max_run, run)]. *)
Definition max_run_step (b : Z) (st : Z * Z) (v : Z) : Z * Z :=
  if Z.eqb v b then (fst st, (snd st + 1)%Z)
  else ((if Z.ltb (fst st) (snd st) then snd st else fst st), 0%Z).

Definition max_run (b : Z) (x : list Z) : Z :=
  fst (fold_left (fun st i => max_run_step b st (nth i x 0%Z))
                 (seq 0 (length x)) (0%Z, 0%Z)).

(** [np.ceil(t_pct*n)] for the float [t_pct] and the integer [n], which
    the product converts to a float ([n] is the length of an array, far
    below the 2^1024 from which this conversion fails). *)
Definition threshold (t_pct : Q) (n : Z) : npfloat :=
  np_ceil (fl_mul (round64 t_pct) (round64 (inject_Z n))).

(** [FourPeaks(t_pct).evaluate]. *)
Definition FourPeaks_evaluate (t_pct : Q) (bitstring : list Z) : Z :=
  let n := Z.of_nat (length bitstring) in
  let t := threshold t_pct n in
  let tail_0 := tail 0 bitstring in
  let head_1 := head 1 bitstring in
  let r := if (np_greater (inject_Z tail_0) t
               && np_greater (inject_Z head_1) t)%bool then n else 0%Z in
  (Z.max tail_0 head_1 + r)%Z.

Definition FourPeaks (t_pct : Q) : FitnessFn :=
  mkFitnessFn (fun bitstring => Ok (inject_Z (FourPeaks_evaluate t_pct bitstring))).

(** [SixPeaks(t_pct).evaluate]. *)
Definition SixPeaks_evaluate (t_pct : Q) (bitstring : list Z) : Z :=
  let n := Z.of_nat (length bitstring) in
  let t := threshold t_pct n in
  let head_0 := head 0 bitstring in
  let tail_0 := tail 0 bitstring in
  let head_1 := head 1 bitstring in
  let tail_1 := tail 1 bitstring in
  let r := if ((np_greater (inject_Z tail_0) t && np_greater (inject_Z head_1) t)
               || (np_greater (inject_Z tail_1) t
                   && np_greater (inject_Z head_0) t))%bool then n else 0%Z in
  (Z.max tail_0 head_1 + r)%Z.

Definition SixPeaks (t_pct : Q) : FitnessFn :=
  mkFitnessFn (fun bitstring => Ok (inject_Z (SixPeaks_evaluate t_pct bitstring))).

(** [ContinuousPeaks(t_pct).evaluate]. *)
Definition ContinuousPeaks_evaluate (t_pct : Q) (bitstring : list Z) : Z :=
  let n := Z.of_nat (length bitstring) in
  let t := threshold t_pct n in
  let max_0 := max_run 0 bitstring in
  let max_1 := max_run 1 bitstring in
  let r := if (np_greater (inject_Z max_0) t
               && np_greater (inject_Z max_1) t)%bool then n else 0%Z in
  (Z.max max_0 max_1 + r)%Z.

Definition ContinuousPeaks (t_pct : Q) : FitnessFn :=
  mkFitnessFn
    (fun bitstring => Ok (inject_Z (ContinuousPeaks_evaluate t_pct bitstring))).

(** [a * b] on 1-D arrays: element by element, an array of one element is
    broadcast, other shapes do not match. *)
Definition np_multiply (a b : list Q) : result (list Q) :=
  if length a =? length b then Ok (map (fun xy => (fst xy * snd xy)%Q) (combine a b))
  else if length a =? 1 then Ok (map (fun y => (nth 0 a 0 * y)%Q) b)
  else if length b =? 1 then Ok (map (fun x => (x * nth 0 b 0)%Q) a)
  else Raise ValueError.

(** [Knapsack(weights, values, max_weight_pct)]: the stored capacity
    [W = np.ceil(sum(weights)*max_weight_pct)] and [evaluate]. The product
    is a float product. The sums are taken exactly, which is what the
    code computes for integer weights and values whose totals stay below
    2^53. *)
Definition Knapsack_W (weights : list Q) (max_weight_pct : Q) : npfloat :=
  np_ceil (fl_mul (round64 (Qsum weights)) (round64 max_weight_pct)).

Definition Knapsack_evaluate (weights values : list Q) (max_weight_pct : Q)
  (bitstring : list Z) : result Q :=
  let bits := map inject_Z bitstring in
  bw <- np_multiply bits weights ;;
  let total_weight := Qsum bw in
  bv <- np_multiply bits values ;;
  let total_value := Qsum bv in
  if np_less_equal total_weight (Knapsack_W weights max_weight_pct)
  then Ok total_value else Ok 0%Q.

Definition Knapsack (weights values : list Q) (max_weight_pct : Q) : FitnessFn :=
  mkFitnessFn (Knapsack_evaluate weights values max_weight_pct).

(** ** class BitString *)

Module BitString.

Record t : Type := mk {
  length : nat;
  state : list Z;
  neighbors : list (list Z);
  fitness_fn : FitnessFn;
  fitness : Q
}.

Definition init (len : nat) (fn : FitnessFn) : t :=
  mk len (repeat 0%Z len) [] fn 0.

Definition get_length (self : t) : nat := length self.
Definition get_fitness (self : t) : Q := fitness self.
Definition get_state (self : t) : list Z := state self.

Definition calculate_fitness (self : t) (bitstring : list Z) : result Q :=
  evaluate (fitness_fn self) bitstring.

Definition set_state (self : t) (new_bitstring : list Z) : result t :=
  let self1 := mk (length self) new_bitstring (neighbors self)
                  (fitness_fn self) (fitness self) in
  f <- calculate_fitness self1 (state self1) ;;
  Ok (mk (length self1) (state self1) (neighbors self1) (fitness_fn self1) f).

(** [neighbor = np.copy(self.state); neighbor[i] = np.abs(neighbor[i] - 1)] *)
Definition flip (st : list Z) (i : nat) : result (list Z) :=
  match nth_error st i with
  | Some b => Ok (set_nth i (Z.abs (b - 1)) st)
  | None => Raise IndexError
  end.

Definition find_neighbors (self : t) : result t :=
  ns <- foldM (fun acc i => neighbor <- flip (state self) i ;;
                            Ok (acc ++ [neighbor]))
              (seq 0 (length self)) [] ;;
  Ok (mk (length self) (state self) ns (fitness_fn self) (fitness self)).

Definition best_neighbor (self : t) : result (list Z) :=
  fitness_list <- foldM (fun acc n => f <- evaluate (fitness_fn self) n ;;
                                      Ok (acc ++ [f]))
                        (neighbors self) [] ;;
  i <- np_argmax fitness_list ;;
  match nth_error (neighbors self) i with
  | Some best => Ok best
  | None => Raise IndexError
  end.

(** [reset]: [bits] is the vector drawn by
    [np.random.randint(0, 2, self.length)]. *)
Definition reset (self : t) (bits : list Z) : result t :=
  let self1 := mk (length self) bits (neighbors self)
                  (fitness_fn self) (fitness self) in
  f <- calculate_fitness self1 (state self1) ;;
  Ok (mk (length self1) (state self1) (neighbors self1) (fitness_fn self1) f).

(** [random_neighbor]: [i] is the index drawn by
    [np.random.randint(0, self.length)], which raises [ValueError] when the
    length is 0. *)
Definition random_neighbor (self : t) (i : nat) : result (list Z) :=
  if Nat.eqb (length self) 0 then Raise ValueError
  else flip (state self) i.

End BitString.

(** ** class Genetic(BitString) *)

Module Genetic.

Record t : Type := mk {
  base : BitString.t;
  population : matrix Z;
  pop_fitness : list Q;
  probs : list npfloat
}.

Definition init (len : nat) (fn : FitnessFn) : t :=
  mk (BitString.init len fn) [] [] [].

(** [self.probs = self.pop_fitness/np.sum(self.pop_fitness)] *)
Definition calculate_probs (self : t) : result t :=
  let total := Qsum (pop_fitness self) in
  Ok (mk (base self) (population self) (pop_fitness self)
         (map (fun f => np_divide f total) (pop_fitness self))).

Definition get_population (self : t) : matrix Z := population self.

Definition set_population (self : t) (new_population : matrix Z) : result t :=
  let self1 := mk (base self) new_population (pop_fitness self) (probs self) in
  pf <- foldM (fun acc i =>
                 match nth_error (population self1) i with
                 | Some member =>
                     f <- BitString.calculate_fitness (base self1) member ;;
                     Ok (acc ++ [f])
                 | None => Raise IndexError
                 end)
              (seq 0 (length (population self1))) [] ;;
  Ok (mk (base self1) (population self1) pf (probs self1)).

Definition best_child (self : t) : result (list Z) :=
  i <- np_argmax (pop_fitness self) ;;
  match nth_error (population self) i with
  | Some best => Ok best
  | None => Raise IndexError
  end.

(** [create_population]: [draw i] is the bitstring returned by the i-th
    call of [self.random()]. *)
Definition create_population (self : t) (pop_size : nat) (draw : nat -> list Z)
  : result t :=
  acc <- foldM (fun acc i =>
                  let state := draw i in
                  fitness <- BitString.calculate_fitness (base self) state ;;
                  Ok (fst acc ++ [state], snd acc ++ [fitness]))
               (seq 0 pop_size) ([], []) ;;
  Ok (mk (base self) (fst acc) (snd acc) (probs self)).

End Genetic.

(** ** scikit-learn and scipy

    The library functions called by [ProbOpt.update_probs]. A sparse matrix
    is given by its dense form ([csr_matrix] and [toarray] are the identity
    on it), in which a zero entry is an absent edge.
    - [mutual_info_score a b]: [sklearn.metrics.mutual_info_score], which
      validates its arguments and can raise.
    - [minimum_spanning_tree g]: [scipy.sparse.csgraph.minimum_spanning_tree].
    - [depth_first_tree g root]:
      [scipy.sparse.csgraph.depth_first_tree(g, root, directed=False)]. *)

Record scilib : Type := mkScilib {
  mutual_info_score : list Z -> list Z -> result Q;
  minimum_spanning_tree : matrix Q -> matrix Q;
  depth_first_tree : matrix Q -> nat -> matrix Q
}.

(** ** class ProbOpt(Genetic) *)

Module ProbOpt.

(** [probs] is the attribute that [ProbOpt.__init__] rebinds to the
    2 x length table of conditional probabilities. *)
Record t : Type := mk {
  base : Genetic.t;
  keep_sample : matrix Z;
  probs : matrix npfloat;
  parent : list nat
}.

Definition length (self : t) : nat := BitString.length (Genetic.base (base self)).
Definition population (self : t) : matrix Z := Genetic.population (base self).
Definition pop_fitness (self : t) : list Q := Genetic.pop_fitness (base self).

Definition init (len : nat) (fn : FitnessFn) : t :=
  mk (Genetic.init len fn) [] (np_zeros2 (Fin 0) 2 len) [].

(** The selection of [select_keep_sample] (lines 301 to 305), for the
    threshold [theta] that the percentile call returned. *)
Definition keep_above (self : t) (theta : npfloat) : result t :=
  let keep_inds :=
    np_where (map (fun f => np_greater_equal f theta) (pop_fitness self)) in
  ks <- np_take (population self) keep_inds ;;
  Ok (mk (base self) ks (probs self) (parent self)).


(** The number of columns of the elite sample. A list of rows does not
    record the number of columns of an array without rows: the empty
    elite sample is read as the array of shape 0 x length that
    [select_keep_sample] leaves when it keeps no member. (The constructor
    stores a Python list without elements, on which a column read raises
    [TypeError]; the model does not tell it from that array, and where
    the model raises on the empty elite sample the code raises on both.) *)
Definition keep_cols (self : t) : nat :=
  match keep_sample self with
  | [] => length self
  | row :: _ => List.length row
  end.

(** The matrix of negated mutual information of [update_probs]; it reads
    the columns [keep_sample[:, i]] and [keep_sample[:, j]] and hands them
    to [mutual_info_score]. *)
Definition mutual_info_matrix (lib : scilib) (self : t) : result (matrix Q) :=
  let L := length self in
  let ks := keep_sample self in
  let w := keep_cols self in
  foldM
    (fun m i =>
       foldM
         (fun m j =>
            a <- np_column w ks i ;;
            b <- np_column w ks j ;;
            v <- mutual_info_score lib a b ;;
            Ok (set_entry m i j (-1 * v)%Q))
         (seq (i + 1) (L - (i + 1))) m)
    (seq 0 (L - 1)) (np_zeros2 0%Q L L).

(** The depth first tree of [update_probs], as a dense matrix. *)
Definition dft_matrix (lib : scilib) (self : t) : result (matrix Q) :=
  mutual_info <- mutual_info_matrix lib self ;;
  let mst := minimum_spanning_tree lib mutual_info in
  Ok (depth_first_tree lib mst 0).

(** The rows of [ks] whose column [c] holds [j], for an array [ks] of [w]
    columns: [ks[np.where(ks[:, c] == j)[0]]]. *)
Definition subset_where (w : nat) (ks : matrix Z) (c : nat) (j : Z)
  : result (matrix Z) :=
  column <- np_column w ks c ;;
  np_take ks (np_where (map (fun b => Z.eqb b j) column)).

Definition update_probs (lib : scilib) (self : t) : result t :=
  let L := length self in
  let ks := keep_sample self in
  let w := keep_cols self in
  dft <- dft_matrix lib self ;;
  parent <- np_argmin_axis0 (drop_first_col dft) ;;
  let probs := np_zeros2 (Fin 0) 2 L in
  probs <-
    (if Nat.eqb (List.length ks) 0 then np_assign_col L probs 0 (Fin 0)
     else
       first <- np_column w ks 0 ;;
       np_assign_col L probs 0
         (np_divide (inject_Z (Zsum first))
                    (inject_Z (Z.of_nat (List.length ks))))) ;;
  probs <- foldM
    (fun probs i =>
       foldM
         (fun probs j =>
            match nth_error parent (i - 1) with
            | None => Raise IndexError
            | Some p =>
                subset <- subset_where w ks p (Z.of_nat j) ;;
                column <- np_column w subset i ;;
                let count := Zsum column in
                if Nat.eqb (List.length subset) 0 then
                  Ok (set_entry probs j i (Fin 0))
                else
                  Ok (set_entry probs j i
                        (np_divide (inject_Z count)
                           (inject_Z (Z.of_nat (List.length subset)))))
            end)
         (seq 0 2) probs)
    (seq 1 (L - 1)) probs ;;
  Ok (mk (base self) ks probs parent).

(** The body of the [while] loop of [find_sample_order]:
    [inds] collects, for each [i] of [last], [np.where(parent == i)[0] + 1]. *)
Definition children (parent : list nat) (last : list nat) : list nat :=
  flat_map (fun i => map S (np_where (map (fun p => Nat.eqb p i) parent))) last.

Fixpoint sample_order_loop (fuel : nat) (parent : list nat)
  (sample_order last : list nat) : option (list nat) :=
  if List.length sample_order <? List.length parent + 1 then
    match fuel with
    | O => None
    | S fuel' =>
        let inds := children parent last in
        sample_order_loop fuel' parent (sample_order ++ last) inds
    end
  else Some sample_order.

Definition find_sample_order (fuel : nat) (parent : list nat)
  : option (list nat) :=
  sample_order_loop fuel parent [] [0].

(** One round of the [for] loop of [generate_new_sample], for position [i]. *)
Definition sample_position (self : t) (sample_size : nat)
  (rand_sample : matrix Q) (new_sample : matrix Z) (i : nat)
  : result (matrix Z) :=
  let L := length self in
  match nth_error (parent self) (i - 1) with
  | None => Raise IndexError
  | Some par_ind =>
      let probs := repeat (Fin 0) sample_size in
      par_col <- np_col 0%Z L new_sample par_ind ;;
      let ind_0 := np_where (map (fun b => Z.eqb b 0) par_col) in
      let ind_1 := np_where (map (fun b => Z.eqb b 1) par_col) in
      p0 <- match nth_error (nth 0 (ProbOpt.probs self) []) i with
            | Some p => Ok p
            | None => Raise IndexError
            end ;;
      let probs := assign_at probs ind_0 p0 in
      p1 <- match nth_error (nth 1 (ProbOpt.probs self) []) i with
            | Some p => Ok p
            | None => Raise IndexError
            end ;;
      let probs := assign_at probs ind_1 p1 in
      rand_col <- np_col 0%Q L rand_sample i ;;
      let hit := np_where (map (fun xp => np_less (fst xp) (snd xp))
                               (combine rand_col probs)) in
      Ok (assign_rows_col new_sample hit i 1%Z)
  end.

(** [rand_sample] is the matrix drawn by [np.random.uniform]; [None] when
    [find_sample_order] does not return within [fuel] rounds. *)
Definition generate_new_sample (fuel : nat) (self : t) (sample_size : nat)
  (rand_sample : matrix Q) : option (result (matrix Z)) :=
  let L := length self in
  let new_sample := np_zeros2 0%Z sample_size L in
  match nth_error (nth 0 (probs self) []) 0 with
  | None => Some (Raise IndexError)
  | Some p00 =>
      let hit := np_where (map (fun x => np_less x p00) (col 0%Q rand_sample 0)) in
      let new_sample := assign_rows_col new_sample hit 0 1%Z in
      match find_sample_order fuel (parent self) with
      | None => None
      | Some order =>
          let sample_order := tl order in
          Some (foldM (sample_position self sample_size rand_sample)
                      sample_order new_sample)
      end
  end.

End ProbOpt.

(** ** Sample objects

    The objects at which the theorems are instantiated. *)

(** A [BitString] of length 4 with the [OneMax] fitness, after
    [set_state([0, 1, 0, 0])]. *)
Definition ex_bitstring : BitString.t :=
  BitString.mk 4 [0; 1; 0; 0]%Z [] OneMax 1.

(** The same object after [find_neighbors()]. *)
Definition ex_neighbors : BitString.t :=
  BitString.mk 4 [0; 1; 0; 0]%Z
    [[1; 1; 0; 0]; [0; 0; 0; 0]; [0; 1; 1; 0]; [0; 1; 0; 1]]%Z OneMax 1.

(** A [Genetic] object of length 4 with the population
    [1,1,1,1], [0,0,0,0], [1,0,1,0] of fitness 4, 0, 2. *)
Definition ex_genetic : Genetic.t :=
  Genetic.mk (BitString.init 4 OneMax)
    [[1; 1; 1; 1]; [0; 0; 0; 0]; [1; 0; 1; 0]]%Z [4; 0; 2]%Q [].

(** A [Genetic] object of length 4 whose two members have fitness 0. *)
Definition ex_zero_fitness : Genetic.t :=
  Genetic.mk (BitString.init 4 OneMax)
    [[0; 0; 0; 0]; [0; 0; 0; 0]]%Z [0; 0]%Q [].

(** A [ProbOpt] object of length 3 with the elite sample [1,1,1], [1,0,1],
    a table of conditional probabilities, and the parent array of the
    chain 0 - 1 - 2. *)
Definition ex_probopt : ProbOpt.t :=
  ProbOpt.mk
    (Genetic.mk (BitString.init 3 OneMax)
       [[1; 1; 1]; [0; 0; 0]; [1; 0; 1]]%Z [3; 0; 2]%Q [])
    [[1; 1; 1]; [1; 0; 1]]%Z
    [[Fin 1; Fin 0; Fin 1]; [Fin 1; Fin (1 # 2); Fin 1]]
    [0; 1].

(** Two rows of uniform draws for three positions. *)
Definition ex_draws : matrix Q :=
  [[1 # 3; 1 # 3; 1 # 3]; [2 # 3; 2 # 3; 2 # 3]]%Q.

(** Library results on an elite sample in which at most one column
    varies, such as the one of [ex_probopt]: every pair of columns then
    has mutual information 0, the graph that [update_probs] builds has no
    edge, and its spanning tree and depth first tree have none either. On
    empty columns the mutual information call raises. *)
Definition ex_scilib : scilib :=
  mkScilib
    (fun a _ => match a with
                | [] => Raise ValueError
                | _ => Ok 0%Q
                end)
    (fun g => g) (fun t _ => t).

(** A [ProbOpt] object of length 3 whose elite sample is empty. *)
Definition ex_empty_elite : ProbOpt.t :=
  ProbOpt.mk
    (Genetic.mk (BitString.init 3 OneMax)
       [[1; 1; 1]; [0; 0; 0]; [1; 0; 1]]%Z [3; 0; 2]%Q [])
    [] (np_zeros2 (Fin 0) 2 3) [].

(** A [ProbOpt] object of length 3 with the population of [ex_probopt]
    (fitness 3, 0, 2), before any elite selection. *)
Definition ex_population : ProbOpt.t :=
  ProbOpt.mk
    (Genetic.mk (BitString.init 3 OneMax)
       [[1; 1; 1]; [0; 0; 0]; [1; 0; 1]]%Z [3; 0; 2]%Q [])
    [] (np_zeros2 (Fin 0) 2 3) [].

(** ** Predicates used in the statements *)

Definition is_bit (b : Z) : Prop := b = 0%Z \/ b = 1%Z.

(** Number of positions at which two vectors differ. *)
Definition hamming (a b : list Z) : nat :=
  length (filter (fun p => negb (Z.eqb (fst p) (snd p))) (combine a b)).

(** [raises c]: the call [c] ends with an exception. *)
Definition raises {A : Type} (c : result A) : Prop := exists e, c = Raise e.

(** [at_depth parent i d]: position [i] lies [d] parent links below the
    root 0, where [parent[j]] is the parent of position [j + 1]. *)
Inductive at_depth (parent : list nat) : nat -> nat -> Prop :=
| depth_root : at_depth parent 0 0
| depth_child (j p d : nat) :
    nth_error parent j = Some p ->
    at_depth parent p d ->
    at_depth parent (S j) (S d).

(** [parent] encodes a tree over the positions [0 .. length parent] rooted
    at 0: every position reaches the root by finitely many parent links. *)
Definition is_tree (parent : list nat) : Prop :=
  forall i, i <= length parent -> exists d, at_depth parent i d.

(** Every position of [order] other than the root comes after its parent. *)
Definition parents_first (parent order : list nat) : Prop :=
  forall k j p,
    nth_error order k = Some (S j) ->
    nth_error parent j = Some p ->
    exists k', k' < k /\ nth_error order k' = Some p.

(** The positions of [order] come level by level. *)
Definition by_levels (parent order : list nat) : Prop :=
  forall k1 k2 x1 x2 d1 d2,
    k1 <= k2 ->
    nth_error order k1 = Some x1 -> nth_error order k2 = Some x2 ->
    at_depth parent x1 d1 -> at_depth parent x2 d2 ->
    d1 <= d2.

(** A breadth-first order of the tree [parent]. *)
Definition bfs_order (parent order : list nat) : Prop :=
  Permutation order (seq 0 (length parent + 1)) /\
  hd_error order = Some 0 /\
  parents_first parent order /\
  by_levels parent order.

(** Invariant of the [while] loop of [find_sample_order] when it starts
    its round number [d]: [sample_order] holds the levels above [d], in
    breadth-first order, and [last] is the level [d]. *)
Definition bfs_inv (parent : list nat) (d : nat) (sample_order last : list nat)
  : Prop :=
  (forall x, In x sample_order <-> exists d', d' < d /\ at_depth parent x d') /\
  (forall x, In x last <-> at_depth parent x d) /\
  NoDup sample_order /\ NoDup last /\
  parents_first parent sample_order /\
  by_levels parent sample_order /\
  hd_error (sample_order ++ last) = Some 0.

Definition bit_of (b : bool) : Z := if b then 1%Z else 0%Z.

(** Executable test for [is_tree]: every position reaches the root within
    [length parent] parent links. *)
Fixpoint climbs (parent : list nat) (fuel i : nat) : bool :=
  match i with
  | O => true
  | S j =>
      match fuel with
      | O => false
      | S fuel' =>
          match nth_error parent j with
          | Some p => climbs parent fuel' p
          | None => false
          end
      end
  end.

Definition is_treeb (parent : list nat) : bool :=
  forallb (climbs parent (length parent)) (seq 0 (length parent + 1)).

(** [sampled_bit self rand out r c]: in the sample [out], the bit [c] of
    the candidate [r] is the one that the draws [rand] and the model of
    [self] determine. For the root it is 1 iff the draw is below
    [probs[0, 0]]; for another position it is 1 iff the draw is below
    [probs[v, c]], [v] being the candidate's bit at the parent of [c]. *)
Definition sampled_bit (self : ProbOpt.t) (rand : matrix Q) (out : matrix Z)
  (r c : nat) : Prop :=
  match c with
  | O =>
      entry 0%Z out r 0
      = bit_of (np_less (entry 0%Q rand r 0)
                        (entry (Fin 0) (ProbOpt.probs self) 0 0))
  | S j =>
      exists p,
        nth_error (ProbOpt.parent self) j = Some p /\
        is_bit (entry 0%Z out r p) /\
        entry 0%Z out r c
        = bit_of (np_less (entry 0%Q rand r c)
                          (entry (Fin 0) (ProbOpt.probs self)
                                 (Z.to_nat (entry 0%Z out r p)) c))
  end.

(** The bit-1 probability that [generate_new_sample] gives, at position
    [i], to a candidate whose bit at the parent position is [v]. *)
Definition cond_prob (P : matrix npfloat) (v : Z) (i : nat) : npfloat :=
  if Z.eqb v 1 then entry (Fin 0) P 1 i
  else if Z.eqb v 0 then entry (Fin 0) P 0 i
  else Fin 0.

(** The fraction of ones at position [i] among the rows of [ks] whose
    bit at position [p] is [j]; 0 when there is no such row. *)
Definition cond_freq (ks : matrix Z) (p : nat) (j : Z) (i : nat) : npfloat :=
  let subset := filter (fun row => Z.eqb (nth p row 0%Z) j) ks in
  if Nat.eqb (length subset) 0 then Fin 0
  else np_divide (inject_Z (Zsum (col 0%Z subset i)))
                 (inject_Z (Z.of_nat (length subset))).

(** The fraction of ones at position 0 among the rows of [ks]; 0 when
    [ks] is empty. *)
Definition marginal_freq (ks : matrix Z) : npfloat :=
  if Nat.eqb (length ks) 0 then Fin 0
  else np_divide (inject_Z (Zsum (col 0%Z ks 0)))
                 (inject_Z (Z.of_nat (length ks))).

(** A float that is not below zero: a finite number that is not
    negative, [inf], or [nan] (which compares false with everything). *)
Definition not_below_zero (a : npfloat) : Prop :=
  match a with
  | Fin x => (0 <= x)%Q
  | NegInf => False
  | _ => True
  end.

(** A finite number in [[0, 1]]. *)
Definition is_probability (p : npfloat) : Prop :=
  exists q, p = Fin q /\ (0 <= q)%Q /\ (q <= 1)%Q.

(** A 2-D array of shape [r] x [c]. *)
Definition shape {A : Type} (r c : nat) (m : matrix A) : Prop :=
  length m = r /\ Forall (fun row => length row = c) m.

(** Invariant of the [for] loop of [generate_new_sample] after the
    positions [done]: the root and the positions of [done] are sampled, the
    other positions still hold 0. *)
Definition sample_inv (self : ProbOpt.t) (k : nat) (rand : matrix Q)
  (done : list nat) (M : matrix Z) : Prop :=
  shape k (ProbOpt.length self) M /\
  forall r c, r < k -> c < ProbOpt.length self ->
    (In c (0 :: done) -> sampled_bit self rand M r c) /\
    (~ In c (0 :: done) -> entry 0%Z M r c = 0%Z).

(** [ancestor parent n i]: the position reached from [i] by [n] parent
    links, if there is one (the root has no parent). *)
Fixpoint ancestor (parent : list nat) (n i : nat) : option nat :=
  match n with
  | O => Some i
  | S n' =>
      match i with
      | O => None
      | S j =>
          match nth_error parent j with
          | Some p => ancestor parent n' p
          | None => None
          end
      end
  end.

(** What is known of [mutual_info_score]: for two label arrays of the
    same positive length it returns a number that is not negative, and on
    empty arrays it raises [ValueError]. *)
Definition sklearn_contract (lib : scilib) : Prop :=
  (forall a b, a <> [] -> length a = length b ->
     exists v, mutual_info_score lib a b = Ok v /\ (0 <= v)%Q) /\
  mutual_info_score lib [] [] = Raise ValueError.

(** What is known of the library functions at the arguments that
    [update_probs] passes to them, for an object of length [L]:
    - [mutual_info_score] is as above;
    - the minimum spanning tree keeps entries of the graph it is given;
    - the depth first tree is an [L] x [L] matrix whose non-zero entries
      are edges of the (undirected) spanning tree, each from a node to a
      node that the traversal discovers later ([rank] is the discovery
      time), so that they form no cycle. *)
Definition scilib_contract (lib : scilib) (self : ProbOpt.t) : Prop :=
  let L := ProbOpt.length self in
  sklearn_contract lib /\
  forall g, ProbOpt.mutual_info_matrix lib self = Ok g ->
    let mst := minimum_spanning_tree lib g in
    let dft := depth_first_tree lib mst 0 in
    (forall i j, i < L -> j < L ->
       (entry 0 mst i j == 0 \/ entry 0 mst i j == entry 0 g i j)%Q) /\
    shape L L dft /\
    (forall p c, p < L -> c < L ->
       (entry 0 dft p c == 0 \/ entry 0 dft p c == entry 0 mst p c \/
        entry 0 dft p c == entry 0 mst c p)%Q) /\
    (exists rank : nat -> nat,
       forall p c, p < L -> c < L -> ~ (entry 0 dft p c == 0)%Q -> rank p < rank c).

(** The elite sample of [self] has at least one row, and its rows have
    the length of the object. *)
Definition elite_of_length (self : ProbOpt.t) : Prop :=
  ProbOpt.keep_sample self <> [] /\
  Forall (fun row => length row = ProbOpt.length self) (ProbOpt.keep_sample self).

(** A parent array with six positions: 2 below the root, 1 and 5 below 2,
    3 and 4 below 1. *)
Definition ex_parent : list nat := [2; 0; 1; 1; 2].

(** * Properties *)

(** ** Results and loops *)

Lemma foldM_snoc_mapM (A B : Type) (f : A -> result B) (l : list A) (acc : list B) :
  foldM (fun acc x => y <- f x ;; Ok (acc ++ [y])) l acc
  = (ys <- mapM f l ;; Ok (acc ++ ys)).
Proof.
  revert acc. induction l as [| x t IH]; intros acc; simpl.
  - now rewrite app_nil_r.
  - destruct (f x) as [y | e]; simpl; [| reflexivity].
    rewrite IH. destruct (mapM f t) as [ys | e]; simpl; [| reflexivity].
    now rewrite <- app_assoc.
Qed.

Lemma mapM_pure (A B : Type) (f : A -> result B) (g : A -> B) (l : list A) :
  (forall x, In x l -> f x = Ok (g x)) -> mapM f l = Ok (map g l).
Proof.
  induction l as [| x t IH]; intros H; simpl; [reflexivity |].
  rewrite (H x (or_introl eq_refl)). simpl.
  rewrite IH; [reflexivity |]. intros y Hy. apply H. now right.
Qed.

Lemma mapM_raise (A B : Type) (f : A -> result B) (l : list A) (e : exn) :
  mapM f l = Raise e -> exists x, In x l /\ f x = Raise e.
Proof.
  induction l as [| x t IH]; simpl; [discriminate |].
  destruct (f x) as [y | e'] eqn:Hx; simpl.
  - destruct (mapM f t) as [ys | e'']; simpl; [discriminate |].
    intros [= ->]. destruct (IH eq_refl) as [z [Hz Hfz]]. exists z. auto.
  - intros [= ->]. exists x. auto.
Qed.

(** ** Lists updated by index *)

Lemma length_set_nth (A : Type) (i : nat) (v : A) (l : list A) :
  length (set_nth i v l) = length l.
Proof.
  revert i. induction l as [| x t IH]; intros [| i]; simpl; auto.
Qed.

Lemma nth_set_nth (A : Type) (d : A) (i j : nat) (v : A) (l : list A) :
  nth j (set_nth i v l) d
  = if (Nat.eqb j i && Nat.ltb i (length l))%bool then v else nth j l d.
Proof.
  revert i j. induction l as [| x t IH]; intros i j; simpl.
  - rewrite andb_false_r. now destruct j.
  - destruct i as [| i], j as [| j]; simpl; auto.
Qed.

Lemma nth_set_nth_same (A : Type) (d : A) (i : nat) (v : A) (l : list A) :
  i < length l -> nth i (set_nth i v l) d = v.
Proof.
  intros H. rewrite nth_set_nth, Nat.eqb_refl.
  apply Nat.ltb_lt in H. now rewrite H.
Qed.

Lemma nth_set_nth_other (A : Type) (d : A) (i j : nat) (v : A) (l : list A) :
  j <> i -> nth j (set_nth i v l) d = nth j l d.
Proof.
  intros H. rewrite nth_set_nth.
  apply Nat.eqb_neq in H. now rewrite H.
Qed.

Lemma hamming_cons (x y : Z) (a b : list Z) :
  hamming (x :: a) (y :: b) = (if Z.eqb x y then 0 else 1) + hamming a b.
Proof.
  unfold hamming. simpl. now destruct (Z.eqb x y).
Qed.

Lemma hamming_refl (a : list Z) : hamming a a = 0.
Proof.
  induction a as [| x t IH]; [reflexivity |].
  rewrite hamming_cons, Z.eqb_refl, IH. reflexivity.
Qed.

Lemma hamming_set_nth (i : nat) (v : Z) (l : list Z) :
  i < length l -> v <> nth i l 0%Z -> hamming (set_nth i v l) l = 1.
Proof.
  revert i. induction l as [| x t IH]; intros i Hi Hv; simpl in Hi; [lia |].
  destruct i as [| i]; simpl set_nth; rewrite hamming_cons.
  - simpl in Hv. apply Z.eqb_neq in Hv. now rewrite Hv, hamming_refl.
  - rewrite Z.eqb_refl, IH; [reflexivity | lia | exact Hv].
Qed.

(** ** BitString *)

Lemma flip_in_range (st : list Z) (i : nat) :
  i < length st ->
  BitString.flip st i = Ok (set_nth i (Z.abs (nth i st 0%Z - 1)) st).
Proof.
  intros Hi. unfold BitString.flip.
  now rewrite (nth_error_nth' st 0%Z Hi).
Qed.

Lemma find_neighbors_eq (self : BitString.t) :
  length (BitString.state self) = BitString.length self ->
  BitString.find_neighbors self
  = Ok (BitString.mk (BitString.length self) (BitString.state self)
          (map (fun i => set_nth i (Z.abs (nth i (BitString.state self) 0%Z - 1))
                           (BitString.state self))
               (seq 0 (BitString.length self)))
          (BitString.fitness_fn self) (BitString.fitness self)).
Proof.
  intros Hlen. unfold BitString.find_neighbors.
  rewrite foldM_snoc_mapM.
  rewrite (mapM_pure _
    (fun i => set_nth i (Z.abs (nth i (BitString.state self) 0%Z - 1))
                (BitString.state self))).
  - reflexivity.
  - intros i Hi. apply in_seq in Hi. apply flip_in_range. lia.
Qed.

Lemma abs_pred_bit (b : Z) : is_bit b -> Z.abs (b - 1) = (1 - b)%Z /\ Z.abs (b - 1) <> b.
Proof. intros [-> | ->]; split; simpl; lia. Qed.

(** C7. For a state of [length] bits, [find_neighbors] stores exactly
    [length] neighbors; the i-th is the state with the bit at position i
    flipped and no other change, hence at Hamming distance 1; the state,
    the fitness and the other attributes are unchanged. *)
Theorem find_neighbors_flips_each_bit (self : BitString.t) :
  length (BitString.state self) = BitString.length self ->
  Forall is_bit (BitString.state self) ->
  exists self',
    BitString.find_neighbors self = Ok self' /\
    length (BitString.neighbors self') = BitString.length self /\
    (forall i, i < BitString.length self ->
       exists n,
         nth_error (BitString.neighbors self') i = Some n /\
         length n = BitString.length self /\
         (forall j, nth j n 0%Z
                    = if Nat.eqb j i then (1 - nth j (BitString.state self) 0)%Z
                      else nth j (BitString.state self) 0%Z) /\
         hamming n (BitString.state self) = 1) /\
    BitString.state self' = BitString.state self /\
    BitString.fitness self' = BitString.fitness self /\
    BitString.length self' = BitString.length self /\
    BitString.fitness_fn self' = BitString.fitness_fn self.
Proof.
  intros Hlen Hbits. eexists. split; [apply find_neighbors_eq, Hlen |].
  simpl. split; [now rewrite length_map, length_seq |].
  split; [| repeat split].
  intros i Hi.
  set (st := BitString.state self) in *.
  assert (Hb : is_bit (nth i st 0%Z)).
  { rewrite Forall_forall in Hbits. apply Hbits, nth_In. lia. }
  destruct (abs_pred_bit Hb) as [Habs Hne].
  exists (set_nth i (Z.abs (nth i st 0%Z - 1)) st). repeat split.
  - rewrite nth_error_map, nth_error_seq.
    destruct (Nat.ltb_spec i (BitString.length self)); [reflexivity | lia].
  - now rewrite length_set_nth.
  - intros j. rewrite nth_set_nth.
    destruct (Nat.eqb_spec j i) as [-> | Hji]; simpl; [| reflexivity].
    destruct (Nat.ltb_spec i (length st)); [exact Habs | lia].
  - apply hamming_set_nth; [lia | exact Hne].
Qed.

Lemma find_neighbors_flips_each_bit_witness :
  exists self',
    BitString.find_neighbors ex_bitstring = Ok self' /\
    length (BitString.neighbors self') = BitString.length ex_bitstring /\
    (forall i, i < BitString.length ex_bitstring ->
       exists n,
         nth_error (BitString.neighbors self') i = Some n /\
         length n = BitString.length ex_bitstring /\
         (forall j, nth j n 0%Z
                    = if Nat.eqb j i
                      then (1 - nth j (BitString.state ex_bitstring) 0)%Z
                      else nth j (BitString.state ex_bitstring) 0%Z) /\
         hamming n (BitString.state ex_bitstring) = 1) /\
    BitString.state self' = BitString.state ex_bitstring /\
    BitString.fitness self' = BitString.fitness ex_bitstring /\
    BitString.length self' = BitString.length ex_bitstring /\
    BitString.fitness_fn self' = BitString.fitness_fn ex_bitstring.
Proof.
  apply find_neighbors_flips_each_bit.
  - reflexivity.
  - repeat (apply Forall_cons; [unfold is_bit; auto |]). apply Forall_nil.
Defined.

Lemma argmax_from_spec (l pre : list Q) (bi : nat) (b : Q) :
  bi < length pre ->
  b = nth bi pre 0%Q ->
  (forall x, In x pre -> (x <= b)%Q) ->
  (forall k, k < bi -> (nth k pre 0 < b)%Q) ->
  let r := argmax_from bi b (length pre) l in
  r < length (pre ++ l) /\
  (forall x, In x (pre ++ l) -> (x <= nth r (pre ++ l) 0)%Q) /\
  (forall k, k < r -> (nth k (pre ++ l) 0 < nth r (pre ++ l) 0)%Q).
Proof.
  revert pre bi b. induction l as [| x t IH]; intros pre bi b Hbi Hb Hmax Hfirst; simpl.
  - rewrite app_nil_r. subst b. auto.
  - assert (Hassoc : pre ++ x :: t = (pre ++ [x]) ++ t) by now rewrite <- app_assoc.
    assert (Hlen : S (length pre) = length (pre ++ [x])) by (rewrite length_app; simpl; lia).
    rewrite Hassoc, Hlen. unfold Qlt_bool.
    destruct (Qle_bool x b) eqn:Hcmp; simpl.
    + apply Qle_bool_iff in Hcmp. apply IH.
      * rewrite length_app. simpl. lia.
      * rewrite app_nth1 by exact Hbi. exact Hb.
      * intros y Hy. apply in_app_or in Hy as [Hy | [<- | []]]; auto.
      * intros k Hk. rewrite app_nth1 by lia. auto.
    + assert (Hlt : (b < x)%Q).
      { apply Qnot_le_lt. intros Hle. apply Qle_bool_iff in Hle. congruence. }
      apply (IH (pre ++ [x]) (length pre) x).
      * rewrite length_app. simpl. lia.
      * rewrite app_nth2 by lia. now rewrite Nat.sub_diag.
      * intros y Hy. apply in_app_or in Hy as [Hy | [<- | []]].
        -- apply Qlt_le_weak. eapply Qle_lt_trans; [apply Hmax, Hy | exact Hlt].
        -- apply Qle_refl.
      * intros k Hk. rewrite app_nth1 by lia.
        eapply Qle_lt_trans; [apply Hmax, nth_In; lia | exact Hlt].
Qed.

Lemma np_argmax_spec (l : list Q) :
  l <> [] ->
  exists r,
    np_argmax l = Ok r /\ r < length l /\
    (forall x, In x l -> (x <= nth r l 0)%Q) /\
    (forall k, k < r -> (nth k l 0 < nth r l 0)%Q).
Proof.
  destruct l as [| x t]; [congruence | intros _].
  exists (argmax_from 0 x 1 t). split; [reflexivity |].
  apply (@argmax_from_spec t [x] 0 x); simpl; auto; try lia.
  intros y [<- | []]. apply Qle_refl.
Qed.

Lemma best_neighbor_general (self : BitString.t) (fit : list Z -> Q) :
  BitString.neighbors self <> [] ->
  (forall n, In n (BitString.neighbors self) ->
             evaluate (BitString.fitness_fn self) n = Ok (fit n)) ->
  exists i best,
    BitString.best_neighbor self = Ok best /\
    nth_error (BitString.neighbors self) i = Some best /\
    (forall n, In n (BitString.neighbors self) -> (fit n <= fit best)%Q) /\
    (forall k n, k < i -> nth_error (BitString.neighbors self) k = Some n ->
                 (fit n < fit best)%Q).
Proof.
  intros Hne Hfit. unfold BitString.best_neighbor.
  rewrite foldM_snoc_mapM, (mapM_pure _ fit _ Hfit). simpl.
  set (ns := BitString.neighbors self) in *.
  destruct (@np_argmax_spec (map fit ns)) as [r [Hr [Hlt [Hmax Hfirst]]]].
  { destruct ns; [congruence | discriminate]. }
  rewrite length_map in Hlt.
  assert (Hnth : forall k, k < length ns -> nth k (map fit ns) 0%Q = fit (nth k ns [])).
  { intros k Hk. rewrite (nth_indep _ 0%Q (fit [])) by now rewrite length_map.
    apply map_nth. }
  exists r, (nth r ns []). rewrite Hr. simpl.
  rewrite (nth_error_nth' ns [] Hlt). repeat split.
  - intros n Hn. rewrite <- (Hnth r Hlt). apply Hmax, in_map, Hn.
  - intros k n Hk Hkn.
    assert (Hkl : k < length ns) by lia.
    rewrite (nth_error_nth' ns [] Hkl) in Hkn. injection Hkn as <-.
    rewrite <- (Hnth r Hlt), <- (Hnth k Hkl). apply Hfirst, Hk.
Qed.

(** C8. On a non-empty neighbor list whose members the evaluator accepts,
    [best_neighbor] returns a neighbor of maximal fitness, and every
    neighbor before it in the list has a strictly smaller fitness (first
    occurrence wins a tie). With length 4, [OneMax] and state [0,1,0,0],
    the fitness is 1, the neighbors have fitness 2, 0, 2, 2 and the result
    is [1,1,0,0]. *)
Theorem best_neighbor_first_maximum :
  (forall (self : BitString.t) (fit : list Z -> Q),
      BitString.neighbors self <> [] ->
      (forall n, In n (BitString.neighbors self) ->
                 evaluate (BitString.fitness_fn self) n = Ok (fit n)) ->
      exists i best,
        BitString.best_neighbor self = Ok best /\
        nth_error (BitString.neighbors self) i = Some best /\
        (forall n, In n (BitString.neighbors self) -> (fit n <= fit best)%Q) /\
        (forall k n, k < i -> nth_error (BitString.neighbors self) k = Some n ->
                     (fit n < fit best)%Q)) /\
  (exists self1 self2,
      BitString.set_state (BitString.init 4 OneMax) [0; 1; 0; 0]%Z = Ok self1 /\
      BitString.fitness self1 = 1%Q /\
      BitString.find_neighbors self1 = Ok self2 /\
      BitString.neighbors self2
      = [[1; 1; 0; 0]; [0; 0; 0; 0]; [0; 1; 1; 0]; [0; 1; 0; 1]]%Z /\
      map (evaluate OneMax) (BitString.neighbors self2)
      = [Ok 2%Q; Ok 0%Q; Ok 2%Q; Ok 2%Q] /\
      BitString.best_neighbor self2 = Ok [1; 1; 0; 0]%Z).
Proof.
  split; [exact best_neighbor_general |].
  eexists. eexists.
  split; [reflexivity |]. split; [reflexivity |].
  split; [reflexivity |]. split; [reflexivity |].
  split; reflexivity.
Qed.

Lemma best_neighbor_first_maximum_witness :
  exists i best,
    BitString.best_neighbor ex_neighbors = Ok best /\
    nth_error (BitString.neighbors ex_neighbors) i = Some best /\
    (forall n, In n (BitString.neighbors ex_neighbors) ->
               (inject_Z (Zsum n) <= inject_Z (Zsum best))%Q) /\
    (forall k n, k < i -> nth_error (BitString.neighbors ex_neighbors) k = Some n ->
                 (inject_Z (Zsum n) < inject_Z (Zsum best))%Q).
Proof.
  apply (proj1 best_neighbor_first_maximum ex_neighbors
               (fun n => inject_Z (Zsum n))).
  - discriminate.
  - intros n _. reflexivity.
Defined.

(** C10. While the neighbor list is the empty list set by the constructor,
    [best_neighbor] returns no neighbor: the argmax of the empty fitness
    list raises [ValueError]. *)
Theorem best_neighbor_needs_find_neighbors (self : BitString.t) :
  BitString.neighbors self = [] ->
  BitString.best_neighbor self = Raise ValueError.
Proof.
  intros H. unfold BitString.best_neighbor. rewrite H. reflexivity.
Qed.

Lemma best_neighbor_needs_find_neighbors_witness :
  BitString.neighbors (BitString.init 4 OneMax) = [] /\
  BitString.best_neighbor (BitString.init 4 OneMax) = Raise ValueError.
Proof.
  split; [reflexivity |].
  apply best_neighbor_needs_find_neighbors. reflexivity.
Defined.

Lemma init_neighbors (len : nat) (fn : FitnessFn) :
  BitString.neighbors (BitString.init len fn) = [].
Proof. reflexivity. Qed.

Lemma set_state_neighbors (self self' : BitString.t) (bits : list Z) :
  BitString.set_state self bits = Ok self' ->
  BitString.neighbors self' = BitString.neighbors self.
Proof.
  unfold BitString.set_state, BitString.calculate_fitness. simpl.
  destruct (evaluate (BitString.fitness_fn self) bits); simpl; [| discriminate].
  now intros [= <-].
Qed.

Lemma foldM_ext (A S : Type) (f g : S -> A -> result S) (l : list A) (s : S) :
  (forall s x, In x l -> f s x = g s x) -> foldM f l s = foldM g l s.
Proof.
  revert s. induction l as [| x t IH]; intros s H; simpl; [reflexivity |].
  rewrite (H s x (or_introl eq_refl)).
  destruct (g s x) as [s' | e]; simpl; [| reflexivity].
  apply IH. intros s0 y Hy. apply H. now right.
Qed.

Lemma mapM_by_index (A B : Type) (f : A -> result B) (l pre : list A) :
  mapM (fun i => match nth_error (pre ++ l) i with
                 | Some x => f x
                 | None => Raise IndexError
                 end) (seq (length pre) (length l))
  = mapM f l.
Proof.
  revert pre. induction l as [| x t IH]; intros pre; simpl; [reflexivity |].
  rewrite nth_error_app2, Nat.sub_diag by lia. simpl.
  destruct (f x) as [y | e]; simpl; [| reflexivity].
  replace (pre ++ x :: t) with ((pre ++ [x]) ++ t) by now rewrite <- app_assoc.
  replace (S (length pre)) with (length (pre ++ [x])) by (rewrite length_app; simpl; lia).
  now rewrite IH.
Qed.

Lemma set_population_eq (self : Genetic.t) (new_population : matrix Z) :
  Genetic.set_population self new_population
  = (pf <- mapM (evaluate (BitString.fitness_fn (Genetic.base self))) new_population ;;
     Ok (Genetic.mk (Genetic.base self) new_population pf (Genetic.probs self))).
Proof.
  unfold Genetic.set_population. simpl.
  rewrite (@foldM_ext _ _ _
    (fun acc i =>
       y <- match nth_error new_population i with
            | Some member => evaluate (BitString.fitness_fn (Genetic.base self)) member
            | None => Raise IndexError
            end ;;
       Ok (acc ++ [y]))).
  - rewrite foldM_snoc_mapM.
    pose proof (mapM_by_index (evaluate (BitString.fitness_fn (Genetic.base self)))
                  new_population []) as H.
    simpl in H. rewrite H. now destruct (mapM _ new_population).
  - intros s i _. unfold BitString.calculate_fitness.
    destruct (nth_error new_population i); reflexivity.
Qed.

(** C5, as the code has it. [set_state] and [set_population] make no
    length check: they store the supplied bit vector (population) as it is
    and take the fitness from the evaluator; they raise only when the
    evaluator raises, with the evaluator's exception. *)
Theorem set_state_set_population_store_any_length :
  (forall (self : BitString.t) (new_bitstring : list Z),
      match evaluate (BitString.fitness_fn self) new_bitstring with
      | Ok f =>
          BitString.set_state self new_bitstring
          = Ok (BitString.mk (BitString.length self) new_bitstring
                  (BitString.neighbors self) (BitString.fitness_fn self) f)
      | Raise e => BitString.set_state self new_bitstring = Raise e
      end) /\
  (forall (self : Genetic.t) (new_population : matrix Z),
      match mapM (evaluate (BitString.fitness_fn (Genetic.base self)))
                 new_population with
      | Ok pf =>
          Genetic.set_population self new_population
          = Ok (Genetic.mk (Genetic.base self) new_population pf
                  (Genetic.probs self))
      | Raise e =>
          Genetic.set_population self new_population = Raise e /\
          exists member, In member new_population /\
            evaluate (BitString.fitness_fn (Genetic.base self)) member = Raise e
      end).
Proof.
  split.
  - intros self bits. unfold BitString.set_state, BitString.calculate_fitness. simpl.
    destruct (evaluate (BitString.fitness_fn self) bits); reflexivity.
  - intros self pop. rewrite set_population_eq.
    destruct (mapM _ pop) as [pf | e] eqn:Hm; simpl; [reflexivity |].
    split; [reflexivity |]. apply mapM_raise, Hm.
Qed.

(** C5 fails on the code: with declared length 4, [set_state] accepts a
    vector of length 2 and [set_population] accepts members of length 2;
    neither raises. *)
Lemma set_state_set_population_accept_mismatch :
  (length [1; 1]%Z <> BitString.length (BitString.init 4 OneMax) /\
   ~ raises (BitString.set_state (BitString.init 4 OneMax) [1; 1]%Z)) /\
  ((exists member, In member [[1; 0]; [0; 1]]%Z /\
      length member <> BitString.length (Genetic.base (Genetic.init 4 OneMax))) /\
   ~ raises (Genetic.set_population (Genetic.init 4 OneMax) [[1; 0]; [0; 1]]%Z)).
Proof.
  split; [split | split].
  - discriminate.
  - intros [e He]. discriminate He.
  - exists [1; 0]%Z. split; [now left | discriminate].
  - intros [e He]. discriminate He.
Qed.

(** ** Genetic *)

Lemma Qsum_acc (l : list Q) (acc : Q) :
  (fold_left Qplus l acc == acc + Qsum l)%Q.
Proof.
  unfold Qsum. revert acc. induction l as [| x t IH]; intros acc; simpl.
  - ring.
  - rewrite (IH (acc + x)%Q), (IH (0 + x)%Q). ring.
Qed.

Lemma Qsum_cons (x : Q) (l : list Q) : (Qsum (x :: l) == x + Qsum l)%Q.
Proof.
  unfold Qsum at 1. simpl. rewrite Qsum_acc. ring.
Qed.

Lemma Qsum_map_div (l : list Q) (T : Q) :
  (Qsum (map (fun f => f / T) l) == Qsum l / T)%Q.
Proof.
  induction l as [| x t IH]; simpl.
  - unfold Qsum. simpl. unfold Qdiv. ring.
  - rewrite !Qsum_cons, IH. unfold Qdiv. ring.
Qed.

Lemma np_divide_nonzero (a b : Q) : ~ (b == 0)%Q -> np_divide a b = Fin (a / b).
Proof.
  intros H. unfold np_divide.
  destruct (Qeq_bool b 0) eqn:E; [| reflexivity].
  apply Qeq_bool_iff in E. contradiction.
Qed.

Lemma np_divide_zero (a b : Q) :
  (b == 0)%Q ->
  is_finite (np_divide a b) = false /\ ((a == 0)%Q -> np_divide a b = NaN).
Proof.
  intros H. unfold np_divide. apply Qeq_bool_iff in H. rewrite H. split.
  - destruct (Qeq_bool a 0); [reflexivity |]. now destruct (Qle_bool 0 a).
  - intros Ha. apply Qeq_bool_iff in Ha. now rewrite Ha.
Qed.

(** C6, as the code has it. [calculate_probs] never raises. It stores, for
    each member, the fitness divided by the total fitness; when the total is
    not zero these values are finite and sum to 1. When the total is zero
    no error is raised: every stored value is [nan] or an infinity, and it
    is [nan] for each member of fitness 0. *)
Theorem calculate_probs_normalises (self : Genetic.t) :
  exists self',
    Genetic.calculate_probs self = Ok self' /\
    Genetic.base self' = Genetic.base self /\
    Genetic.population self' = Genetic.population self /\
    Genetic.pop_fitness self' = Genetic.pop_fitness self /\
    length (Genetic.probs self') = length (Genetic.pop_fitness self) /\
    (~ (Qsum (Genetic.pop_fitness self) == 0)%Q ->
       Genetic.probs self'
       = map (fun f => Fin (f / Qsum (Genetic.pop_fitness self)))
             (Genetic.pop_fitness self) /\
       (Qsum_fin (Genetic.probs self') == 1)%Q) /\
    ((Qsum (Genetic.pop_fitness self) == 0)%Q ->
       Forall (fun p => is_finite p = false) (Genetic.probs self') /\
       (forall i f, nth_error (Genetic.pop_fitness self) i = Some f ->
                    (f == 0)%Q ->
                    nth_error (Genetic.probs self') i = Some NaN)).
Proof.
  eexists. split; [reflexivity |]. simpl.
  set (pf := Genetic.pop_fitness self). set (T := Qsum pf).
  repeat split.
  - now rewrite length_map.
  - apply map_ext. intros f. now apply np_divide_nonzero.
  - rewrite (map_ext _ (fun f => Fin (f / T))) by (intros f; now apply np_divide_nonzero).
    unfold Qsum_fin. rewrite map_map. simpl.
    rewrite Qsum_map_div. fold T. now apply Qmult_inv_r.
  - apply Forall_forall. intros p Hp. apply in_map_iff in Hp as [f [<- _]].
    now apply np_divide_zero.
  - intros i f Hi Hf. rewrite nth_error_map, Hi. simpl. f_equal.
    now apply np_divide_zero.
Qed.

Lemma calculate_probs_normalises_witness :
  exists self',
    Genetic.calculate_probs ex_genetic = Ok self' /\
    Genetic.probs self' = [Fin (4 # 6); Fin (0 # 6); Fin (2 # 6)] /\
    (Qsum_fin (Genetic.probs self') == 1)%Q.
Proof.
  destruct (calculate_probs_normalises ex_genetic)
    as [self' [Hrun [_ [_ [_ [_ [Hpos _]]]]]]].
  exists self'. split; [exact Hrun |].
  destruct Hpos as [Hp Hs]; [vm_compute; discriminate |].
  split; [rewrite Hp; reflexivity | exact Hs].
Defined.

(** C6 fails on the code: for two members of fitness 0 the total fitness
    is 0 and [calculate_probs] does not raise; it stores [nan, nan]. *)
Lemma calculate_probs_zero_total_no_error :
  (Qsum (Genetic.pop_fitness ex_zero_fitness) == 0)%Q /\
  ~ raises (Genetic.calculate_probs ex_zero_fitness) /\
  exists self',
    Genetic.calculate_probs ex_zero_fitness = Ok self' /\
    Genetic.probs self' = [NaN; NaN].
Proof.
  split; [reflexivity |]. split.
  - intros [e He]. discriminate He.
  - eexists. split; reflexivity.
Qed.

(** ** Trees given by a parent array *)

Lemma at_depth_fun (parent : list nat) (i d d' : nat) :
  at_depth parent i d -> at_depth parent i d' -> d = d'.
Proof.
  intros H. revert d'. induction H as [| j p d Hj Hp IH]; intros d' H'.
  - now inversion H'.
  - inversion H' as [| j' p' d'' Hj' Hp']; subst.
    rewrite Hj in Hj'. injection Hj' as <-. f_equal. now apply IH.
Qed.

Lemma at_depth_bound (parent : list nat) (i d : nat) :
  at_depth parent i d -> i <= length parent.
Proof.
  intros H. destruct H as [| j p d Hj _]; [lia |].
  assert (j < length parent) by (apply nth_error_Some; congruence). lia.
Qed.

Lemma at_depth_ancestor (parent : list nat) (i d : nat) :
  at_depth parent i d -> forall d', d' <= d -> exists a, at_depth parent a d'.
Proof.
  induction 1 as [| j p d Hj Hp IH]; intros d' Hd'.
  - exists 0. replace d' with 0 by lia. constructor.
  - destruct (Nat.eq_dec d' (S d)) as [-> | Hne].
    + exists (S j). econstructor; eassumption.
    + apply IH. lia.
Qed.

(** ** np.where *)

Lemma in_where_from (mask : list bool) (i x : nat) :
  In x (where_from i mask) <-> i <= x /\ nth_error mask (x - i) = Some true.
Proof.
  revert i. induction mask as [| b t IH]; intros i; simpl.
  - split; [tauto |]. intros [_ H]. now destruct (x - i).
  - assert (Hstep : In x (where_from (S i) t) <->
                    i < x /\ nth_error (b :: t) (x - i) = Some true).
    { rewrite IH. split; intros [H1 H2]; (split; [lia |]).
      - replace (x - i) with (S (x - S i)) by lia. exact H2.
      - replace (x - i) with (S (x - S i)) in H2 by lia. exact H2. }
    destruct b; simpl; rewrite Hstep; split.
    + intros [<- | [H1 H2]]; [| split; [lia | exact H2]].
      split; [lia |]. now rewrite Nat.sub_diag.
    + intros [H1 H2]. destruct (Nat.eq_dec i x) as [-> | Hne]; [now left |].
      right. split; [lia | exact H2].
    + intros [H1 H2]. split; [lia | exact H2].
    + intros [H1 H2]. destruct (Nat.eq_dec i x) as [-> | Hne].
      * rewrite Nat.sub_diag in H2. discriminate.
      * split; [lia | exact H2].
Qed.

Lemma in_np_where (mask : list bool) (x : nat) :
  In x (np_where mask) <-> nth_error mask x = Some true.
Proof.
  unfold np_where. rewrite in_where_from, Nat.sub_0_r.
  split; [tauto | intros H; split; [lia | exact H]].
Qed.

Lemma NoDup_where_from (mask : list bool) (i : nat) : NoDup (where_from i mask).
Proof.
  revert i. induction mask as [| b t IH]; intros i; simpl; [constructor |].
  destruct b; [| apply IH]. constructor; [| apply IH].
  rewrite in_where_from. lia.
Qed.

Lemma NoDup_map_S (l : list nat) : NoDup l -> NoDup (map S l).
Proof.
  induction 1 as [| x l Hx Hl IH]; simpl; constructor; [| exact IH].
  rewrite in_map_iff. intros [y [[= ->] Hy]]. contradiction.
Qed.

Lemma NoDup_flat_map (A B : Type) (f : A -> list B) (l : list A) :
  NoDup l ->
  (forall x, In x l -> NoDup (f x)) ->
  (forall x y z, In x l -> In y l -> In z (f x) -> In z (f y) -> x = y) ->
  NoDup (flat_map f l).
Proof.
  induction 1 as [| x l Hx Hl IH]; intros Hf Hdisj; simpl; [constructor |].
  apply NoDup_app.
  - apply Hf. now left.
  - apply IH.
    + intros y Hy. apply Hf. now right.
    + intros y1 y2 z H1 H2. apply Hdisj; now right.
  - intros z Hz Hz'. apply in_flat_map in Hz' as [y [Hy Hzy]].
    assert (x = y) by (apply (Hdisj x y z); auto; [now left | now right]).
    subst. contradiction.
Qed.

(** ** find_sample_order *)

Lemma in_children (parent last : list nat) (x : nat) :
  In x (ProbOpt.children parent last) <->
  exists j p, x = S j /\ nth_error parent j = Some p /\ In p last.
Proof.
  unfold ProbOpt.children. rewrite in_flat_map. split.
  - intros [p [Hp Hx]]. apply in_map_iff in Hx as [j [<- Hj]].
    apply in_np_where in Hj. rewrite nth_error_map in Hj.
    destruct (nth_error parent j) as [q |] eqn:Hq; [| discriminate].
    simpl in Hj. injection Hj as Hj. apply Nat.eqb_eq in Hj. subst q.
    exists j, p. auto.
  - intros [j [p [-> [Hj Hp]]]]. exists p. split; [exact Hp |].
    apply in_map, in_np_where. rewrite nth_error_map, Hj. simpl.
    now rewrite Nat.eqb_refl.
Qed.

Lemma NoDup_children (parent last : list nat) :
  NoDup last -> NoDup (ProbOpt.children parent last).
Proof.
  intros Hl. unfold ProbOpt.children. apply NoDup_flat_map; [exact Hl | |].
  - intros x _. apply NoDup_map_S, NoDup_where_from.
  - intros x y z _ _ Hx Hy.
    apply in_map_iff in Hx as [j [<- Hj]]. apply in_map_iff in Hy as [j' [[= ->] Hj']].
    apply in_np_where in Hj, Hj'. rewrite nth_error_map in Hj, Hj'.
    destruct (nth_error parent j) as [q |]; [| discriminate].
    simpl in Hj, Hj'. injection Hj as Hj. injection Hj' as Hj'.
    apply Nat.eqb_eq in Hj, Hj'. congruence.
Qed.

Lemma children_level (parent last : list nat) (d : nat) :
  (forall x, In x last <-> at_depth parent x d) ->
  forall x, In x (ProbOpt.children parent last) <-> at_depth parent x (S d).
Proof.
  intros Hl x. rewrite in_children. split.
  - intros [j [p [-> [Hj Hp]]]]. econstructor; [exact Hj | now apply Hl].
  - intros H. inversion H as [| j p d' Hj Hp]; subst.
    exists j, p. repeat split; [exact Hj | now apply Hl].
Qed.

Lemma sample_order_loop_eq (fuel : nat) (parent so last : list nat) :
  ProbOpt.sample_order_loop fuel parent so last
  = if length so <? length parent + 1 then
      match fuel with
      | O => None
      | S fuel' =>
          ProbOpt.sample_order_loop fuel' parent (so ++ last)
            (ProbOpt.children parent last)
      end
    else Some so.
Proof. destruct fuel; reflexivity. Qed.

Lemma sample_order_loop_fuel (parent : list nat) (fuel fuel' : nat)
  (so last order : list nat) :
  ProbOpt.sample_order_loop fuel parent so last = Some order ->
  fuel <= fuel' ->
  ProbOpt.sample_order_loop fuel' parent so last = Some order.
Proof.
  revert fuel' so last. induction fuel as [| fuel IH]; intros fuel' so last.
  - rewrite !sample_order_loop_eq.
    destruct (length so <? length parent + 1); [discriminate | auto].
  - rewrite (sample_order_loop_eq (S fuel)), (sample_order_loop_eq fuel').
    destruct (length so <? length parent + 1); [| auto].
    intros H Hle. destruct fuel' as [| fuel']; [lia |].
    apply IH; [exact H | lia].
Qed.

Lemma bfs_inv_init (parent : list nat) : bfs_inv parent 0 [] [0].
Proof.
  unfold bfs_inv. repeat split.
  - intros [].
  - intros [d' [Hd' _]]. lia.
  - intros [<- | []]. constructor.
  - intros H. inversion H. now left.
  - constructor.
  - repeat constructor. intros [].
  - intros k j p Hk. now destruct k.
  - intros k1 k2 x1 x2 d1 d2 _ Hk1. now destruct k1.
Qed.

Lemma bfs_inv_step (parent : list nat) (d : nat) (so last : list nat) :
  bfs_inv parent d so last ->
  bfs_inv parent (S d) (so ++ last) (ProbOpt.children parent last).
Proof.
  intros (Hso & Hlast & Nso & Nlast & Hpf & Hlv & Hhd).
  assert (Hin : forall x, In x (so ++ last) <->
                          exists d', d' < S d /\ at_depth parent x d').
  { intros x. rewrite in_app_iff, Hso, Hlast. split.
    - intros [[d' [Hd' Hx]] | Hx]; [exists d' | exists d]; split; auto; lia.
    - intros [d' [Hd' Hx]]. destruct (Nat.eq_dec d' d) as [-> | Hne]; [now right |].
      left. exists d'. split; [lia | exact Hx]. }
  unfold bfs_inv. repeat split; try (apply Hin).
  - apply children_level, Hlast.
  - apply children_level, Hlast.
  - apply NoDup_app; auto. intros x Hx Hx'.
    apply Hso in Hx as [d' [Hd' Hx]]. apply Hlast in Hx'.
    pose proof (at_depth_fun Hx Hx'). lia.
  - apply NoDup_children, Nlast.
  - intros k j p Hk Hj. rewrite nth_error_app in Hk.
    destruct (Nat.ltb_spec k (length so)) as [Hlt | Hge].
    + destruct (Hpf k j p Hk Hj) as [k' [Hk' Hp]]. exists k'. split; [exact Hk' |].
      rewrite nth_error_app1; [exact Hp | lia].
    + apply nth_error_In, Hlast in Hk.
      inversion Hk as [| j' p' d0 Hj' Hp']; subst.
      rewrite Hj in Hj'. injection Hj' as <-.
      assert (Hp : In p so) by (apply Hso; exists d0; split; [lia | exact Hp']).
      apply In_nth_error in Hp as [k' Hk'].
      assert (k' < length so) by (apply nth_error_Some; congruence).
      exists k'. split; [lia |]. rewrite nth_error_app1; [exact Hk' | lia].
  - intros k1 k2 x1 x2 d1 d2 Hle H1 H2 D1 D2. rewrite nth_error_app in H1, H2.
    destruct (Nat.ltb_spec k1 (length so)) as [Hlt1 | Hge1];
      destruct (Nat.ltb_spec k2 (length so)) as [Hlt2 | Hge2]; try lia.
    + exact (Hlv k1 k2 x1 x2 d1 d2 Hle H1 H2 D1 D2).
    + apply nth_error_In, Hso in H1 as [d' [Hd' Hx1]].
      apply nth_error_In, Hlast in H2.
      pose proof (at_depth_fun D1 Hx1). pose proof (at_depth_fun D2 H2). lia.
    + apply nth_error_In, Hlast in H1. apply nth_error_In, Hlast in H2.
      pose proof (at_depth_fun D1 H1). pose proof (at_depth_fun D2 H2). lia.
  - destruct (so ++ last) as [| h t]; [discriminate | exact Hhd].
Qed.

Lemma not_incl_witness (l l' : list nat) :
  incl l l' \/ exists x, In x l /\ ~ In x l'.
Proof.
  induction l as [| a l IH].
  - left. intros x [].
  - destruct (in_dec Nat.eq_dec a l') as [Ha | Ha].
    + destruct IH as [IH | [x [Hx Hx']]].
      * left. intros x [<- | Hx]; auto.
      * right. exists x. split; [now right | exact Hx'].
    + right. exists a. split; [now left | exact Ha].
Qed.

Lemma bfs_inv_progress (parent : list nat) (d : nat) (so last : list nat) :
  is_tree parent ->
  bfs_inv parent d so last ->
  length so < length parent + 1 ->
  last <> [].
Proof.
  intros Htree (Hso & Hlast & Nso & _) Hlen.
  destruct (not_incl_witness (seq 0 (length parent + 1)) so) as [Hincl | [x [Hx Hx']]].
  - apply NoDup_incl_length in Hincl; [| apply seq_NoDup].
    rewrite length_seq in Hincl. lia.
  - apply in_seq in Hx. destruct (Htree x) as [dx Hdx]; [lia |].
    assert (Hge : d <= dx).
    { destruct (Nat.le_gt_cases d dx) as [H | H]; [exact H |].
      exfalso. apply Hx', Hso. exists dx. auto. }
    destruct (at_depth_ancestor Hdx Hge) as [a Ha].
    apply Hlast in Ha. intros ->. exact Ha.
Qed.

Lemma sample_order_loop_inv (parent : list nat) :
  is_tree parent ->
  forall fuel d so last,
    bfs_inv parent d so last ->
    length parent + 1 <= fuel + length so ->
    exists order d' last',
      ProbOpt.sample_order_loop fuel parent so last = Some order /\
      bfs_inv parent d' order last' /\
      length parent + 1 <= length order.
Proof.
  intros Htree. induction fuel as [| fuel IH]; intros d so last Hinv Hfuel;
    rewrite sample_order_loop_eq;
    destruct (Nat.ltb_spec (length so) (length parent + 1)) as [Hlt | Hge].
  - lia.
  - exists so, d, last. auto.
  - pose proof (bfs_inv_progress Htree Hinv Hlt) as Hne.
    apply (IH (S d)); [apply bfs_inv_step, Hinv |].
    rewrite length_app. destruct last; [congruence | simpl; lia].
  - exists so, d, last. auto.
Qed.

Lemma bfs_inv_order (parent : list nat) (d : nat) (order last : list nat) :
  bfs_inv parent d order last ->
  length parent + 1 <= length order ->
  bfs_order parent order.
Proof.
  intros (Hso & _ & Nso & _ & Hpf & Hlv & Hhd) Hlen.
  unfold bfs_order. repeat split; auto.
  - apply NoDup_Permutation_bis; [exact Nso | now rewrite length_seq |].
    intros x Hx. apply Hso in Hx as [d' [_ Hx]].
    apply at_depth_bound in Hx. apply in_seq. lia.
  - destruct order; [simpl in Hlen; lia | exact Hhd].
Qed.

Lemma find_sample_order_bfs (parent : list nat) :
  is_tree parent ->
  exists order,
    bfs_order parent order /\
    forall fuel, length parent + 1 <= fuel ->
                 ProbOpt.find_sample_order fuel parent = Some order.
Proof.
  intros Htree.
  destruct (@sample_order_loop_inv parent Htree (length parent + 1) 0 [] [0])
    as (order & d & last & Hrun & Hinv & Hlen).
  - apply bfs_inv_init.
  - simpl. lia.
  - exists order. split; [exact (bfs_inv_order Hinv Hlen) |].
    intros fuel Hfuel. unfold ProbOpt.find_sample_order.
    exact (sample_order_loop_fuel _ _ _ Hrun Hfuel).
Qed.

(** The hypothesis [is_tree] is needed: when position 1 is its own parent
    the loop of [find_sample_order] never ends. *)
Lemma find_sample_order_diverges_on_cycle (fuel : nat) :
  ProbOpt.find_sample_order fuel [1] = None.
Proof.
  assert (H : forall fuel, ProbOpt.sample_order_loop fuel [1] [0] [] = None).
  { intros n. induction n as [| n IH]; [reflexivity | exact IH]. }
  destruct fuel as [| fuel]; [reflexivity | apply H].
Qed.

(** C3. For a parent array that encodes a tree rooted at position 0,
    [find_sample_order] terminates (within [length parent + 1] rounds of
    its loop) and returns a breadth-first order: a permutation of all
    positions, starting with 0, in which every position comes after its
    parent, level by level. *)
Theorem find_sample_order_breadth_first (parent : list nat) :
  is_tree parent ->
  exists order,
    (forall fuel, length parent + 1 <= fuel ->
                  ProbOpt.find_sample_order fuel parent = Some order) /\
    Permutation order (seq 0 (length parent + 1)) /\
    hd_error order = Some 0 /\
    parents_first parent order /\
    by_levels parent order.
Proof.
  intros Htree.
  destruct (find_sample_order_bfs Htree) as [order [Hbfs Hrun]].
  exists order. split; [exact Hrun | exact Hbfs].
Qed.

Lemma climbs_at_depth (parent : list nat) (fuel i : nat) :
  climbs parent fuel i = true -> exists d, at_depth parent i d.
Proof.
  revert i. induction fuel as [| fuel IH]; intros [| j]; simpl;
    try (intros _; exists 0; constructor); try discriminate.
  destruct (nth_error parent j) as [p |] eqn:Hj; [| discriminate].
  intros H. destruct (IH p H) as [d Hd]. exists (S d). econstructor; eassumption.
Qed.

Lemma is_treeb_sound (parent : list nat) : is_treeb parent = true -> is_tree parent.
Proof.
  unfold is_treeb, is_tree. rewrite forallb_forall. intros H i Hi.
  apply (@climbs_at_depth parent (length parent)), H, in_seq. lia.
Qed.

Lemma find_sample_order_breadth_first_witness :
  is_tree ex_parent /\
  exists order,
    (forall fuel, length ex_parent + 1 <= fuel ->
                  ProbOpt.find_sample_order fuel ex_parent = Some order) /\
    Permutation order (seq 0 (length ex_parent + 1)) /\
    hd_error order = Some 0 /\
    parents_first ex_parent order /\
    by_levels ex_parent order.
Proof.
  assert (H : is_tree ex_parent) by (apply is_treeb_sound; reflexivity).
  split; [exact H | exact (find_sample_order_breadth_first H)].
Defined.

(** ** Assignment through index arrays *)

Lemma nth_true_iff (mask : list bool) (r : nat) :
  nth r mask false = true <-> nth_error mask r = Some true.
Proof.
  revert r. induction mask as [| b t IH]; intros [| r]; simpl;
    try (split; [discriminate | discriminate]).
  - split; [now intros -> | now intros [= ->]].
  - apply IH.
Qed.

Lemma existsb_np_where (mask : list bool) (r : nat) :
  existsb (Nat.eqb r) (np_where mask) = nth r mask false.
Proof.
  apply eq_true_iff_eq. rewrite existsb_exists, nth_true_iff. split.
  - intros [x [Hx Hrx]]. apply Nat.eqb_eq in Hrx. subst x. now apply in_np_where.
  - intros H. exists r. split; [now apply in_np_where | apply Nat.eqb_refl].
Qed.

Lemma length_assign_at (A : Type) (idx : list nat) (x : A) (v : list A) :
  length (assign_at v idx x) = length v.
Proof.
  unfold assign_at. revert v. induction idx as [| i idx IH]; intros v; simpl;
    [reflexivity |].
  now rewrite IH, length_set_nth.
Qed.

Lemma nth_assign_at (A : Type) (d : A) (idx : list nat) (x : A) (v : list A)
  (r : nat) :
  nth r (assign_at v idx x) d
  = if (existsb (Nat.eqb r) idx && (r <? length v))%bool then x else nth r v d.
Proof.
  unfold assign_at. revert v. induction idx as [| i idx IH]; intros v; simpl;
    [reflexivity |].
  rewrite IH, length_set_nth, nth_set_nth.
  destruct (Nat.eqb_spec r i) as [-> | Hne]; simpl; [| reflexivity].
  destruct (existsb (Nat.eqb i) idx), (i <? length v); reflexivity.
Qed.

Lemma set_nth_idem (A : Type) (i : nat) (x : A) (l : list A) :
  set_nth i x (set_nth i x l) = set_nth i x l.
Proof.
  revert i. induction l as [| y t IH]; intros [| i]; simpl; auto.
  now rewrite IH.
Qed.

Lemma length_assign_rows_col (A : Type) (idx : list nat) (j : nat) (x : A)
  (m : matrix A) :
  length (assign_rows_col m idx j x) = length m.
Proof.
  unfold assign_rows_col. revert m. induction idx as [| i idx IH]; intros m; simpl;
    [reflexivity |].
  rewrite IH. unfold set_entry. now rewrite length_set_nth.
Qed.

Lemma nth_assign_rows_col (A : Type) (idx : list nat) (j : nat) (x : A)
  (m : matrix A) (r : nat) :
  nth r (assign_rows_col m idx j x) []
  = if (existsb (Nat.eqb r) idx && (r <? length m))%bool
    then set_nth j x (nth r m []) else nth r m [].
Proof.
  unfold assign_rows_col. revert m. induction idx as [| i idx IH]; intros m; simpl;
    [reflexivity |].
  rewrite IH. unfold set_entry. rewrite length_set_nth, nth_set_nth.
  destruct (Nat.eqb_spec r i) as [-> | Hne]; simpl; [| reflexivity].
  destruct (existsb (Nat.eqb i) idx), (i <? length m); simpl;
    try reflexivity.
  apply set_nth_idem.
Qed.

(** ** generate_new_sample *)

Lemma nth_map_in_range (A B : Type) (f : A -> B) (d : A) (d' : B) (l : list A)
  (r : nat) :
  r < length l -> nth r (map f l) d' = f (nth r l d).
Proof.
  intros H. rewrite (nth_indep _ d' (f d)) by now rewrite length_map.
  apply map_nth.
Qed.

Lemma nth_col (A : Type) (d : A) (m : matrix A) (j r : nat) :
  r < length m -> nth r (col d m j) d = entry d m r j.
Proof.
  intros H. unfold col, entry.
  exact (nth_map_in_range (fun row => nth j row d) [] d m H).
Qed.

Lemma length_col (A : Type) (d : A) (m : matrix A) (j : nat) :
  length (col d m j) = length m.
Proof. unfold col. apply length_map. Qed.

Lemma nth_overflow_map (A : Type) (f : A -> bool) (l : list A) (r : nat) :
  length l <= r -> nth r (map f l) false = false.
Proof. intros H. apply nth_overflow. now rewrite length_map. Qed.

Lemma sample_position_spec (self : ProbOpt.t) (k : nat) (rand : matrix Q)
  (M : matrix Z) (i p : nat) :
  nth_error (ProbOpt.parent self) (i - 1) = Some p ->
  p < ProbOpt.length self ->
  i < ProbOpt.length self ->
  length M = k ->
  length rand = k ->
  length (nth 0 (ProbOpt.probs self) []) = ProbOpt.length self ->
  length (nth 1 (ProbOpt.probs self) []) = ProbOpt.length self ->
  exists M',
    ProbOpt.sample_position self k rand M i = Ok M' /\
    length M' = k /\
    forall r,
      nth r M' []
      = if ((r <? k)
            && np_less (entry 0%Q rand r i)
                       (cond_prob (ProbOpt.probs self) (entry 0%Z M r p) i))%bool
        then set_nth i 1%Z (nth r M []) else nth r M [].
Proof.
  intros Hp HpL HiL HM Hrand HP0 HP1.
  unfold ProbOpt.sample_position. rewrite Hp. unfold np_col.
  apply Nat.ltb_lt in HpL, HiL. rewrite HpL, HiL. simpl.
  apply Nat.ltb_lt in HiL.
  rewrite (nth_error_nth' _ (Fin 0)) by lia. simpl.
  rewrite (nth_error_nth' _ (Fin 0)) by lia. simpl.
  eexists. split; [reflexivity |].
  split; [now rewrite length_assign_rows_col |].
  intros r. rewrite nth_assign_rows_col, existsb_np_where, HM.
  destruct (Nat.ltb_spec r k) as [Hr | Hr].
  - rewrite andb_true_r. simpl.
    rewrite (@nth_map_in_range _ _ _ (0%Q, Fin 0)).
    2:{ rewrite length_combine, length_col, length_assign_at, length_assign_at,
          repeat_length. lia. }
    rewrite combine_nth.
    2:{ now rewrite length_col, !length_assign_at, repeat_length. }
    simpl. rewrite nth_col by lia.
    rewrite !nth_assign_at, !existsb_np_where, length_assign_at, repeat_length.
    apply Nat.ltb_lt in Hr. rewrite Hr, !andb_true_r. apply Nat.ltb_lt in Hr.
    rewrite !(@nth_map_in_range _ _ _ 0%Z) by (rewrite length_col; lia).
    rewrite nth_col by lia. rewrite nth_repeat.
    unfold cond_prob, entry. reflexivity.
  - rewrite andb_false_r. reflexivity.
Qed.

Lemma shape_row (A : Type) (r c : nat) (m : matrix A) (i : nat) :
  shape r c m -> i < r -> length (nth i m []) = c.
Proof.
  intros [Hlen Hrows] Hi. rewrite Forall_nth in Hrows. apply Hrows. lia.
Qed.

Lemma shape_intro (A : Type) (r c : nat) (m : matrix A) :
  length m = r -> (forall i, i < r -> length (nth i m []) = c) -> shape r c m.
Proof.
  intros Hlen Hrows. split; [exact Hlen |]. apply Forall_nth. intros i d Hi.
  rewrite (nth_indep _ d []) by exact Hi. apply Hrows. lia.
Qed.

Lemma is_bit_bit_of (b : bool) : is_bit (bit_of b).
Proof. destruct b; [now right | now left]. Qed.

Lemma sampled_bit_is_bit (self : ProbOpt.t) (rand : matrix Q) (M : matrix Z)
  (r c : nat) :
  sampled_bit self rand M r c -> is_bit (entry 0%Z M r c).
Proof.
  destruct c as [| j]; simpl.
  - intros ->. apply is_bit_bit_of.
  - intros [p [_ [_ ->]]]. apply is_bit_bit_of.
Qed.

Lemma cond_prob_bit (P : matrix npfloat) (v : Z) (i : nat) :
  is_bit v -> cond_prob P v i = entry (Fin 0) P (Z.to_nat v) i.
Proof. intros [-> | ->]; reflexivity. Qed.

Lemma sample_inv_step (self : ProbOpt.t) (k : nat) (rand : matrix Q)
  (done : list nat) (M M' : matrix Z) (j p : nat) :
  sample_inv self k rand done M ->
  S j < ProbOpt.length self ->
  ~ In (S j) (0 :: done) ->
  nth_error (ProbOpt.parent self) j = Some p ->
  In p (0 :: done) ->
  p < ProbOpt.length self ->
  (forall j' p', In (S j') done ->
                 nth_error (ProbOpt.parent self) j' = Some p' ->
                 In p' (0 :: done)) ->
  length M' = k ->
  (forall r,
      nth r M' []
      = if ((r <? k)
            && np_less (entry 0%Q rand r (S j))
                       (cond_prob (ProbOpt.probs self) (entry 0%Z M r p) (S j)))%bool
        then set_nth (S j) 1%Z (nth r M []) else nth r M []) ->
  sample_inv self k rand (done ++ [S j]) M'.
Proof.
  intros [Hshape Hinv] HiL Hnew Hj Hp HpL Hclosed HlenM' Hrows.
  set (i := S j) in *. set (L := ProbOpt.length self) in *.
  assert (Hentry : forall r c, r < k ->
            entry 0%Z M' r c
            = if ((c =? i)
                  && np_less (entry 0%Q rand r i)
                       (cond_prob (ProbOpt.probs self) (entry 0%Z M r p) i))%bool
              then 1%Z else entry 0%Z M r c).
  { intros r c Hr. unfold entry at 1. rewrite Hrows.
    apply Nat.ltb_lt in Hr. rewrite Hr. apply Nat.ltb_lt in Hr. simpl.
    destruct (np_less _ _); [| now rewrite andb_false_r].
    rewrite nth_set_nth, (shape_row Hshape Hr).
    apply Nat.ltb_lt in HiL. rewrite HiL. reflexivity. }
  assert (Hother : forall r c, r < k -> c <> i -> entry 0%Z M' r c = entry 0%Z M r c).
  { intros r c Hr Hc. rewrite Hentry by exact Hr.
    apply Nat.eqb_neq in Hc. now rewrite Hc. }
  assert (Hpi : p <> i) by (intros ->; contradiction).
  split.
  - apply shape_intro; [exact HlenM' |]. intros r Hr. rewrite Hrows.
    destruct (_ && _)%bool; rewrite ?length_set_nth; apply (shape_row Hshape Hr).
  - intros r c Hr Hc. split.
    + intros Hin.
      assert (Hcases : c = i \/ In c (0 :: done)).
      { destruct Hin as [<- | Hin]; [right; now left |].
        apply in_app_or in Hin as [Hin | [<- | []]]; [right; now right | now left]. }
      destruct Hcases as [-> | Hold].
      * unfold i at 1. simpl. exists p. split; [exact Hj |].
        rewrite (Hother r p Hr Hpi).
        assert (Hbit : is_bit (entry 0%Z M r p)).
        { apply (@sampled_bit_is_bit self rand). now apply Hinv. }
        split; [exact Hbit |].
        fold i. rewrite Hentry by exact Hr. rewrite Nat.eqb_refl. simpl.
        rewrite <- (cond_prob_bit _ _ Hbit).
        destruct (np_less _ _); [reflexivity |].
        apply Hinv; auto.
      * assert (Hci : c <> i) by (intros ->; contradiction).
        destruct c as [| j']; simpl.
        -- rewrite (Hother r 0 Hr Hci). exact (proj1 (Hinv r 0 Hr Hc) Hold).
        -- destruct (proj1 (Hinv r (S j') Hr Hc) Hold) as [p' [Hj' [Hb He]]].
           assert (Hp'in : In p' (0 :: done)).
           { destruct Hold as [Hold | Hold]; [discriminate |].
             exact (Hclosed j' p' Hold Hj'). }
           assert (Hp'i : p' <> i) by (intros ->; contradiction).
           exists p'. split; [exact Hj' |].
           rewrite (Hother r p' Hr Hp'i), (Hother r (S j') Hr Hci). auto.
    + intros Hnin.
      assert (Hci : c <> i).
      { intros ->. apply Hnin. right. apply in_or_app. right. now left. }
      rewrite (Hother r c Hr Hci). apply Hinv; auto.
      intros [<- | Hin]; apply Hnin; [now left |].
      right. apply in_or_app. now left.
Qed.

Lemma parents_first_before (parent pre post : list nat) (j p : nat) :
  parents_first parent (pre ++ S j :: post) ->
  nth_error parent j = Some p ->
  In p pre.
Proof.
  intros Hpf Hj.
  destruct (Hpf (length pre) j p) as [k' [Hk' Hp]]; [| exact Hj |].
  - now rewrite nth_error_app2, Nat.sub_diag by lia.
  - rewrite nth_error_app1 in Hp by exact Hk'. eapply nth_error_In, Hp.
Qed.

Lemma parents_first_closed (parent pre post : list nat) (j p : nat) :
  parents_first parent (pre ++ post) ->
  In (S j) pre ->
  nth_error parent j = Some p ->
  In p pre.
Proof.
  intros Hpf Hin Hj. apply in_split in Hin as [l1 [l2 ->]].
  rewrite <- app_assoc in Hpf. simpl in Hpf.
  apply in_or_app. left. exact (parents_first_before _ _ _ Hpf Hj).
Qed.

Lemma sample_inv_fold (self : ProbOpt.t) (k : nat) (rand : matrix Q) :
  length rand = k ->
  length (nth 0 (ProbOpt.probs self) []) = ProbOpt.length self ->
  length (nth 1 (ProbOpt.probs self) []) = ProbOpt.length self ->
  length (ProbOpt.parent self) + 1 = ProbOpt.length self ->
  forall todo done M,
    parents_first (ProbOpt.parent self) ((0 :: done) ++ todo) ->
    NoDup ((0 :: done) ++ todo) ->
    (forall x, In x ((0 :: done) ++ todo) -> x < ProbOpt.length self) ->
    sample_inv self k rand done M ->
    exists M',
      foldM (ProbOpt.sample_position self k rand) todo M = Ok M' /\
      sample_inv self k rand (done ++ todo) M'.
Proof.
  intros Hrand HP0 HP1 HL.
  induction todo as [| i todo IH]; intros done M Hpf Hnd Hrange Hinv.
  - exists M. rewrite app_nil_r. split; [reflexivity | exact Hinv].
  - assert (Hnew : ~ In i (0 :: done)).
    { apply NoDup_remove_2 in Hnd. intros H. apply Hnd, in_or_app. now left. }
    destruct i as [| j]; [exfalso; apply Hnew; now left |].
    assert (HiL : S j < ProbOpt.length self).
    { apply Hrange, in_or_app. right. now left. }
    destruct (nth_error (ProbOpt.parent self) j) as [p |] eqn:Hj.
    2:{ apply nth_error_None in Hj. lia. }
    pose proof (parents_first_before _ _ _ Hpf Hj) as Hp.
    assert (HpL : p < ProbOpt.length self).
    { apply Hrange, in_or_app. now left. }
    assert (Hclosed : forall j' p', In (S j') done ->
                nth_error (ProbOpt.parent self) j' = Some p' -> In p' (0 :: done)).
    { intros j' p' Hin Hj'.
      eapply parents_first_closed; [exact Hpf | right; exact Hin | exact Hj']. }
    assert (Hj1 : nth_error (ProbOpt.parent self) (S j - 1) = Some p).
    { simpl. now rewrite Nat.sub_0_r. }
    assert (HlenM : length M = k) by apply Hinv.
    destruct (sample_position_spec self rand M Hj1 HpL HiL HlenM Hrand HP0 HP1)
      as [M1 [Hrun [Hlen1 Hrows]]].
    pose proof (@sample_inv_step self k rand done M M1 j p
                  Hinv HiL Hnew Hj Hp HpL Hclosed Hlen1 Hrows) as Hinv1.
    destruct (IH (done ++ [S j]) M1) as [M' [Hrun' Hinv']].
    + now rewrite app_comm_cons, <- app_assoc.
    + now rewrite app_comm_cons, <- app_assoc.
    + intros x Hx. apply Hrange. now rewrite app_comm_cons, <- app_assoc in Hx.
    + exact Hinv1.
    + exists M'. simpl. rewrite Hrun. simpl. split; [exact Hrun' |].
      now rewrite <- app_assoc in Hinv'.
Qed.

Lemma nth_np_zeros2 (A : Type) (z : A) (r c i : nat) :
  i < r -> nth i (np_zeros2 z r c) [] = repeat z c.
Proof. intros H. unfold np_zeros2. now apply nth_repeat_lt. Qed.

Lemma sample_inv_init (self : ProbOpt.t) (k : nat) (rand : matrix Q) :
  length rand = k ->
  0 < ProbOpt.length self ->
  sample_inv self k rand []
    (assign_rows_col (np_zeros2 0%Z k (ProbOpt.length self))
       (np_where (map (fun x => np_less x (entry (Fin 0) (ProbOpt.probs self) 0 0))
                      (col 0%Q rand 0)))
       0 1%Z).
Proof.
  intros Hrand HL. set (L := ProbOpt.length self) in *.
  set (M0 := assign_rows_col _ _ _ _).
  assert (Hrow : forall r, r < k ->
            nth r M0 []
            = if np_less (entry 0%Q rand r 0) (entry (Fin 0) (ProbOpt.probs self) 0 0)
              then set_nth 0 1%Z (repeat 0%Z L) else repeat 0%Z L).
  { intros r Hr. unfold M0.
    rewrite nth_assign_rows_col, existsb_np_where.
    unfold np_zeros2 at 1. rewrite repeat_length.
    apply Nat.ltb_lt in Hr. rewrite Hr, andb_true_r. apply Nat.ltb_lt in Hr.
    rewrite (@nth_map_in_range _ _ _ 0%Q) by (rewrite length_col; lia).
    rewrite nth_col by lia. now rewrite nth_np_zeros2. }
  split.
  - apply shape_intro.
    + unfold M0. rewrite length_assign_rows_col. apply repeat_length.
    + intros r Hr. rewrite (Hrow r Hr).
      destruct (np_less _ _); rewrite ?length_set_nth; apply repeat_length.
  - intros r c Hr Hc. split.
    + intros [<- | []]. simpl. unfold entry at 1. rewrite (Hrow r Hr).
      destruct (np_less _ _); simpl.
      * rewrite nth_set_nth_same; [reflexivity | now rewrite repeat_length].
      * apply nth_repeat.
    + intros Hnin. unfold entry. rewrite (Hrow r Hr).
      assert (c <> 0) by (intros ->; apply Hnin; now left).
      destruct (np_less _ _); rewrite ?nth_set_nth_other by assumption;
        apply nth_repeat.
Qed.

Lemma generate_new_sample_inputs (fuel : nat) (self self' : ProbOpt.t) (k : nat)
  (rand : matrix Q) :
  ProbOpt.length self' = ProbOpt.length self ->
  ProbOpt.probs self' = ProbOpt.probs self ->
  ProbOpt.parent self' = ProbOpt.parent self ->
  ProbOpt.generate_new_sample fuel self' k rand
  = ProbOpt.generate_new_sample fuel self k rand.
Proof.
  intros HL HP Hpar. unfold ProbOpt.generate_new_sample. rewrite HL, HP, Hpar.
  destruct (nth_error (nth 0 (ProbOpt.probs self) []) 0); [| reflexivity].
  destruct (ProbOpt.find_sample_order fuel (ProbOpt.parent self)); [| reflexivity].
  f_equal. apply foldM_ext. intros M i _.
  unfold ProbOpt.sample_position. now rewrite HL, HP, Hpar.
Qed.

Lemma generate_new_sample_run (self : ProbOpt.t) (k fuel : nat) (rand : matrix Q) :
  is_tree (ProbOpt.parent self) ->
  length (ProbOpt.parent self) + 1 = ProbOpt.length self ->
  shape 2 (ProbOpt.length self) (ProbOpt.probs self) ->
  length rand = k ->
  ProbOpt.length self <= fuel ->
  exists out,
    ProbOpt.generate_new_sample fuel self k rand = Some (Ok out) /\
    shape k (ProbOpt.length self) out /\
    (forall r c, r < k -> c < ProbOpt.length self -> sampled_bit self rand out r c).
Proof.
  intros Htree HL HP Hrand Hfuel.
  pose proof (shape_row HP (Nat.lt_0_succ 1)) as HP0.
  pose proof (shape_row HP (Nat.lt_succ_diag_r 1)) as HP1.
  destruct (find_sample_order_bfs Htree) as [order [(Hperm & Hhd & Hpf & _) Hrun]].
  unfold ProbOpt.generate_new_sample.
  rewrite (nth_error_nth' _ (Fin 0)) by lia.
  rewrite Hrun by lia.
  destruct order as [| x rest]; [discriminate |].
  injection Hhd as ->. simpl tl.
  assert (Hnd : NoDup (0 :: rest)).
  { apply (Permutation_NoDup (Permutation_sym Hperm)), seq_NoDup. }
  assert (Hrange : forall x, In x (0 :: rest) <-> x < ProbOpt.length self).
  { intros x. split; intros H.
    - apply (Permutation_in _ Hperm), in_seq in H. lia.
    - apply (Permutation_in _ (Permutation_sym Hperm)), in_seq. lia. }
  destruct (@sample_inv_fold self k rand Hrand HP0 HP1 HL rest [] _ Hpf Hnd
              (fun x => proj1 (Hrange x))
              (@sample_inv_init self k rand Hrand ltac:(lia)))
    as [M' [Hfold [Hshape Hinv]]].
  exists M'. split; [now rewrite <- Hfold |]. split; [exact Hshape |].
  intros r c Hr Hc. apply Hinv; auto. now apply Hrange.
Qed.

(** C2. Given the matrix of draws, a valid parent tree and a table of
    conditional probabilities, [generate_new_sample] returns a sample in
    which a candidate's bit 0 is 1 iff its draw at column 0 is below
    [probs[0, 0]], and its bit at any other position [c] is 1 iff its draw at
    column [c] is below [probs[v, c]], where [v] is the candidate's own bit
    at the parent of [c]. The result depends on the object only through its
    length, [probs] and [parent]. *)
Theorem generate_new_sample_determined (self : ProbOpt.t) (k fuel : nat)
  (rand : matrix Q) :
  is_tree (ProbOpt.parent self) ->
  length (ProbOpt.parent self) + 1 = ProbOpt.length self ->
  shape 2 (ProbOpt.length self) (ProbOpt.probs self) ->
  shape k (ProbOpt.length self) rand ->
  ProbOpt.length self <= fuel ->
  (exists out,
      ProbOpt.generate_new_sample fuel self k rand = Some (Ok out) /\
      shape k (ProbOpt.length self) out /\
      (forall r c, r < k -> c < ProbOpt.length self ->
                   sampled_bit self rand out r c)) /\
  (forall self',
      ProbOpt.length self' = ProbOpt.length self ->
      ProbOpt.probs self' = ProbOpt.probs self ->
      ProbOpt.parent self' = ProbOpt.parent self ->
      ProbOpt.generate_new_sample fuel self' k rand
      = ProbOpt.generate_new_sample fuel self k rand).
Proof.
  intros Htree HL HP [Hrand _] Hfuel. split.
  - now apply generate_new_sample_run.
  - intros self'. apply generate_new_sample_inputs.
Qed.

Lemma generate_new_sample_determined_witness :
  (exists out,
      ProbOpt.generate_new_sample 3 ex_probopt 2 ex_draws = Some (Ok out) /\
      shape 2 (ProbOpt.length ex_probopt) out /\
      (forall r c, r < 2 -> c < ProbOpt.length ex_probopt ->
                   sampled_bit ex_probopt ex_draws out r c)) /\
  (forall self',
      ProbOpt.length self' = ProbOpt.length ex_probopt ->
      ProbOpt.probs self' = ProbOpt.probs ex_probopt ->
      ProbOpt.parent self' = ProbOpt.parent ex_probopt ->
      ProbOpt.generate_new_sample 3 self' 2 ex_draws
      = ProbOpt.generate_new_sample 3 ex_probopt 2 ex_draws).
Proof.
  apply generate_new_sample_determined.
  - apply is_treeb_sound. reflexivity.
  - reflexivity.
  - split; [reflexivity | repeat constructor].
  - split; [reflexivity | repeat constructor].
  - apply Nat.le_refl.
Defined.

(** ** update_probs: the parent array *)

Lemma argmin_from_spec (l pre : list Q) (bi : nat) (b : Q) :
  bi < length pre ->
  b = nth bi pre 0%Q ->
  (forall x, In x pre -> (b <= x)%Q) ->
  (forall k, k < bi -> (b < nth k pre 0)%Q) ->
  let r := argmin_from bi b (length pre) l in
  r < length (pre ++ l) /\
  (forall x, In x (pre ++ l) -> (nth r (pre ++ l) 0 <= x)%Q) /\
  (forall k, k < r -> (nth r (pre ++ l) 0 < nth k (pre ++ l) 0)%Q).
Proof.
  revert pre bi b. induction l as [| x t IH]; intros pre bi b Hbi Hb Hmin Hfirst; simpl.
  - rewrite app_nil_r. subst b. auto.
  - assert (Hassoc : pre ++ x :: t = (pre ++ [x]) ++ t) by now rewrite <- app_assoc.
    assert (Hlen : S (length pre) = length (pre ++ [x])) by (rewrite length_app; simpl; lia).
    rewrite Hassoc, Hlen. unfold Qlt_bool.
    destruct (Qle_bool b x) eqn:Hcmp; simpl.
    + apply Qle_bool_iff in Hcmp. apply IH.
      * rewrite length_app. simpl. lia.
      * rewrite app_nth1 by exact Hbi. exact Hb.
      * intros y Hy. apply in_app_or in Hy as [Hy | [<- | []]]; auto.
      * intros k Hk. rewrite app_nth1 by lia. auto.
    + assert (Hlt : (x < b)%Q).
      { apply Qnot_le_lt. intros Hle. apply Qle_bool_iff in Hle. congruence. }
      apply (IH (pre ++ [x]) (length pre) x).
      * rewrite length_app. simpl. lia.
      * rewrite app_nth2 by lia. now rewrite Nat.sub_diag.
      * intros y Hy. apply in_app_or in Hy as [Hy | [<- | []]].
        -- apply Qlt_le_weak. eapply Qlt_le_trans; [exact Hlt | apply Hmin, Hy].
        -- apply Qle_refl.
      * intros k Hk. rewrite app_nth1 by lia.
        eapply Qlt_le_trans; [exact Hlt | apply Hmin, nth_In; lia].
Qed.

Lemma np_argmin_spec (l : list Q) :
  l <> [] ->
  exists r,
    np_argmin l = Ok r /\ r < length l /\
    (forall k, k < length l -> (nth r l 0 <= nth k l 0)%Q) /\
    (forall k, k < r -> (nth r l 0 < nth k l 0)%Q).
Proof.
  destruct l as [| x t]; [congruence | intros _].
  exists (argmin_from 0 x 1 t). split; [reflexivity |].
  destruct (@argmin_from_spec t [x] 0 x) as [H1 [H2 H3]]; simpl; auto; try lia.
  - intros y [<- | []]. apply Qle_refl.
  - repeat split; auto. intros k Hk. apply H2. apply (@nth_In _ k (x :: t) 0%Q Hk).
Qed.

Lemma mapM_length (A B : Type) (f : A -> result B) (l : list A) (ys : list B) :
  mapM f l = Ok ys -> length ys = length l.
Proof.
  revert ys. induction l as [| x t IH]; intros ys; simpl.
  - now intros [= <-].
  - destruct (f x) as [y | e]; simpl; [| discriminate].
    destruct (mapM f t) as [ys' | e]; simpl; [| discriminate].
    intros [= <-]. simpl. f_equal. now apply IH.
Qed.

Lemma mapM_nth (A B : Type) (f : A -> result B) (l : list A) (ys : list B)
  (k : nat) (x : A) :
  mapM f l = Ok ys -> nth_error l k = Some x ->
  exists y, nth_error ys k = Some y /\ f x = Ok y.
Proof.
  revert ys k. induction l as [| a t IH]; intros ys k; simpl.
  - intros _ H. now destruct k.
  - destruct (f a) as [y | e] eqn:Hfa; simpl; [| discriminate].
    destruct (mapM f t) as [ys' | e]; simpl; [| discriminate].
    intros [= <-]. destruct k as [| k]; simpl.
    + intros [= <-]. exists y. auto.
    + intros Hk. now apply IH.
Qed.

Lemma mapM_total (A B : Type) (f : A -> result B) (l : list A) :
  (forall x, In x l -> exists y, f x = Ok y) -> exists ys, mapM f l = Ok ys.
Proof.
  induction l as [| a t IH]; intros H; simpl; [now exists [] |].
  destruct (H a (or_introl eq_refl)) as [y ->]. simpl.
  destruct IH as [ys ->]; [intros x Hx; apply H; now right |].
  simpl. now exists (y :: ys).
Qed.

Lemma foldM_invariant (A S : Type) (Inv : S -> Prop) (f : S -> A -> result S)
  (l : list A) (s : S) :
  (forall s x, In x l -> Inv s -> exists s', f s x = Ok s' /\ Inv s') ->
  Inv s ->
  exists s', foldM f l s = Ok s' /\ Inv s'.
Proof.
  revert s. induction l as [| a t IH]; intros s Hstep Hs; simpl.
  - now exists s.
  - destruct (Hstep s a (or_introl eq_refl) Hs) as [s1 [-> Hs1]]. simpl.
    apply IH; [| exact Hs1]. intros s0 x Hx. apply Hstep. now right.
Qed.

Lemma Forall_set_nth (A : Type) (P : A -> Prop) (i : nat) (v : A) (l : list A) :
  Forall P l -> P v -> Forall P (set_nth i v l).
Proof.
  intros Hl Hv. revert i. induction Hl as [| x t Hx Ht IH]; intros [| i]; simpl;
    constructor; auto.
Qed.

Lemma Forall_nth_default (A : Type) (P : A -> Prop) (d : A) (l : list A) (i : nat) :
  Forall P l -> P d -> P (nth i l d).
Proof.
  intros Hl Hd. revert i. induction Hl as [| x t Hx Ht IH]; intros [| i]; simpl; auto.
Qed.

Lemma Forall2d_set_entry (A : Type) (P : A -> Prop) (m : matrix A) (i j : nat)
  (v : A) :
  Forall (Forall P) m -> P v -> Forall (Forall P) (set_entry m i j v).
Proof.
  intros Hm Hv. unfold set_entry. apply Forall_set_nth; [exact Hm |].
  apply Forall_set_nth; [| exact Hv].
  apply (@Forall_nth_default _ (Forall P) [] m i Hm). constructor.
Qed.

Lemma Forall2d_entry (A : Type) (P : A -> Prop) (d : A) (m : matrix A) (i j : nat) :
  Forall (Forall P) m -> P d -> P (entry d m i j).
Proof.
  intros Hm Hd. unfold entry. apply Forall_nth_default; [| exact Hd].
  apply (@Forall_nth_default _ (Forall P) [] m i Hm). constructor.
Qed.

Lemma Forall2d_zeros (A : Type) (P : A -> Prop) (z : A) (r c : nat) :
  P z -> Forall (Forall P) (np_zeros2 z r c).
Proof.
  intros Hz. unfold np_zeros2. apply Forall_forall. intros row Hrow.
  apply repeat_spec in Hrow. subst row.
  apply Forall_forall. intros x Hx. apply repeat_spec in Hx. now subst x.
Qed.

Lemma foldM_preserves (A St : Type) (Inv : St -> Prop) (f : St -> A -> result St)
  (l : list A) (s s' : St) :
  (forall st x st', In x l -> Inv st -> f st x = Ok st' -> Inv st') ->
  Inv s -> foldM f l s = Ok s' -> Inv s'.
Proof.
  revert s. induction l as [| a t IH]; intros s Hstep Hs; simpl.
  - now intros [= <-].
  - destruct (f s a) as [s1 | e] eqn:Hfa; simpl; [| discriminate].
    apply IH.
    + intros st x st' Hx. apply Hstep. now right.
    + apply (Hstep s a s1); auto. now left.
Qed.

Lemma np_column_in_range (A : Type) (d : A) (w : nat) (m : matrix A) (j : nat) :
  j < w -> Forall (fun row => length row = w) m ->
  np_column w m j = Ok (col d m j).
Proof.
  intros H Hrows. unfold np_column. apply Nat.ltb_lt in H. rewrite H.
  apply Nat.ltb_lt in H. unfold col. apply mapM_pure. intros row Hrow.
  rewrite Forall_forall in Hrows. rewrite (nth_error_nth' row d); [reflexivity |].
  rewrite (Hrows row Hrow). exact H.
Qed.

Lemma Forall_filter (A : Type) (P : A -> Prop) (h : A -> bool) (l : list A) :
  Forall P l -> Forall P (filter h l).
Proof.
  intros H. apply Forall_forall. intros x Hx. apply filter_In in Hx as [Hx _].
  rewrite Forall_forall in H. now apply H.
Qed.

Lemma keep_cols_of_length (self : ProbOpt.t) :
  elite_of_length self -> ProbOpt.keep_cols self = ProbOpt.length self.
Proof.
  intros [Hne Hrows]. unfold ProbOpt.keep_cols.
  destruct (ProbOpt.keep_sample self) as [| row ks]; [congruence |].
  now inversion Hrows.
Qed.

Lemma mutual_info_matrix_ok (lib : scilib) (self : ProbOpt.t) :
  elite_of_length self -> sklearn_contract lib ->
  exists g,
    ProbOpt.mutual_info_matrix lib self = Ok g /\
    Forall (Forall (fun x => (x <= 0)%Q)) g.
Proof.
  intros Hel [Hmi _]. unfold ProbOpt.mutual_info_matrix. cbv zeta.
  rewrite (keep_cols_of_length Hel). destruct Hel as [Hne Hrows].
  set (ks := ProbOpt.keep_sample self) in *.
  apply (@foldM_invariant _ _ (Forall (Forall (fun x => (x <= 0)%Q)))).
  - intros m i Hi Hm. apply in_seq in Hi.
    apply (@foldM_invariant _ _ (Forall (Forall (fun x => (x <= 0)%Q))));
      [| exact Hm].
    intros m' j Hj Hm'. apply in_seq in Hj.
    rewrite (@np_column_in_range _ 0%Z _ ks i), (@np_column_in_range _ 0%Z _ ks j)
      by (auto; lia).
    cbn [bind].
    destruct (Hmi (col 0%Z ks i) (col 0%Z ks j)) as [v [Hv Hpos]].
    + intros H. apply (f_equal (@length Z)) in H. rewrite length_col in H.
      destruct ks; [congruence | discriminate].
    + now rewrite !length_col.
    + rewrite Hv. cbn [bind]. eexists. split; [reflexivity |].
      apply Forall2d_set_entry; [exact Hm' | lra].
  - apply Forall2d_zeros. apply Qle_refl.
Qed.

Lemma dft_matrix_ok (lib : scilib) (self : ProbOpt.t) :
  elite_of_length self -> scilib_contract lib self ->
  exists dft,
    ProbOpt.dft_matrix lib self = Ok dft /\
    shape (ProbOpt.length self) (ProbOpt.length self) dft /\
    (forall p c, p < ProbOpt.length self -> c < ProbOpt.length self ->
                 (entry 0 dft p c <= 0)%Q) /\
    (exists rank : nat -> nat,
       forall p c, p < ProbOpt.length self -> c < ProbOpt.length self ->
                   ~ (entry 0 dft p c == 0)%Q -> rank p < rank c).
Proof.
  intros Hel [Hsk Hgraph].
  destruct (mutual_info_matrix_ok Hel Hsk) as [g [Hg Hneg]].
  destruct (Hgraph g Hg) as (Hmst & Hshape & Hdft & Hrank).
  unfold ProbOpt.dft_matrix. rewrite Hg. cbn [bind]. cbv zeta.
  eexists. split; [reflexivity |]. split; [exact Hshape |]. split; [| exact Hrank].
  assert (Hgle : forall i j, (entry 0 g i j <= 0)%Q).
  { intros i j. apply (@Forall2d_entry _ (fun x => (x <= 0)%Q)); [exact Hneg |].
    apply Qle_refl. }
  intros p c Hp Hc.
  destruct (Hdft p c Hp Hc) as [H | [H | H]]; rewrite H.
  - apply Qle_refl.
  - destruct (Hmst p c Hp Hc) as [H' | H']; rewrite H'; [apply Qle_refl | apply Hgle].
  - destruct (Hmst c p Hc Hp) as [H' | H']; rewrite H'; [apply Qle_refl | apply Hgle].
Qed.

Lemma nth_tl (A : Type) (d : A) (l : list A) (i : nat) :
  nth i (tl l) d = nth (S i) l d.
Proof. destruct l; [now destruct i | reflexivity]. Qed.

Lemma col_drop_first_col (A : Type) (d : A) (m : matrix A) (c : nat) :
  col d (drop_first_col m) c = col d m (S c).
Proof.
  unfold col, drop_first_col. rewrite map_map. apply map_ext.
  intros row. apply nth_tl.
Qed.


Lemma ncols_drop_first_col (A : Type) (L : nat) (m : matrix A) :
  shape L L m -> ncols (drop_first_col m) = L - 1.
Proof.
  intros [Hlen Hrows]. destruct m as [| row m]; simpl in *.
  - now subst L.
  - inversion Hrows as [| ? ? Hrow _]; subst. destruct row; simpl in *; lia.
Qed.

Lemma np_argmin_axis0_rows (m : matrix Q) :
  m <> [] ->
  np_argmin_axis0 m = mapM (fun c => np_argmin (col 0%Q m c)) (seq 0 (ncols m)).
Proof. destruct m; [congruence | reflexivity]. Qed.

Lemma parent_of_dft (L : nat) (dft : matrix Q) :
  1 <= L -> shape L L dft ->
  (forall p c, p < L -> c < L -> (entry 0 dft p c <= 0)%Q) ->
  exists parent,
    np_argmin_axis0 (drop_first_col dft) = Ok parent /\
    length parent = L - 1 /\
    forall c, c < length parent ->
      exists r,
        nth_error parent c = Some r /\ r < L /\
        (r = 0 \/ ~ (entry 0 dft r (S c) == 0)%Q).
Proof.
  intros HL Hshape Hnonpos.
  rewrite np_argmin_axis0_rows.
  2:{ intros H. apply (f_equal (@length (list Q))) in H.
      unfold drop_first_col in H. rewrite length_map in H.
      destruct Hshape as [Hlen _]. simpl in H. lia. }
  rewrite (ncols_drop_first_col Hshape).
  assert (Hcol : forall c, c < L - 1 ->
            exists r, np_argmin (col 0%Q (drop_first_col dft) c) = Ok r /\
                      r < L /\ (r = 0 \/ ~ (entry 0 dft r (S c) == 0)%Q)).
  { intros c Hc. rewrite col_drop_first_col.
    destruct (@np_argmin_spec (col 0%Q dft (S c))) as [r [Hr [Hlt [Hmin Hfirst]]]].
    { intros H. apply (f_equal (@length Q)) in H.
      rewrite length_col in H. destruct Hshape as [Hlen _]. simpl in H. lia. }
    rewrite length_col in Hlt, Hmin. destruct Hshape as [Hlen _].
    exists r. split; [exact Hr |]. split; [lia |].
    destruct r as [| r]; [now left | right].
    specialize (Hfirst 0 (Nat.lt_0_succ r)).
    rewrite !nth_col in Hfirst by lia.
    pose proof (Hnonpos 0 (S c) ltac:(lia) ltac:(lia)) as H0.
    intros Heq. rewrite Heq in Hfirst. lra. }
  destruct (@mapM_total _ _ (fun c => np_argmin (col 0%Q (drop_first_col dft) c))
              (seq 0 (L - 1))) as [parent Hparent].
  { intros c Hc. apply in_seq in Hc. destruct (Hcol c) as [r [Hr _]]; [lia |].
    now exists r. }
  exists parent. split; [exact Hparent |].
  pose proof (mapM_length _ _ Hparent) as Hlen. rewrite length_seq in Hlen.
  split; [exact Hlen |].
  intros c Hc. rewrite Hlen in Hc.
  destruct (@mapM_nth _ _ _ _ _ c c Hparent) as [r [Hr Hfr]].
  { rewrite nth_error_seq. apply Nat.ltb_lt in Hc. now rewrite Hc. }
  destruct (Hcol c Hc) as [r' [Hr' Hprop]].
  rewrite Hr' in Hfr. injection Hfr as ->. exists r. auto.
Qed.

Lemma tree_of_ranked (parent : list nat) (rank : nat -> nat) :
  (forall c, c < length parent ->
     exists r, nth_error parent c = Some r /\ r <= length parent /\
               (r = 0 \/ rank r < rank (S c))) ->
  is_tree parent.
Proof.
  intros H.
  assert (Hrec : forall n i, rank i < n -> i <= length parent ->
                             exists d, at_depth parent i d).
  { induction n as [| n IH]; intros i Hn Hi; [lia |].
    destruct i as [| c]; [exists 0; constructor |].
    destruct (H c) as [r [Hr [Hle Hcase]]]; [lia |].
    destruct Hcase as [-> | Hlt].
    - exists 1. econstructor; [exact Hr | constructor].
    - destruct (IH r) as [d Hd]; [lia | exact Hle |].
      exists (S d). econstructor; eassumption. }
  intros i Hi. apply (Hrec (S (rank i))); [lia | exact Hi].
Qed.

Lemma parent_of_dft_tree (L : nat) (dft : matrix Q) (parent : list nat) :
  1 <= L -> shape L L dft ->
  (forall p c, p < L -> c < L -> (entry 0 dft p c <= 0)%Q) ->
  (exists rank : nat -> nat,
     forall p c, p < L -> c < L -> ~ (entry 0 dft p c == 0)%Q -> rank p < rank c) ->
  np_argmin_axis0 (drop_first_col dft) = Ok parent ->
  length parent = L - 1 /\
  Forall (fun p => p < L) parent /\
  is_tree parent.
Proof.
  intros HL Hshape Hnonpos [rank Hrank] Hparent.
  destruct (parent_of_dft HL Hshape Hnonpos) as [parent' [Hparent' [Hlen Hprop]]].
  rewrite Hparent in Hparent'. injection Hparent' as <-.
  split; [exact Hlen |]. split.
  - apply Forall_forall. intros p Hp. apply In_nth_error in Hp as [c Hc].
    assert (Hlt : c < length parent) by (apply nth_error_Some; congruence).
    destruct (Hprop c Hlt) as [r [Hr [HrL _]]]. congruence.
  - apply (@tree_of_ranked parent rank). intros c Hc.
    destruct (Hprop c Hc) as [r [Hr [HrL Hcase]]].
    exists r. split; [exact Hr |]. split; [lia |].
    destruct Hcase as [-> | Hne]; [now left | right].
    apply Hrank; [exact HrL | lia | exact Hne].
Qed.

(** ** update_probs: the table of conditional probabilities *)

Lemma shape_zeros (A : Type) (z : A) (r c : nat) : shape r c (np_zeros2 z r c).
Proof.
  apply shape_intro.
  - apply repeat_length.
  - intros i Hi. rewrite nth_np_zeros2 by exact Hi. apply repeat_length.
Qed.

Lemma foldM_pure (A St : Type) (f : St -> A -> result St) (g : St -> A -> St)
  (l : list A) (s : St) :
  (forall st x, In x l -> f st x = Ok (g st x)) ->
  foldM f l s = Ok (fold_left g l s).
Proof.
  revert s. induction l as [| x t IH]; intros s H; simpl; [reflexivity |].
  rewrite (H s x (or_introl eq_refl)). simpl. apply IH.
  intros st y Hy. apply H. now right.
Qed.

Lemma np_take_where_filter (A : Type) (g : list A -> bool) (m pre : list (list A)) :
  mapM (fun r => match nth_error (pre ++ m) r with
                 | Some row => Ok row
                 | None => Raise IndexError
                 end)
       (where_from (length pre) (map (fun row => g row) m))
  = Ok (filter (fun row => g row) m).
Proof.
  revert pre. induction m as [| row m IH]; intros pre; simpl; [reflexivity |].
  assert (Hnext : mapM (fun r => match nth_error (pre ++ row :: m) r with
                                 | Some row => Ok row
                                 | None => Raise IndexError
                                 end)
                       (where_from (S (length pre)) (map (fun row => g row) m))
                  = Ok (filter (fun row => g row) m)).
  { replace (pre ++ row :: m) with ((pre ++ [row]) ++ m) by now rewrite <- app_assoc.
    replace (S (length pre)) with (length (pre ++ [row]))
      by (rewrite length_app; simpl; lia).
    apply IH. }
  destruct (g row); simpl.
  - rewrite nth_error_app2, Nat.sub_diag by lia. simpl. now rewrite Hnext.
  - exact Hnext.
Qed.

Lemma subset_where_filter (w : nat) (ks : matrix Z) (p : nat) (j : Z) :
  p < w -> Forall (fun row => length row = w) ks ->
  ProbOpt.subset_where w ks p j
  = Ok (filter (fun row => Z.eqb (nth p row 0%Z) j) ks).
Proof.
  intros Hp Hrows. unfold ProbOpt.subset_where.
  rewrite (@np_column_in_range _ 0%Z _ ks p) by assumption.
  cbn [bind]. unfold np_take, np_where, col. rewrite map_map.
  exact (np_take_where_filter (fun row => Z.eqb (nth p row 0%Z) j) ks []).
Qed.

Lemma entry_set_entry (A : Type) (d : A) (m : matrix A) (a b : nat) (v : A)
  (r c : nat) :
  entry d (set_entry m a b v) r c
  = if ((r =? a) && (c =? b) && (a <? length m)
        && (b <? length (nth a m [])))%bool
    then v else entry d m r c.
Proof.
  unfold entry, set_entry. rewrite nth_set_nth.
  destruct (Nat.eqb_spec r a) as [-> | Hne]; cbn [andb]; [| reflexivity].
  destruct (a <? length m); cbn [andb].
  - rewrite nth_set_nth. destruct (c =? b); reflexivity.
  - destruct (c =? b); reflexivity.
Qed.

Lemma shape_set_entry (A : Type) (r c : nat) (m : matrix A) (a b : nat) (v : A) :
  shape r c m -> shape r c (set_entry m a b v).
Proof.
  intros Hs. pose proof Hs as [Hlen _]. apply shape_intro.
  - unfold set_entry. now rewrite length_set_nth.
  - intros i Hi. unfold set_entry. rewrite nth_set_nth.
    destruct (Nat.eqb_spec i a) as [-> | Hne];
      destruct (Nat.ltb_spec a (length m)); cbn [andb];
      rewrite ?length_set_nth; apply (shape_row Hs); lia.
Qed.

Lemma entry_table_fold (V : nat -> nat -> npfloat) (L : nat) (idx : list nat)
  (P0 : matrix npfloat) (j c : nat) :
  shape 2 L P0 -> (forall i, In i idx -> i < L) -> j < 2 ->
  let P := fold_left
             (fun P i => set_entry (set_entry P 0 i (V 0 i)) 1 i (V 1 i))
             idx P0 in
  shape 2 L P /\
  entry (Fin 0) P j c = if existsb (Nat.eqb c) idx then V j c else entry (Fin 0) P0 j c.
Proof.
  revert P0. induction idx as [| i idx IH]; intros P0 Hs Hidx Hj; cbn [fold_left existsb].
  - split; [exact Hs | reflexivity].
  - set (P1 := set_entry (set_entry P0 0 i (V 0 i)) 1 i (V 1 i)).
    assert (Hs1 : shape 2 L P1) by (unfold P1; now do 2 apply shape_set_entry).
    destruct (IH P1 Hs1) as [HsP HeP]; [intros k Hk; apply Hidx; now right | exact Hj |].
    split; [exact HsP |]. rewrite HeP.
    destruct (existsb (Nat.eqb c) idx); [now rewrite orb_true_r |].
    rewrite orb_false_r. unfold P1. rewrite !entry_set_entry.
    assert (HiL : i < L) by (apply Hidx; now left).
    pose proof Hs as [Hlen0 _].
    pose proof (shape_set_entry 0 i (V 0 i) Hs) as Hs0. pose proof Hs0 as [Hlen1 _].
    rewrite Hlen0, Hlen1.
    rewrite (shape_row Hs0 (Nat.lt_succ_diag_r 1)), (shape_row Hs (Nat.lt_0_succ 1)).
    apply Nat.ltb_lt in HiL. rewrite HiL. simpl.
    destruct (Nat.eqb_spec c i) as [-> | Hci]; rewrite ?andb_false_r; [| reflexivity].
    destruct j as [| [| j]]; [reflexivity | reflexivity | lia].
Qed.

Lemma entry_assign_col_zeros (z v : npfloat) (L j c : nat) :
  j < 2 -> 1 <= L ->
  entry z (assign_col (np_zeros2 z 2 L) 0 v) j c = if c =? 0 then v else z.
Proof.
  intros Hj HL. unfold entry, assign_col, np_zeros2. cbn [repeat map].
  destruct j as [| [| j]]; [| | lia]; cbn [nth];
    rewrite nth_set_nth, repeat_length;
    (destruct (Nat.eqb_spec c 0) as [-> | Hc]; cbn [andb];
     [destruct (Nat.ltb_spec 0 L); [reflexivity | lia] | apply nth_repeat]).
Qed.

Lemma shape_assign_col (A : Type) (r c : nat) (m : matrix A) (j : nat) (v : A) :
  shape r c m -> shape r c (assign_col m j v).
Proof.
  intros [Hlen Hrows]. split; unfold assign_col; [now rewrite length_map |].
  apply Forall_map. eapply Forall_impl; [| exact Hrows].
  intros row Hrow. simpl. now rewrite length_set_nth.
Qed.

Lemma update_probs_closed_form (lib : scilib) (self : ProbOpt.t)
  (dft : matrix Q) (parent : list nat) :
  elite_of_length self -> 1 <= ProbOpt.length self ->
  ProbOpt.dft_matrix lib self = Ok dft ->
  np_argmin_axis0 (drop_first_col dft) = Ok parent ->
  length parent = ProbOpt.length self - 1 ->
  Forall (fun p => p < ProbOpt.length self) parent ->
  ProbOpt.update_probs lib self
  = Ok (ProbOpt.mk (ProbOpt.base self) (ProbOpt.keep_sample self)
          (fold_left
             (fun P i =>
                set_entry
                  (set_entry P 0 i
                     (cond_freq (ProbOpt.keep_sample self) (nth (i - 1) parent 0)
                                (Z.of_nat 0) i))
                  1 i
                  (cond_freq (ProbOpt.keep_sample self) (nth (i - 1) parent 0)
                             (Z.of_nat 1) i))
             (seq 1 (ProbOpt.length self - 1))
             (assign_col (np_zeros2 (Fin 0) 2 (ProbOpt.length self)) 0
                         (marginal_freq (ProbOpt.keep_sample self))))
          parent).
Proof.
  intros Hel HL Hdft Hparent Hlen Hrange. unfold ProbOpt.update_probs.
  rewrite Hdft. cbn [bind]. rewrite Hparent. cbn [bind]. cbv zeta.
  rewrite (keep_cols_of_length Hel). destruct Hel as [_ Hrows].
  set (ks := ProbOpt.keep_sample self) in *. set (L := ProbOpt.length self) in *.
  assert (HP0 : (if length ks =? 0
                 then np_assign_col L (np_zeros2 (Fin 0) 2 L) 0 (Fin 0)
                 else
                   first <- np_column L ks 0 ;;
                   np_assign_col L (np_zeros2 (Fin 0) 2 L) 0
                     (np_divide (inject_Z (Zsum first))
                                (inject_Z (Z.of_nat (length ks)))))
                = Ok (assign_col (np_zeros2 (Fin 0) 2 L) 0 (marginal_freq ks))).
  { unfold marginal_freq, np_assign_col.
    rewrite (@np_column_in_range _ 0%Z _ ks 0) by (auto; lia).
    cbn [bind]. destruct (Nat.ltb_spec 0 L); [| lia].
    now destruct (length ks =? 0). }
  rewrite HP0. cbn [bind].
  rewrite (@foldM_pure _ _ _
             (fun P i =>
                set_entry
                  (set_entry P 0 i (cond_freq ks (nth (i - 1) parent 0) (Z.of_nat 0) i))
                  1 i (cond_freq ks (nth (i - 1) parent 0) (Z.of_nat 1) i))).
  - reflexivity.
  - intros P i Hi. apply in_seq in Hi.
    rewrite (@foldM_pure _ _ _
               (fun P j => set_entry P j i
                             (cond_freq ks (nth (i - 1) parent 0) (Z.of_nat j) i))).
    + reflexivity.
    + intros P' j _.
      rewrite (nth_error_nth' parent 0) by lia.
      assert (Hp : nth (i - 1) parent 0 < L).
      { rewrite Forall_forall in Hrange. apply Hrange, nth_In. lia. }
      rewrite subset_where_filter by assumption. cbn [bind].
      rewrite (@np_column_in_range _ 0%Z) by (try apply Forall_filter; auto; lia).
      cbn [bind].
      unfold cond_freq. cbv zeta.
      set (subset := filter _ ks). now destruct (length subset =? 0).
Qed.

(** [update_probs] on an elite sample with at least one row and rows of
    the length of the object: it succeeds, the parent array is a tree, and
    the table holds the conditional frequencies of the sample. *)
Lemma update_probs_run (lib : scilib) (self : ProbOpt.t) :
  1 <= ProbOpt.length self -> elite_of_length self -> scilib_contract lib self ->
  exists parent probs,
    ProbOpt.update_probs lib self
    = Ok (ProbOpt.mk (ProbOpt.base self) (ProbOpt.keep_sample self) probs parent) /\
    length parent = ProbOpt.length self - 1 /\
    Forall (fun p => p < ProbOpt.length self) parent /\
    is_tree parent /\
    shape 2 (ProbOpt.length self) probs /\
    (forall j, j < 2 ->
       entry (Fin 0) probs j 0 = marginal_freq (ProbOpt.keep_sample self)) /\
    (forall i j, 1 <= i < ProbOpt.length self -> j < 2 ->
       entry (Fin 0) probs j i
       = cond_freq (ProbOpt.keep_sample self) (nth (i - 1) parent 0) (Z.of_nat j) i).
Proof.
  intros HL Hel Hlib.
  destruct (dft_matrix_ok Hel Hlib) as [dft (Hdft & Hshape & Hnonpos & Hrank)].
  destruct (parent_of_dft HL Hshape Hnonpos) as [parent [Hparent _]].
  destruct (parent_of_dft_tree HL Hshape Hnonpos Hrank Hparent)
    as [Hlen [Hrange Htree]].
  exists parent. eexists.
  split; [exact (update_probs_closed_form lib Hel HL Hdft Hparent Hlen Hrange) |].
  split; [exact Hlen |]. split; [exact Hrange |]. split; [exact Htree |].
  set (ks := ProbOpt.keep_sample self). set (L := ProbOpt.length self) in *.
  set (V := fun j i => cond_freq ks (nth (i - 1) parent 0) (Z.of_nat j) i).
  set (P0 := assign_col (np_zeros2 (Fin 0) 2 L) 0 (marginal_freq ks)).
  assert (Hs0 : shape 2 L P0) by apply shape_assign_col, shape_zeros.
  assert (Hidx : forall i, In i (seq 1 (L - 1)) -> i < L).
  { intros i Hi. apply in_seq in Hi. lia. }
  pose proof (fun j c Hj => @entry_table_fold V L (seq 1 (L - 1)) P0 j c Hs0 Hidx Hj)
    as Hfold. cbv zeta in Hfold. unfold V, P0 in Hfold. cbv beta in Hfold.
  unfold P0. clear V Hs0 P0.
  split; [apply (Hfold 0 0), Nat.lt_0_succ |]. split.
  - intros j Hj. destruct (Hfold j 0 Hj) as [_ ->].
    assert (Hnot : existsb (Nat.eqb 0) (seq 1 (L - 1)) = false).
    { apply not_true_is_false. intros H. apply existsb_exists in H as [x [Hx Hx0]].
      apply in_seq in Hx. apply Nat.eqb_eq in Hx0. lia. }
    rewrite Hnot. now rewrite entry_assign_col_zeros.
  - intros i j Hi Hj. destruct (Hfold j i Hj) as [_ ->].
    assert (Hin : existsb (Nat.eqb i) (seq 1 (L - 1)) = true).
    { apply existsb_exists. exists i. split; [apply in_seq; lia | apply Nat.eqb_refl]. }
    now rewrite Hin.
Qed.

Lemma ancestor_depth (parent : list nat) (n i a d : nat) :
  at_depth parent i d -> ancestor parent n i = Some a ->
  n <= d /\ at_depth parent a (d - n).
Proof.
  revert i d. induction n as [| n IH]; intros i d Hd; simpl.
  - intros [= <-]. rewrite Nat.sub_0_r. split; [lia | exact Hd].
  - destruct Hd as [| j p d Hj Hp]; [discriminate |].
    rewrite Hj. intros Ha. destruct (IH p d Hp Ha) as [Hle Hdepth].
    split; [lia | exact Hdepth].
Qed.

Lemma tree_no_cycle (parent : list nat) (n i : nat) :
  is_tree parent -> i <= length parent -> 0 < n ->
  ancestor parent n i <> Some i.
Proof.
  intros Htree Hi Hn Ha. destruct (Htree i Hi) as [d Hd].
  destruct (ancestor_depth _ Hd Ha) as [Hle Hd'].
  pose proof (at_depth_fun Hd Hd'). lia.
Qed.

(** The sign of the weights matters: were an edge weight positive (a
    negative mutual information), the first minimum of its column would be
    a zero entry, and position 1 would become its own parent. *)
Lemma argmin_of_positive_edge :
  np_argmin_axis0 (drop_first_col [[0; 1 # 2]; [0; 0]]%Q) = Ok [1].
Proof. reflexivity. Qed.

(** The example library meets the contract on every object: with mutual
    information 0 everywhere the graph has no edge. *)
Lemma ex_scilib_contract (self : ProbOpt.t) : scilib_contract ex_scilib self.
Proof.
  split; [split |].
  - intros [| x a] b Ha _; [congruence |]. exists 0%Q. split; [reflexivity | apply Qle_refl].
  - reflexivity.
  - intros g Hg. cbn [minimum_spanning_tree depth_first_tree ex_scilib]. cbv zeta.
    set (L := ProbOpt.length self) in *.
    assert (Hinv : shape L L g /\ Forall (Forall (fun x => (x == 0)%Q)) g).
    { unfold ProbOpt.mutual_info_matrix in Hg. cbv zeta in Hg. fold L in Hg.
      revert Hg.
      apply (@foldM_preserves _ _
               (fun m => shape L L m /\ Forall (Forall (fun x => (x == 0)%Q)) m)).
      - intros m i m' _ Hm.
        apply (@foldM_preserves _ _
                 (fun m => shape L L m /\ Forall (Forall (fun x => (x == 0)%Q)) m));
          [| exact Hm].
        intros m1 j m2 _ [Hs Hz].
        destruct (np_column (ProbOpt.keep_cols self) (ProbOpt.keep_sample self) i)
          as [a | e]; [| discriminate].
        destruct (np_column (ProbOpt.keep_cols self) (ProbOpt.keep_sample self) j)
          as [b | e]; [| discriminate].
        cbn [bind mutual_info_score ex_scilib].
        destruct a as [| x a]; [discriminate |]. cbn [bind]. intros [= <-].
        split; [now apply shape_set_entry |].
        apply Forall2d_set_entry; [exact Hz | reflexivity].
      - split; [apply shape_zeros |]. apply Forall2d_zeros. reflexivity. }
    destruct Hinv as [Hshape Hzero].
    assert (Hz : forall p c, (entry 0 g p c == 0)%Q).
    { intros p c. apply (@Forall2d_entry _ (fun x => (x == 0)%Q)); [exact Hzero |].
      reflexivity. }
    split; [intros i j _ _; right; reflexivity |].
    split; [exact Hshape |].
    split; [intros p c _ _; right; left; reflexivity |].
    exists (fun x => x). intros p c _ _ Hne. exfalso. apply Hne, Hz.
Qed.

Lemma ex_probopt_elite : elite_of_length ex_probopt.
Proof.
  split; [discriminate |]. repeat (apply Forall_cons; [reflexivity |]). apply Forall_nil.
Qed.

(** C1. For an object of length [L >= 2] whose elite sample is not empty
    and has rows of length [L], and library calls that return what their
    contract says, [update_probs] succeeds and the stored [parent] array
    describes a tree over the [L] positions rooted at 0: it has [L - 1]
    entries, [parent[i - 1]] being the parent of position [i], all in
    [0 .. L - 1]; position 0 has no parent; from every position a finite
    number of parent links leads to 0; and no position is its own
    ancestor. *)
Theorem update_probs_parent_is_tree (lib : scilib) (self : ProbOpt.t) :
  2 <= ProbOpt.length self ->
  elite_of_length self ->
  scilib_contract lib self ->
  exists self',
    ProbOpt.update_probs lib self = Ok self' /\
    length (ProbOpt.parent self') = ProbOpt.length self - 1 /\
    Forall (fun p => p < ProbOpt.length self) (ProbOpt.parent self') /\
    (forall i, 1 <= i < ProbOpt.length self ->
       exists p d, nth_error (ProbOpt.parent self') (i - 1) = Some p /\
                   at_depth (ProbOpt.parent self') i d) /\
    (forall n, 0 < n -> ancestor (ProbOpt.parent self') n 0 = None) /\
    (forall n i, i < ProbOpt.length self -> 0 < n ->
                 ancestor (ProbOpt.parent self') n i <> Some i).
Proof.
  intros HL Hel Hlib.
  destruct (@update_probs_run lib self ltac:(lia) Hel Hlib)
    as [parent [probs (Hrun & Hlen & Hrange & Htree & _)]].
  eexists. split; [exact Hrun |]. simpl. repeat split; auto.
  - intros i [Hi1 Hi2]. destruct (Htree i) as [d Hd]; [lia |].
    destruct (nth_error parent (i - 1)) as [p |] eqn:Hp.
    + exists p, d. auto.
    + apply nth_error_None in Hp. lia.
  - intros n Hn. destruct n; [lia | reflexivity].
  - intros n i Hi Hn. apply tree_no_cycle; [exact Htree | lia | exact Hn].
Qed.

Lemma update_probs_parent_is_tree_witness :
  exists self',
    ProbOpt.update_probs ex_scilib ex_probopt = Ok self' /\
    length (ProbOpt.parent self') = ProbOpt.length ex_probopt - 1 /\
    Forall (fun p => p < ProbOpt.length ex_probopt) (ProbOpt.parent self') /\
    (forall i, 1 <= i < ProbOpt.length ex_probopt ->
       exists p d, nth_error (ProbOpt.parent self') (i - 1) = Some p /\
                   at_depth (ProbOpt.parent self') i d) /\
    (forall n, 0 < n -> ancestor (ProbOpt.parent self') n 0 = None) /\
    (forall n i, i < ProbOpt.length ex_probopt -> 0 < n ->
                 ancestor (ProbOpt.parent self') n i <> Some i).
Proof.
  apply update_probs_parent_is_tree.
  - vm_compute. lia.
  - exact ex_probopt_elite.
  - apply ex_scilib_contract.
Defined.

(** ** The empty elite sample *)

(** C4. With an empty elite sample and a length of at least 2,
    [update_probs] does not reach the guards of its divisions: the loop
    that fills the mutual information matrix hands two empty columns to
    [mutual_info_score], which raises, and no table is stored. *)
Theorem empty_elite_update_probs_raises (lib : scilib) (self : ProbOpt.t) :
  ProbOpt.keep_sample self = [] ->
  2 <= ProbOpt.length self ->
  mutual_info_score lib [] [] = Raise ValueError ->
  raises (ProbOpt.update_probs lib self).
Proof.
  intros Hks HL Hmi. exists ValueError.
  unfold ProbOpt.update_probs, ProbOpt.dft_matrix, ProbOpt.mutual_info_matrix,
    ProbOpt.keep_cols.
  cbv zeta. rewrite Hks.
  destruct (ProbOpt.length self) as [| [| L]]; [lia | lia |].
  cbn [Nat.sub seq foldM Nat.add]. unfold np_column.
  cbn [Nat.ltb Nat.leb mapM bind]. rewrite Hmi. reflexivity.
Qed.

Lemma empty_elite_update_probs_raises_witness :
  raises (ProbOpt.update_probs ex_scilib ex_empty_elite).
Proof.
  apply empty_elite_update_probs_raises.
  - reflexivity.
  - vm_compute. lia.
  - reflexivity.
Defined.

(** ** select_keep_sample *)











(** * Further properties of the code *)

(** ** Loops over indices *)

Lemma fold_left_index (A St : Type) (f : St -> A -> St) (d : A) (l pre : list A)
  (s : St) :
  fold_left (fun st i => f st (nth i (pre ++ l) d)) (seq (length pre) (length l)) s
  = fold_left f l s.
Proof.
  revert pre s. induction l as [| x t IH]; intros pre s; simpl; [reflexivity |].
  rewrite app_nth2, Nat.sub_diag by lia. simpl.
  replace (pre ++ x :: t) with ((pre ++ [x]) ++ t) by now rewrite <- app_assoc.
  replace (S (length pre)) with (length (pre ++ [x])) by (rewrite length_app; simpl; lia).
  apply IH.
Qed.

Lemma fold_left_ext_in (A S : Type) (f g : S -> A -> S) (l : list A) (s : S) :
  (forall st x, In x l -> f st x = g st x) -> fold_left f l s = fold_left g l s.
Proof.
  revert s. induction l as [| x t IH]; intros s H; simpl; [reflexivity |].
  rewrite (H s x (or_introl eq_refl)). apply IH. intros st y Hy. apply H. now right.
Qed.

(** ** head, tail and max_run *)

Lemma head_loop_acc (b : Z) (x : list Z) (idx : list nat) (acc : Z) :
  head_loop b x idx acc = (acc + head_loop b x idx 0)%Z.
Proof.
  revert acc. induction idx as [| i rest IH]; intros acc; simpl; [lia |].
  destruct (Z.eqb (nth i x 0%Z) b); [| lia].
  rewrite (IH (acc + 1)%Z), (IH 1%Z). lia.
Qed.

Lemma head_loop_shift (b : Z) (pre x : list Z) (k s : nat) (acc : Z) :
  head_loop b (pre ++ x) (seq (length pre + s) k) acc
  = head_loop b x (seq s k) acc.
Proof.
  revert s acc. induction k as [| k IH]; intros s acc; simpl; [reflexivity |].
  rewrite app_nth2 by lia.
  replace (length pre + s - length pre) with s by lia.
  destruct (Z.eqb (nth s x 0%Z) b); [| reflexivity].
  replace (S (length pre + s)) with (length pre + S s) by lia. apply IH.
Qed.

Lemma head_nil (b : Z) : head b [] = 0%Z.
Proof. reflexivity. Qed.

Lemma head_cons (b c : Z) (x : list Z) :
  head b (c :: x) = if Z.eqb c b then (1 + head b x)%Z else 0%Z.
Proof.
  unfold head. simpl. destruct (Z.eqb c b); [| reflexivity].
  rewrite head_loop_acc.
  pose proof (head_loop_shift b [c] x (length x) 0 0) as H. simpl in H.
  now rewrite H.
Qed.

Lemma tail_loop_acc (b : Z) (x : list Z) (idx : list nat) (acc : Z) :
  tail_loop b x idx acc = (acc + tail_loop b x idx 0)%Z.
Proof.
  revert acc. induction idx as [| i rest IH]; intros acc; simpl; [lia |].
  destruct (Z.eqb (nth (length x - i - 1) x 0%Z) b); [| lia].
  rewrite (IH (acc + 1)%Z), (IH 1%Z). lia.
Qed.

Lemma tail_loop_shift (b : Z) (x post : list Z) (k s : nat) (acc : Z) :
  s + k <= length x ->
  tail_loop b (x ++ post) (seq (length post + s) k) acc
  = tail_loop b x (seq s k) acc.
Proof.
  revert s acc. induction k as [| k IH]; intros s acc Hk; simpl; [reflexivity |].
  rewrite length_app.
  replace (length x + length post - (length post + s) - 1)
    with (length x - s - 1) by lia.
  rewrite app_nth1 by lia.
  destruct (Z.eqb (nth (length x - s - 1) x 0%Z) b); [| reflexivity].
  replace (S (length post + s)) with (length post + S s) by lia.
  apply IH. lia.
Qed.

Lemma tail_nil (b : Z) : tail b [] = 0%Z.
Proof. reflexivity. Qed.

Lemma tail_snoc (b c : Z) (x : list Z) :
  tail b (x ++ [c]) = if Z.eqb c b then (1 + tail b x)%Z else 0%Z.
Proof.
  unfold tail. rewrite length_app. simpl length.
  replace (length x + 1) with (S (length x)) by lia. simpl seq. simpl tail_loop.
  rewrite length_app. simpl length.
  replace (length x + 1 - 0 - 1) with (length x) by lia.
  rewrite app_nth2, Nat.sub_diag by lia. simpl nth.
  destruct (Z.eqb c b); [| reflexivity].
  rewrite tail_loop_acc.
  pose proof (@tail_loop_shift b x [c] (length x) 0 0 ltac:(lia)) as H.
  simpl in H. now rewrite H.
Qed.

Lemma tail_cons_other (b c : Z) (x : list Z) :
  c <> b -> tail b (c :: x) = tail b x.
Proof.
  intros Hc. induction x as [| d y IH] using rev_ind.
  - change [c] with ([] ++ [c]). rewrite tail_snoc.
    apply Z.eqb_neq in Hc. now rewrite Hc.
  - rewrite app_comm_cons, !tail_snoc, IH. reflexivity.
Qed.

Lemma head_bounds (b : Z) (x : list Z) :
  (0 <= head b x <= Z.of_nat (length x))%Z.
Proof.
  induction x as [| c x IH]; [rewrite head_nil; simpl; lia |].
  rewrite head_cons. simpl length. destruct (Z.eqb c b); lia.
Qed.

Lemma tail_bounds (b : Z) (x : list Z) :
  (0 <= tail b x <= Z.of_nat (length x))%Z.
Proof.
  induction x as [| c x IH] using rev_ind; [rewrite tail_nil; simpl; lia |].
  rewrite tail_snoc, length_app. simpl length. destruct (Z.eqb c b); lia.
Qed.

Lemma max_run_fold (b : Z) (x : list Z) :
  max_run b x = fst (fold_left (max_run_step b) x (0%Z, 0%Z)).
Proof.
  unfold max_run. f_equal.
  exact (fold_left_index (max_run_step b) 0%Z x [] (0%Z, 0%Z)).
Qed.

Lemma max_run_state_run (b : Z) (x : list Z) :
  snd (fold_left (max_run_step b) x (0%Z, 0%Z)) = tail b x.
Proof.
  induction x as [| c x IH] using rev_ind; [reflexivity |].
  rewrite fold_left_app, tail_snoc. cbn [fold_left]. unfold max_run_step at 1.
  destruct (Z.eqb c b); cbn [fst snd]; [rewrite IH; lia | reflexivity].
Qed.

Lemma head_repeat_app (b : Z) (k : nat) (rest : list Z) :
  head b (repeat b k ++ rest) = (Z.of_nat k + head b rest)%Z.
Proof.
  induction k as [| k IH]; simpl repeat; simpl app; [lia |].
  rewrite head_cons, Z.eqb_refl, IH. lia.
Qed.

Lemma tail_app_repeat (b : Z) (k : nat) (rest : list Z) :
  tail b (rest ++ repeat b k) = (Z.of_nat k + tail b rest)%Z.
Proof.
  induction k as [| k IH]; simpl repeat; [rewrite app_nil_r; lia |].
  rewrite repeat_cons, app_assoc, tail_snoc, Z.eqb_refl, IH. lia.
Qed.

(** [head(b, x)] is the number of leading [b]'s of [x] and [tail(b, x)] the
    number of trailing [b]'s: a block of [k] elements [b] that ends the
    vector or is followed (preceded) by another element counts [k]. *)
Theorem head_tail_count (b c : Z) (k : nat) (pre post : list Z) :
  c <> b ->
  head b (repeat b k ++ c :: post) = Z.of_nat k /\
  head b (repeat b k) = Z.of_nat k /\
  tail b (pre ++ c :: repeat b k) = Z.of_nat k /\
  tail b (repeat b k) = Z.of_nat k.
Proof.
  intros Hc. apply Z.eqb_neq in Hc. repeat split.
  - rewrite head_repeat_app, head_cons, Hc. lia.
  - rewrite <- (app_nil_r (repeat b k)), head_repeat_app, head_nil. lia.
  - change (pre ++ c :: repeat b k) with (pre ++ [c] ++ repeat b k).
    rewrite app_assoc, tail_app_repeat, tail_snoc, Hc. lia.
  - change (repeat b k) with ([] ++ repeat b k).
    rewrite tail_app_repeat, tail_nil. lia.
Qed.

Lemma head_tail_count_witness :
  head 1 (repeat 1%Z 2 ++ 0%Z :: [1%Z]) = Z.of_nat 2 /\
  head 1 (repeat 1%Z 2) = Z.of_nat 2 /\
  tail 1 ([1%Z] ++ 0%Z :: repeat 1%Z 2) = Z.of_nat 2 /\
  tail 1 (repeat 1%Z 2) = Z.of_nat 2.
Proof. apply head_tail_count. discriminate. Defined.

(** [tail(b, x)] is [head(b, .)] of the reversed vector. *)
Theorem tail_is_head_of_reverse (b : Z) (x : list Z) :
  tail b x = head b (rev x).
Proof.
  induction x as [| c x IH] using rev_ind; [reflexivity |].
  rewrite tail_snoc, rev_unit, head_cons, IH. reflexivity.
Qed.

Lemma max_run_fold_repeat (b : Z) (n : nat) (st : Z * Z) :
  fold_left (max_run_step b) (repeat b n) st = (fst st, (snd st + Z.of_nat n)%Z).
Proof.
  revert st. induction n as [| n IH]; intros [m r]; simpl repeat; cbn [fold_left].
  - simpl. f_equal. lia.
  - unfold max_run_step at 2. rewrite Z.eqb_refl, IH. cbn [fst snd]. f_equal. lia.
Qed.

(** [max_run] records a run only when an element other than [b] ends it:
    [b]'s appended to the end of a vector never change the result (a
    vector of [b]'s alone gives 0), and appending another element gives
    the larger of the previous result and the run that it ends. *)
Theorem max_run_counts_closed_runs (b c : Z) (x : list Z) (n : nat) :
  c <> b ->
  max_run b (x ++ repeat b n) = max_run b x /\
  max_run b (repeat b n) = 0%Z /\
  max_run b (x ++ [c]) = Z.max (max_run b x) (tail b x).
Proof.
  intros Hc. rewrite !max_run_fold. repeat split.
  - now rewrite fold_left_app, max_run_fold_repeat.
  - now rewrite max_run_fold_repeat.
  - rewrite fold_left_app. cbn [fold_left]. unfold max_run_step at 1.
    apply Z.eqb_neq in Hc. rewrite Hc. cbn [fst]. rewrite max_run_state_run.
    destruct (Z.ltb_spec (fst (fold_left (max_run_step b) x (0%Z, 0%Z))) (tail b x)); lia.
Qed.

Lemma max_run_counts_closed_runs_witness :
  max_run 1 ([1; 1; 0]%Z ++ repeat 1%Z 3) = max_run 1 [1; 1; 0]%Z /\
  max_run 1 (repeat 1%Z 3) = 0%Z /\
  max_run 1 ([1; 1; 0]%Z ++ [0%Z]) = Z.max (max_run 1 [1; 1; 0]%Z) (tail 1 [1; 1; 0]%Z).
Proof. apply max_run_counts_closed_runs. discriminate. Defined.

Lemma max_run_other (b c : Z) (n : nat) :
  c <> b -> max_run b (repeat c n) = 0%Z.
Proof.
  intros Hc. rewrite max_run_fold.
  assert (H : fold_left (max_run_step b) (repeat c n) (0%Z, 0%Z) = (0%Z, 0%Z)).
  { induction n as [| n IH]; [reflexivity |]. simpl repeat. cbn [fold_left].
    unfold max_run_step at 2. apply Z.eqb_neq in Hc. rewrite Hc. exact IH. }
  now rewrite H.
Qed.

Lemma Qpow2_pos (e : Z) : (0 < Qpow2 e)%Q.
Proof.
  destruct e as [| p | p]; unfold Qpow2; [reflexivity | | reflexivity].
  change 0%Q with (inject_Z 0). rewrite <- Zlt_Qlt. apply Z.pow_pos_nonneg; lia.
Qed.

Lemma round_half_even_nonneg (x : Q) : (0 <= x)%Q -> (0 <= round_half_even x)%Z.
Proof.
  intros Hx. unfold round_half_even.
  assert (Hf : (0 <= Qfloor x)%Z).
  { change 0%Z with (Qfloor 0). now apply Qfloor_resp_le. }
  destruct (x - inject_Z (Qfloor x) ?= 1 # 2)%Q; [destruct (Z.even (Qfloor x)) | |]; lia.
Qed.

Lemma round64_nonneg (x : Q) : (0 <= x)%Q -> not_below_zero (round64 x).
Proof.
  intros Hx. unfold round64. destruct (Qeq_bool x 0); [apply Qle_refl |].
  cbv zeta. set (e := Z.max (Qlog2 (Qabs x) - 52) (-1074)).
  destruct (Qle_bool (Qpow2 1024) _).
  - apply Qle_bool_iff in Hx. now rewrite Hx.
  - cbn [not_below_zero]. rewrite Qred_correct.
    pose proof (Qpow2_pos e) as He.
    apply Qmult_le_0_compat; [| now apply Qlt_le_weak].
    change 0%Q with (inject_Z 0). rewrite <- Zle_Qle.
    apply round_half_even_nonneg. apply Qle_shift_div_l; [exact He |]. lra.
Qed.

Lemma fl_mul_nonneg (a b : npfloat) :
  not_below_zero a -> not_below_zero b -> not_below_zero (fl_mul a b).
Proof.
  destruct a as [x | | |], b as [y | | |]; cbn [not_below_zero fl_mul fl_sign];
    try tauto.
  - intros Hx Hy. apply round64_nonneg. now apply Qmult_le_0_compat.
  - intros Hx _. destruct (x ?= 0)%Q eqn:E; cbn [not_below_zero]; auto.
    apply Qlt_alt in E. lra.
  - intros _ Hy. destruct (y ?= 0)%Q eqn:E; cbn [not_below_zero]; auto.
    apply Qlt_alt in E. lra.
Qed.

Lemma np_ceil_nonneg (a : npfloat) : not_below_zero a -> not_below_zero (np_ceil a).
Proof.
  destruct a as [x | | |]; cbn [not_below_zero np_ceil]; auto.
  intros Hx. change 0%Q with (inject_Z 0). rewrite <- Zle_Qle.
  change 0%Z with (Qceiling 0). now apply Qceiling_resp_le.
Qed.

Lemma np_greater_not_below (x : Q) (a : npfloat) :
  (x <= 0)%Q -> not_below_zero a -> np_greater x a = false.
Proof.
  destruct a as [y | | |]; cbn [not_below_zero np_greater]; try tauto.
  intros Hx Hy. unfold Qlt_bool. apply negb_false_iff, Qle_bool_iff. lra.
Qed.

Lemma np_greater_int (a t : Z) :
  np_greater (inject_Z a) (Fin (inject_Z t)) = Z.ltb t a.
Proof.
  cbn [np_greater]. unfold Qlt_bool.
  destruct (Z.ltb_spec t a) as [H | H].
  - apply negb_true_iff, not_true_is_false. rewrite Qle_bool_iff, <- Zle_Qle. lia.
  - apply negb_false_iff. rewrite Qle_bool_iff, <- Zle_Qle. lia.
Qed.

(** The float [0.1] and its value; a float is its own rounding; an
    integer above 2^53 is rounded to an even neighbour; and 2^1024 is out
    of range. *)
Lemma round64_examples :
  round64 (1 # 10) = Fin (3602879701896397 # 36028797018963968) /\
  round64 (3602879701896397 # 36028797018963968)
  = Fin (3602879701896397 # 36028797018963968) /\
  round64 (inject_Z (2 ^ 53 + 1)) = Fin (inject_Z (2 ^ 53)) /\
  round64 (inject_Z (2 ^ 1024)) = PosInf.
Proof. vm_compute. repeat split; reflexivity. Qed.

(** For a parameter [t_pct] that is not negative the threshold is not
    below zero, rounded as it is. *)
Lemma threshold_nonneg (t_pct : Q) (n : Z) :
  (0 <= t_pct)%Q -> (0 <= n)%Z -> not_below_zero (threshold t_pct n).
Proof.
  intros Ht Hn. unfold threshold.
  apply np_ceil_nonneg, fl_mul_nonneg; apply round64_nonneg; [exact Ht |].
  change 0%Q with (inject_Z 0). now rewrite <- Zle_Qle.
Qed.

(** The product is rounded before [np.ceil] is taken: [0.07 * 100] is the
    float above 7, and [0.1 * 10] is the float 1 although the float [0.1]
    is above one tenth. *)
Lemma threshold_rounds_the_product :
  threshold (7 # 100) 100 = Fin 8 /\ threshold (1 # 10) 10 = Fin 1.
Proof. vm_compute. split; reflexivity. Qed.

(** [ContinuousPeaks]: a vector whose elements are all equal, such as the
    all-ones vector, has fitness 0 (for a threshold parameter that is not
    negative): its only run is never closed. *)
Theorem ContinuousPeaks_constant_vector (t_pct : Q) (b : Z) (n : nat) :
  (0 <= t_pct)%Q ->
  ContinuousPeaks_evaluate t_pct (repeat b n) = 0%Z.
Proof.
  intros Ht. unfold ContinuousPeaks_evaluate.
  assert (H : forall c, max_run c (repeat b n) = 0%Z).
  { intros c. destruct (Z.eq_dec b c) as [-> | Hne].
    - rewrite max_run_fold, max_run_fold_repeat. reflexivity.
    - now apply max_run_other. }
  rewrite !H. cbv zeta.
  pose proof (@threshold_nonneg t_pct (Z.of_nat (length (repeat b n))) Ht ltac:(lia)) as Hthr.
  rewrite (@np_greater_not_below (inject_Z 0) _ (Qle_refl 0) Hthr). reflexivity.
Qed.

Lemma ContinuousPeaks_constant_vector_witness :
  ContinuousPeaks_evaluate (1 # 10) (repeat 1%Z 10) = 0%Z.
Proof. apply ContinuousPeaks_constant_vector. discriminate. Defined.

(** ** FourPeaks and SixPeaks *)

Lemma head_tail_disjoint (b c : Z) (x : list Z) :
  b <> c -> (head b x + tail c x <= Z.of_nat (length x))%Z.
Proof.
  intros Hbc. induction x as [| d x IH]; [rewrite head_nil, tail_nil; simpl; lia |].
  rewrite head_cons. simpl length. destruct (Z.eqb_spec d b) as [-> | Hd].
  - rewrite tail_cons_other by exact Hbc. lia.
  - pose proof (tail_bounds c (d :: x)) as H. simpl length in H. lia.
Qed.

Lemma head_other_block (b c : Z) (k : nat) (rest : list Z) :
  c <> b -> 1 <= k -> head b (repeat c k ++ rest) = 0%Z.
Proof.
  intros Hc Hk. destruct k as [| k]; [lia |]. simpl repeat. simpl app.
  rewrite head_cons. apply Z.eqb_neq in Hc. now rewrite Hc.
Qed.

Lemma tail_other_block (b c : Z) (k : nat) (rest : list Z) :
  c <> b -> 1 <= k -> tail b (rest ++ repeat c k) = 0%Z.
Proof.
  intros Hc Hk. destruct k as [| k]; [lia |]. simpl repeat.
  rewrite repeat_cons, app_assoc, tail_snoc.
  apply Z.eqb_neq in Hc. now rewrite Hc.
Qed.

Lemma head_other_repeat (b c : Z) (k : nat) :
  c <> b -> head b (repeat c k) = 0%Z.
Proof.
  intros Hc. destruct k as [| k]; [reflexivity |]. simpl repeat.
  rewrite head_cons. apply Z.eqb_neq in Hc. now rewrite Hc.
Qed.

Lemma tail_other_repeat (b c : Z) (k : nat) :
  c <> b -> tail b (repeat c k) = 0%Z.
Proof.
  intros Hc. destruct k as [| k]; [reflexivity |]. simpl repeat.
  rewrite repeat_cons, tail_snoc. apply Z.eqb_neq in Hc. now rewrite Hc.
Qed.

(** [FourPeaks]: when the threshold that the code computes, the rounded
    product [t_pct * n] taken to the next integer, is the integer [t],
    the fitness of a vector of length [n] is never negative and never
    above the larger of [n] and [2n - t - 1]. *)
Theorem FourPeaks_bounds (t_pct : Q) (x : list Z) (t : Z) :
  threshold t_pct (Z.of_nat (length x)) = Fin (inject_Z t) ->
  let n := Z.of_nat (length x) in
  (0 <= FourPeaks_evaluate t_pct x <= Z.max n (2 * n - t - 1))%Z.
Proof.
  intros Hthr. cbv zeta. unfold FourPeaks_evaluate. cbv zeta.
  rewrite Hthr, !np_greater_int.
  set (n := Z.of_nat (length x)).
  pose proof (head_bounds 1 x) as Hh. pose proof (tail_bounds 0 x) as Ht.
  pose proof (@head_tail_disjoint 1 0 x ltac:(discriminate)) as Hd.
  fold n in Hh, Ht, Hd.
  destruct (Z.ltb_spec t (tail 0 x)), (Z.ltb_spec t (head 1 x)); cbn [andb]; lia.
Qed.

Lemma FourPeaks_bounds_witness :
  (0 <= FourPeaks_evaluate (1 # 10) ([1; 1] ++ repeat 0 8)%Z
   <= Z.max 10 (2 * 10 - 1 - 1))%Z.
Proof.
  apply (@FourPeaks_bounds (1 # 10) ([1; 1] ++ repeat 0 8)%Z 1).
  vm_compute. reflexivity.
Defined.

Lemma FourPeaks_blocks_value (t_pct : Q) (k1 k0 : nat) :
  FourPeaks_evaluate t_pct (repeat 1%Z k1 ++ repeat 0%Z k0)
  = (Z.max (Z.of_nat k0) (Z.of_nat k1)
     + (if (np_greater (inject_Z (Z.of_nat k0)) (threshold t_pct (Z.of_nat (k1 + k0)))
            && np_greater (inject_Z (Z.of_nat k1))
                          (threshold t_pct (Z.of_nat (k1 + k0))))%bool
        then Z.of_nat (k1 + k0) else 0))%Z.
Proof.
  unfold FourPeaks_evaluate. cbv zeta.
  rewrite length_app, !repeat_length.
  rewrite head_repeat_app, tail_app_repeat.
  rewrite (@head_other_repeat 1 0 k0), (@tail_other_repeat 0 1 k1) by discriminate.
  rewrite !Z.add_0_r. reflexivity.
Qed.

(** [FourPeaks] on [k1] ones followed by [k0] zeros: the larger block
    counts, and the reward [n] is added when both blocks are longer than
    the threshold [t] that the code computes (the rounded product, taken
    to the next integer). With [k1 = t + 1] this is the bound
    [2n - t - 1]. *)
Theorem FourPeaks_two_blocks (t_pct : Q) (k1 k0 : nat) :
  let n := Z.of_nat (k1 + k0) in
  let t := threshold t_pct n in
  FourPeaks_evaluate t_pct (repeat 1%Z k1 ++ repeat 0%Z k0)
  = (Z.max (Z.of_nat k0) (Z.of_nat k1)
     + (if (np_greater (inject_Z (Z.of_nat k0)) t
            && np_greater (inject_Z (Z.of_nat k1)) t)%bool then n else 0))%Z.
Proof.
  cbv zeta. apply FourPeaks_blocks_value.
Qed.

(** On 8 ones followed by 92 zeros with [t_pct = 0.07] the rounded product
    is above 7, the threshold is 8 and there is no reward; on 2 ones
    followed by 8 zeros with [t_pct = 0.1] the threshold is 1. *)
Lemma FourPeaks_rounded_threshold :
  FourPeaks_evaluate (7 # 100) (repeat 1%Z 8 ++ repeat 0%Z 92) = 92%Z /\
  FourPeaks_evaluate (1 # 10) ([1; 1]%Z ++ repeat 0%Z 8) = 18%Z.
Proof. vm_compute. split; reflexivity. Qed.

(** [SixPeaks] is not symmetric in 0 and 1. On [k1] ones followed by [k0]
    zeros it is the larger block plus the reward; on [k0] zeros followed by
    [k1] ones it is the reward alone, since the larger-block term only
    looks at trailing zeros and leading ones. *)
Theorem SixPeaks_mirrored_blocks (t_pct : Q) (k1 k0 : nat) :
  (0 <= t_pct)%Q -> 1 <= k1 -> 1 <= k0 ->
  let n := Z.of_nat (k1 + k0) in
  let t := threshold t_pct n in
  let reward := if (np_greater (inject_Z (Z.of_nat k0)) t
                    && np_greater (inject_Z (Z.of_nat k1)) t)%bool
                then n else 0%Z in
  SixPeaks_evaluate t_pct (repeat 1%Z k1 ++ repeat 0%Z k0)
  = (Z.max (Z.of_nat k0) (Z.of_nat k1) + reward)%Z /\
  SixPeaks_evaluate t_pct (repeat 0%Z k0 ++ repeat 1%Z k1) = reward.
Proof.
  intros Hpct H1 H0. cbv zeta. unfold SixPeaks_evaluate. cbv zeta.
  rewrite !length_app, !repeat_length.
  replace (k0 + k1) with (k1 + k0) by lia.
  pose proof (@threshold_nonneg t_pct (Z.of_nat (k1 + k0)) Hpct ltac:(lia)) as Ht.
  set (t := threshold t_pct (Z.of_nat (k1 + k0))) in *.
  assert (Hneg : np_greater (inject_Z 0) t = false)
    by (apply np_greater_not_below; [apply Qle_refl | exact Ht]).
  split.
  - rewrite (head_repeat_app 1), (tail_app_repeat 0).
    rewrite (@head_other_block 0 1 k1) by (auto; discriminate).
    rewrite (@tail_other_block 1 0 k0) by (auto; discriminate).
    rewrite (@head_other_repeat 1 0 k0), (@tail_other_repeat 0 1 k1) by discriminate.
    rewrite !Z.add_0_r, Hneg, andb_false_r, orb_false_r. reflexivity.
  - rewrite (head_repeat_app 0), (tail_app_repeat 1).
    rewrite (@head_other_block 1 0 k0) by (auto; discriminate).
    rewrite (@tail_other_block 0 1 k1) by (auto; discriminate).
    rewrite (@head_other_repeat 0 1 k1), (@tail_other_repeat 1 0 k0) by discriminate.
    rewrite !Z.add_0_r, Hneg. cbn [andb orb Z.max].
    rewrite (andb_comm (np_greater (inject_Z (Z.of_nat k1)) t)). reflexivity.
Qed.

Lemma SixPeaks_mirrored_blocks_witness :
  SixPeaks_evaluate (1 # 10) (repeat 1%Z 4 ++ repeat 0%Z 6) = 16%Z /\
  SixPeaks_evaluate (1 # 10) (repeat 0%Z 6 ++ repeat 1%Z 4) = 10%Z.
Proof.
  apply (@SixPeaks_mirrored_blocks (1 # 10) 4 6); [discriminate | lia | lia].
Defined.

(** ** FlipFlop *)

Lemma fold_left_map_index (St : Type) (f : St -> nat -> St) (g : nat -> nat)
  (l : list nat) (s : St) :
  fold_left f (map g l) s = fold_left (fun st i => f st (g i)) l s.
Proof.
  revert s. induction l as [| i t IH]; intros s; simpl; [reflexivity | apply IH].
Qed.

Lemma FlipFlop_fold_acc (bs : list Z) (idx : list nat) (acc : Z) :
  fold_left
    (fun fitness i =>
       if negb (Z.eqb (nth i bs 0%Z) (nth (i - 1) bs 0%Z))
       then (fitness + 1)%Z else fitness) idx acc
  = (acc + fold_left
             (fun fitness i =>
                if negb (Z.eqb (nth i bs 0%Z) (nth (i - 1) bs 0%Z))
                then (fitness + 1)%Z else fitness) idx 0)%Z.
Proof.
  revert acc. induction idx as [| i t IH]; intros acc; cbn [fold_left]; [lia |].
  destruct (negb _).
  - rewrite (IH (acc + 1)%Z), (IH (0 + 1)%Z). lia.
  - apply IH.
Qed.

Lemma FlipFlop_cons (x y : Z) (t : list Z) :
  FlipFlop_evaluate (x :: y :: t)
  = ((if Z.eqb x y then 0 else 1) + FlipFlop_evaluate (y :: t))%Z.
Proof.
  unfold FlipFlop_evaluate. simpl length.
  replace (S (S (length t)) - 1) with (S (length t)) by lia.
  replace (S (length t) - 1) with (length t) by lia.
  change (seq 1 (S (length t))) with (1 :: seq 2 (length t)).
  cbn [fold_left].
  change (nth 1 (x :: y :: t) 0%Z) with y.
  change (nth (1 - 1) (x :: y :: t) 0%Z) with x.
  rewrite FlipFlop_fold_acc. rewrite (Z.eqb_sym y x).
  rewrite <- seq_shift, fold_left_map_index.
  rewrite (@fold_left_ext_in _ _ _
             (fun fitness i =>
                if negb (Z.eqb (nth i (y :: t) 0%Z) (nth (i - 1) (y :: t) 0%Z))
                then (fitness + 1)%Z else fitness)).
  - destruct (Z.eqb x y); simpl negb; cbv iota; lia.
  - intros st i Hi. apply in_seq in Hi. destruct i as [| i]; [lia |].
    cbn [Nat.sub nth]. now rewrite Nat.sub_0_r.
Qed.

(** [FlipFlop]: the fitness lies between 0 and [len - 1] (it is 0 for
    vectors of at most one element), and it does not change when every
    bit is complemented. *)
Theorem FlipFlop_bounds_and_complement (bs : list Z) :
  (0 <= FlipFlop_evaluate bs <= Z.max 0 (Z.of_nat (length bs) - 1))%Z /\
  FlipFlop_evaluate (map (fun b => (1 - b)%Z) bs) = FlipFlop_evaluate bs.
Proof.
  induction bs as [| x t IH]; [split; [cbv; split; discriminate | reflexivity] |].
  destruct t as [| y t]; [split; [cbv; split; discriminate | reflexivity] |].
  destruct IH as [IHb IHc]. cbn [map] in *. rewrite !FlipFlop_cons, IHc.
  split.
  - simpl length in *. destruct (Z.eqb x y); lia.
  - f_equal. destruct (Z.eqb_spec x y), (Z.eqb_spec (1 - x) (1 - y)); lia.
Qed.

(** ** OneMax *)

Lemma Zsum_acc (l : list Z) (acc : Z) :
  fold_left Z.add l acc = (acc + Zsum l)%Z.
Proof.
  unfold Zsum. revert acc. induction l as [| x t IH]; intros acc; simpl; [lia |].
  rewrite (IH (acc + x)%Z), (IH x). lia.
Qed.

Lemma Zsum_cons (x : Z) (l : list Z) : Zsum (x :: l) = (x + Zsum l)%Z.
Proof. unfold Zsum at 1. simpl. apply Zsum_acc. Qed.

Lemma Zsum_set_nth (i : nat) (v : Z) (l : list Z) :
  i < length l ->
  Zsum (set_nth i v l) = (Zsum l - nth i l 0 + v)%Z.
Proof.
  revert i. induction l as [| x t IH]; intros i Hi; simpl in Hi; [lia |].
  destruct i as [| i]; simpl set_nth; simpl nth; rewrite !Zsum_cons.
  - lia.
  - rewrite IH by lia. lia.
Qed.

Lemma Zsum_bits (l : list Z) :
  Forall is_bit l -> (0 <= Zsum l <= Z.of_nat (length l))%Z.
Proof.
  induction 1 as [| x t Hx Ht IH]; [simpl; unfold Zsum; simpl; lia |].
  rewrite Zsum_cons. simpl length. destruct Hx as [-> | ->]; lia.
Qed.

Lemma OneMax_flip_fitness (st : list Z) (k : nat) :
  k < length st -> is_bit (nth k st 0%Z) ->
  Zsum (set_nth k (Z.abs (nth k st 0%Z - 1)) st)
  = (Zsum st + 1 - 2 * nth k st 0%Z)%Z.
Proof.
  intros Hk Hb. rewrite Zsum_set_nth by exact Hk.
  destruct Hb as [-> | ->]; simpl; lia.
Qed.

Lemma OneMax_best_neighbor_index (self : BitString.t) :
  BitString.fitness_fn self = OneMax ->
  length (BitString.state self) = BitString.length self ->
  Forall is_bit (BitString.state self) ->
  1 <= BitString.length self ->
  exists self' r,
    BitString.find_neighbors self = Ok self' /\
    r < BitString.length self /\
    BitString.best_neighbor self'
    = Ok (set_nth r (Z.abs (nth r (BitString.state self) 0%Z - 1))
            (BitString.state self)) /\
    (forall k, k < BitString.length self ->
       (nth r (BitString.state self) 0 <= nth k (BitString.state self) 0)%Z) /\
    (forall k, k < r ->
       (nth r (BitString.state self) 0 < nth k (BitString.state self) 0)%Z).
Proof.
  intros Hfn Hlen Hbits HL.
  set (st := BitString.state self) in *. set (L := BitString.length self) in *.
  set (g := fun k => set_nth k (Z.abs (nth k st 0%Z - 1)) st).
  pose proof (find_neighbors_eq self Hlen) as Hrun. fold st L g in Hrun.
  set (self' := BitString.mk L st (map g (seq 0 L)) (BitString.fitness_fn self)
                  (BitString.fitness self)) in *.
  assert (Hbit : forall k, k < L -> is_bit (nth k st 0%Z)).
  { intros k Hk. rewrite Forall_forall in Hbits. apply Hbits, nth_In. lia. }
  assert (Hfit : forall k, k < L ->
            Zsum (g k) = (Zsum st + 1 - 2 * nth k st 0%Z)%Z).
  { intros k Hk. apply OneMax_flip_fitness; [lia | now apply Hbit]. }
  assert (Hnth : forall k, k < L -> nth_error (map g (seq 0 L)) k = Some (g k)).
  { intros k Hk. rewrite nth_error_map, nth_error_seq.
    apply Nat.ltb_lt in Hk. now rewrite Hk. }
  destruct (@best_neighbor_general self' (fun n => inject_Z (Zsum n)))
    as [r [best [Hbest [Hr [Hmax Hfirst]]]]].
  { simpl. destruct L; [lia | discriminate]. }
  { intros n _. simpl. rewrite Hfn. reflexivity. }
  simpl in Hr, Hmax, Hfirst.
  assert (HrL : r < L).
  { assert (H : r < length (map g (seq 0 L))) by (apply nth_error_Some; congruence).
    now rewrite length_map, length_seq in H. }
  rewrite (Hnth r HrL) in Hr. injection Hr as <-.
  exists self', r. split; [exact Hrun |]. split; [exact HrL |].
  split; [exact Hbest |]. split.
  - intros k Hk.
    assert (Hin : In (g k) (map g (seq 0 L))) by (apply in_map, in_seq; lia).
    specialize (Hmax _ Hin). rewrite <- Zle_Qle, (Hfit k Hk), (Hfit r HrL) in Hmax. lia.
  - intros k Hk. assert (HkL : k < L) by lia.
    specialize (Hfirst k (g k) Hk (Hnth k HkL)).
    rewrite <- Zlt_Qlt, (Hfit k HkL), (Hfit r HrL) in Hfirst. lia.
Qed.

(** Hill climbing on [OneMax]: when the state has a 0, [find_neighbors]
    followed by [best_neighbor] returns the state with its first 0 set to
    1, whose fitness is one more than the fitness of the state. *)
Theorem OneMax_best_neighbor_sets_first_zero (self : BitString.t) (i : nat) :
  BitString.fitness_fn self = OneMax ->
  length (BitString.state self) = BitString.length self ->
  Forall is_bit (BitString.state self) ->
  nth_error (BitString.state self) i = Some 0%Z ->
  (forall k, k < i -> nth_error (BitString.state self) k = Some 1%Z) ->
  exists self',
    BitString.find_neighbors self = Ok self' /\
    BitString.best_neighbor self' = Ok (set_nth i 1%Z (BitString.state self)) /\
    Zsum (set_nth i 1%Z (BitString.state self))
    = (Zsum (BitString.state self) + 1)%Z.
Proof.
  intros Hfn Hlen Hbits Hi Hones.
  assert (HiL : i < BitString.length self).
  { rewrite <- Hlen. apply nth_error_Some. congruence. }
  destruct (OneMax_best_neighbor_index self Hfn Hlen Hbits ltac:(lia))
    as [self' [r [Hrun [Hr [Hbest [Hmin Hfirst]]]]]].
  pose proof (@nth_error_nth Z _ i 0%Z 0%Z Hi) as Hi0.
  assert (Hri : r = i).
  { destruct (Nat.lt_trichotomy r i) as [Hlt | [Heq | Hgt]]; [| exact Heq |].
    - pose proof (@nth_error_nth Z _ r 1%Z 0%Z (Hones r Hlt)) as Hr1.
      specialize (Hmin i HiL). rewrite Hi0, Hr1 in Hmin. lia.
    - specialize (Hfirst i Hgt). rewrite Hi0 in Hfirst.
      assert (Hb : is_bit (nth r (BitString.state self) 0%Z)).
      { rewrite Forall_forall in Hbits. apply Hbits, nth_In. lia. }
      destruct Hb as [Hb | Hb]; rewrite Hb in Hfirst; lia. }
  subst r. rewrite Hi0 in Hbest. simpl in Hbest.
  exists self'. split; [exact Hrun |]. split; [exact Hbest |].
  rewrite Zsum_set_nth by lia. lia.
Qed.

Lemma OneMax_best_neighbor_sets_first_zero_witness :
  exists self',
    BitString.find_neighbors (BitString.mk 4 [1; 1; 0; 0]%Z [] OneMax 2) = Ok self' /\
    BitString.best_neighbor self' = Ok (set_nth 2 1%Z [1; 1; 0; 0]%Z) /\
    Zsum (set_nth 2 1%Z [1; 1; 0; 0]%Z) = (Zsum [1; 1; 0; 0]%Z + 1)%Z.
Proof.
  apply (@OneMax_best_neighbor_sets_first_zero
           (BitString.mk 4 [1; 1; 0; 0]%Z [] OneMax 2) 2).
  - reflexivity.
  - reflexivity.
  - repeat (apply Forall_cons; [unfold is_bit; auto |]). apply Forall_nil.
  - reflexivity.
  - intros k Hk. destruct k as [| [| k]]; [reflexivity | reflexivity | lia].
Defined.

(** At the optimum of [OneMax] (all bits 1) every neighbor is worse and
    [best_neighbor] returns the first one: the state with bit 0 cleared. *)
Theorem OneMax_best_neighbor_at_optimum (self : BitString.t) :
  BitString.fitness_fn self = OneMax ->
  length (BitString.state self) = BitString.length self ->
  Forall (fun b => b = 1%Z) (BitString.state self) ->
  1 <= BitString.length self ->
  exists self',
    BitString.find_neighbors self = Ok self' /\
    BitString.best_neighbor self' = Ok (set_nth 0 0%Z (BitString.state self)) /\
    Zsum (set_nth 0 0%Z (BitString.state self))
    = (Zsum (BitString.state self) - 1)%Z.
Proof.
  intros Hfn Hlen Hones HL.
  assert (Hbits : Forall is_bit (BitString.state self)).
  { eapply Forall_impl; [| exact Hones]. intros b ->. now right. }
  assert (Hone : forall k, k < BitString.length self ->
                           nth k (BitString.state self) 0%Z = 1%Z).
  { intros k Hk. rewrite Forall_forall in Hones. apply Hones, nth_In. lia. }
  destruct (OneMax_best_neighbor_index self Hfn Hlen Hbits HL)
    as [self' [r [Hrun [Hr [Hbest [_ Hfirst]]]]]].
  assert (Hr0 : r = 0).
  { destruct r as [| r]; [reflexivity |].
    specialize (Hfirst 0 (Nat.lt_0_succ r)).
    rewrite (Hone (S r) Hr), (Hone 0) in Hfirst by lia. lia. }
  subst r. rewrite (Hone 0 HL) in Hbest. simpl in Hbest.
  exists self'. split; [exact Hrun |]. split; [exact Hbest |].
  rewrite Zsum_set_nth, (Hone 0 HL) by lia. lia.
Qed.

Lemma OneMax_best_neighbor_at_optimum_witness :
  exists self',
    BitString.find_neighbors (BitString.mk 3 [1; 1; 1]%Z [] OneMax 3) = Ok self' /\
    BitString.best_neighbor self' = Ok (set_nth 0 0%Z [1; 1; 1]%Z) /\
    Zsum (set_nth 0 0%Z [1; 1; 1]%Z) = (Zsum [1; 1; 1]%Z - 1)%Z.
Proof.
  apply (@OneMax_best_neighbor_at_optimum (BitString.mk 3 [1; 1; 1]%Z [] OneMax 3)).
  - reflexivity.
  - reflexivity.
  - repeat constructor.
  - simpl. lia.
Defined.

(** ** BitString: random neighbor and the fitness attribute *)

Lemma find_neighbors_flips_each_bit_aux (self : BitString.t) :
  length (BitString.state self) = BitString.length self ->
  Forall is_bit (BitString.state self) ->
  exists self',
    BitString.find_neighbors self = Ok self' /\
    forall i, i < BitString.length self ->
      nth_error (BitString.neighbors self') i
      = Some (set_nth i (Z.abs (nth i (BitString.state self) 0%Z - 1))
                (BitString.state self)) /\
      hamming (set_nth i (Z.abs (nth i (BitString.state self) 0%Z - 1))
                 (BitString.state self))
              (BitString.state self) = 1.
Proof.
  intros Hlen Hbits. eexists. split; [apply find_neighbors_eq, Hlen |].
  intros i Hi. cbn [BitString.neighbors]. split.
  - rewrite nth_error_map, nth_error_seq.
    apply Nat.ltb_lt in Hi. now rewrite Hi.
  - assert (Hb : is_bit (nth i (BitString.state self) 0%Z)).
    { rewrite Forall_forall in Hbits. apply Hbits, nth_In. lia. }
    apply hamming_set_nth; [lia | apply (abs_pred_bit Hb)].
Qed.

(** [random_neighbor] with the drawn index [i] returns the i-th neighbor
    that [find_neighbors] stores: the state with bit [i] flipped, at
    Hamming distance 1. For length 0 the draw itself raises [ValueError]. *)
Theorem random_neighbor_is_ith_neighbor (self : BitString.t) (i : nat) :
  length (BitString.state self) = BitString.length self ->
  Forall is_bit (BitString.state self) ->
  (i < BitString.length self ->
   exists n self',
     BitString.random_neighbor self i = Ok n /\
     BitString.find_neighbors self = Ok self' /\
     nth_error (BitString.neighbors self') i = Some n /\
     hamming n (BitString.state self) = 1) /\
  (BitString.length self = 0 ->
   BitString.random_neighbor self i = Raise ValueError).
Proof.
  intros Hlen Hbits. split.
  - intros Hi.
    destruct (find_neighbors_flips_each_bit_aux self Hlen Hbits)
      as [self' [Hrun Hnb]].
    destruct (Hnb i Hi) as [Hnth Hham].
    eexists. exists self'. unfold BitString.random_neighbor.
    destruct (Nat.eqb_spec (BitString.length self) 0) as [H0 | _]; [lia |].
    rewrite flip_in_range by lia. repeat split; auto.
  - intros H0. unfold BitString.random_neighbor. now rewrite H0.
Qed.

Lemma random_neighbor_is_ith_neighbor_witness :
  (2 < BitString.length ex_bitstring ->
   exists n self',
     BitString.random_neighbor ex_bitstring 2 = Ok n /\
     BitString.find_neighbors ex_bitstring = Ok self' /\
     nth_error (BitString.neighbors self') 2 = Some n /\
     hamming n (BitString.state ex_bitstring) = 1) /\
  (BitString.length ex_bitstring = 0 ->
   BitString.random_neighbor ex_bitstring 2 = Raise ValueError).
Proof.
  apply random_neighbor_is_ith_neighbor.
  - reflexivity.
  - repeat (apply Forall_cons; [unfold is_bit; auto |]). apply Forall_nil.
Defined.

(** [set_state] and [reset] leave an object whose [fitness] is the
    evaluator's value on its [state], whatever the object was before, and
    [find_neighbors] keeps that. *)
Theorem fitness_attribute_is_current (self self' : BitString.t) (bits : list Z) :
  (BitString.set_state self bits = Ok self' \/ BitString.reset self bits = Ok self') ->
  BitString.state self' = bits /\
  evaluate (BitString.fitness_fn self') (BitString.state self')
  = Ok (BitString.fitness self') /\
  forall self'',
    BitString.find_neighbors self' = Ok self'' ->
    evaluate (BitString.fitness_fn self'') (BitString.state self'')
    = Ok (BitString.fitness self'').
Proof.
  intros Hrun.
  assert (H : BitString.state self' = bits /\
              evaluate (BitString.fitness_fn self') (BitString.state self')
              = Ok (BitString.fitness self')).
  { destruct Hrun as [Hrun | Hrun];
      unfold BitString.set_state, BitString.reset, BitString.calculate_fitness in Hrun;
      cbn [BitString.state BitString.fitness_fn BitString.length
           BitString.neighbors BitString.fitness] in Hrun;
      destruct (evaluate (BitString.fitness_fn self) bits) as [f |] eqn:E;
      try discriminate; cbn [bind] in Hrun; injection Hrun as <-;
      cbn [BitString.state BitString.fitness_fn BitString.fitness]; auto. }
  destruct H as [Hst Hfit]. split; [exact Hst |]. split; [exact Hfit |].
  intros self'' Hfn. unfold BitString.find_neighbors in Hfn.
  destruct (foldM _ _ _) as [ns |]; [| discriminate].
  cbn [bind] in Hfn. injection Hfn as <-.
  cbn [BitString.state BitString.fitness_fn BitString.fitness]. exact Hfit.
Qed.

Lemma fitness_attribute_is_current_witness :
  BitString.state ex_bitstring = [0; 1; 0; 0]%Z /\
  evaluate (BitString.fitness_fn ex_bitstring) (BitString.state ex_bitstring)
  = Ok (BitString.fitness ex_bitstring) /\
  forall self'',
    BitString.find_neighbors ex_bitstring = Ok self'' ->
    evaluate (BitString.fitness_fn self'') (BitString.state self'')
    = Ok (BitString.fitness self'').
Proof.
  apply (@fitness_attribute_is_current (BitString.init 4 OneMax) ex_bitstring
           [0; 1; 0; 0]%Z).
  left. reflexivity.
Defined.

(** The constructor does not evaluate the state: a new object over
    [FourPeaks] has [fitness] 0 although the evaluator's value on its
    all-zero state is the length. *)
Theorem init_fitness_not_evaluated (t_pct : Q) (len : nat) :
  (0 <= t_pct)%Q ->
  BitString.fitness (BitString.init len (FourPeaks t_pct)) = 0%Q /\
  evaluate (FourPeaks t_pct) (BitString.state (BitString.init len (FourPeaks t_pct)))
  = Ok (inject_Z (Z.of_nat len)).
Proof.
  intros Ht. split; [reflexivity |].
  cbn [BitString.init BitString.state evaluate FourPeaks]. do 2 f_equal.
  pose proof (FourPeaks_blocks_value t_pct 0 len) as H.
  cbn [repeat app Nat.add] in H. rewrite H.
  pose proof (@threshold_nonneg t_pct (Z.of_nat len) Ht ltac:(lia)) as Hthr.
  change (Z.of_nat 0) with 0%Z.
  rewrite (@np_greater_not_below (inject_Z 0) _ (Qle_refl 0) Hthr), andb_false_r. lia.
Qed.

Lemma init_fitness_not_evaluated_witness :
  BitString.fitness (BitString.init 5 (FourPeaks (1 # 10))) = 0%Q /\
  evaluate (FourPeaks (1 # 10))
           (BitString.state (BitString.init 5 (FourPeaks (1 # 10))))
  = Ok (inject_Z (Z.of_nat 5)).
Proof. apply init_fitness_not_evaluated. discriminate. Defined.

(** ** Genetic: populations *)

Lemma mapM_map (A B C : Type) (g : A -> B) (f : B -> result C) (l : list A) :
  mapM f (map g l) = mapM (fun x => f (g x)) l.
Proof.
  induction l as [| x t IH]; simpl; [reflexivity |].
  destruct (f (g x)); simpl; [| reflexivity]. now rewrite IH.
Qed.

Lemma create_population_fold (ev : list Z -> result Q) (draw : nat -> list Z)
  (l : list nat) (acc : list (list Z) * list Q) :
  foldM (fun acc i =>
           let state := draw i in
           fitness <- ev state ;;
           Ok (fst acc ++ [state], snd acc ++ [fitness])) l acc
  = (fs <- mapM (fun i => ev (draw i)) l ;;
     Ok (fst acc ++ map draw l, snd acc ++ fs)).
Proof.
  revert acc. induction l as [| i t IH]; intros [pop pf]; simpl.
  - now rewrite !app_nil_r.
  - destruct (ev (draw i)) as [f | e]; simpl; [| reflexivity].
    rewrite IH. simpl. destruct (mapM _ t) as [fs | e]; simpl; [| reflexivity].
    now rewrite <- !app_assoc.
Qed.

(** [create_population(pop_size)] gives the object that [set_population]
    gives for the array of the [pop_size] bitstrings it draws (and raises
    when the evaluator raises on one of them). *)
Theorem create_population_as_set_population (self : Genetic.t) (pop_size : nat)
  (draw : nat -> list Z) :
  Genetic.create_population self pop_size draw
  = Genetic.set_population self (map draw (seq 0 pop_size)).
Proof.
  rewrite set_population_eq. unfold Genetic.create_population.
  unfold BitString.calculate_fitness.
  rewrite (create_population_fold
             (evaluate (BitString.fitness_fn (Genetic.base self))) draw).
  rewrite mapM_map. cbn [fst snd app].
  destruct (mapM _ (seq 0 pop_size)); reflexivity.
Qed.

(** After [set_population] on a non-empty array that the evaluator accepts,
    the fitness array has one entry per member, the evaluator's value, and
    [best_child] returns a member of maximal fitness, the first one in
    the array. *)
Theorem set_population_then_best_child (self : Genetic.t) (pop : matrix Z)
  (fit : list Z -> Q) :
  pop <> [] ->
  (forall m, In m pop ->
     evaluate (BitString.fitness_fn (Genetic.base self)) m = Ok (fit m)) ->
  exists self' i best,
    Genetic.set_population self pop = Ok self' /\
    Genetic.population self' = pop /\
    Genetic.pop_fitness self' = map fit pop /\
    length (Genetic.pop_fitness self') = length (Genetic.population self') /\
    Genetic.best_child self' = Ok best /\
    nth_error pop i = Some best /\
    (forall m, In m pop -> (fit m <= fit best)%Q) /\
    (forall k m, k < i -> nth_error pop k = Some m -> (fit m < fit best)%Q).
Proof.
  intros Hne Hfit.
  destruct (@np_argmax_spec (map fit pop)) as [r [Hr [Hlt [Hmax Hfirst]]]].
  { destruct pop; [congruence | discriminate]. }
  rewrite length_map in Hlt.
  assert (Hnth : forall k, k < length pop -> nth k (map fit pop) 0%Q = fit (nth k pop [])).
  { intros k Hk. now apply nth_map_in_range. }
  eexists. exists r, (nth r pop []).
  split; [rewrite set_population_eq, (mapM_pure _ fit _ Hfit); reflexivity |].
  cbn [Genetic.population Genetic.pop_fitness].
  split; [reflexivity |]. split; [reflexivity |].
  split; [apply length_map |]. split.
  { unfold Genetic.best_child. cbn [Genetic.population Genetic.pop_fitness].
    rewrite Hr. cbn [bind]. now rewrite (nth_error_nth' pop [] Hlt). }
  split; [apply nth_error_nth', Hlt |]. split.
  - intros m Hm. rewrite <- (Hnth r Hlt). apply Hmax, in_map, Hm.
  - intros k m Hk Hkm. assert (Hkl : k < length pop) by lia.
    rewrite (nth_error_nth' pop [] Hkl) in Hkm. injection Hkm as <-.
    rewrite <- (Hnth r Hlt), <- (Hnth k Hkl). apply Hfirst, Hk.
Qed.

Lemma set_population_then_best_child_witness :
  exists self' i best,
    Genetic.set_population (Genetic.init 4 OneMax)
      [[1; 0; 1; 0]; [1; 1; 1; 1]; [0; 0; 0; 0]; [1; 1; 1; 1]]%Z = Ok self' /\
    Genetic.population self'
    = [[1; 0; 1; 0]; [1; 1; 1; 1]; [0; 0; 0; 0]; [1; 1; 1; 1]]%Z /\
    Genetic.pop_fitness self'
    = map (fun m => inject_Z (Zsum m))
          [[1; 0; 1; 0]; [1; 1; 1; 1]; [0; 0; 0; 0]; [1; 1; 1; 1]]%Z /\
    length (Genetic.pop_fitness self') = length (Genetic.population self') /\
    Genetic.best_child self' = Ok best /\
    nth_error [[1; 0; 1; 0]; [1; 1; 1; 1]; [0; 0; 0; 0]; [1; 1; 1; 1]]%Z i
    = Some best /\
    (forall m, In m [[1; 0; 1; 0]; [1; 1; 1; 1]; [0; 0; 0; 0]; [1; 1; 1; 1]]%Z ->
               (inject_Z (Zsum m) <= inject_Z (Zsum best))%Q) /\
    (forall k m, k < i ->
       nth_error [[1; 0; 1; 0]; [1; 1; 1; 1]; [0; 0; 0; 0]; [1; 1; 1; 1]]%Z k
       = Some m ->
       (inject_Z (Zsum m) < inject_Z (Zsum best))%Q).
Proof.
  apply (@set_population_then_best_child (Genetic.init 4 OneMax) _
           (fun m => inject_Z (Zsum m))).
  - discriminate.
  - intros m _. reflexivity.
Defined.

Lemma Qsum_nonneg (l : list Q) :
  (forall f, In f l -> (0 <= f)%Q) ->
  (0 <= Qsum l)%Q /\ forall f, In f l -> (f <= Qsum l)%Q.
Proof.
  induction l as [| x t IH]; intros H.
  - split; [apply Qle_refl | intros f []].
  - destruct IH as [IH0 IHle]; [intros f Hf; apply H; now right |].
    pose proof (H x (or_introl eq_refl)) as Hx.
    split; [rewrite Qsum_cons; lra |].
    intros f [<- | Hf]; rewrite Qsum_cons; [lra |].
    specialize (IHle f Hf). lra.
Qed.

Lemma calculate_probs_normalises_aux (self : Genetic.t) :
  ~ (Qsum (Genetic.pop_fitness self) == 0)%Q ->
  exists self',
    Genetic.calculate_probs self = Ok self' /\
    Genetic.probs self'
    = map (fun f => Fin (f / Qsum (Genetic.pop_fitness self)))
          (Genetic.pop_fitness self) /\
    (Qsum_fin (Genetic.probs self') == 1)%Q.
Proof.
  intros Hnz. eexists. split; [reflexivity |]. cbn [Genetic.probs].
  assert (Hmap : map (fun f => np_divide f (Qsum (Genetic.pop_fitness self)))
                     (Genetic.pop_fitness self)
                 = map (fun f => Fin (f / Qsum (Genetic.pop_fitness self)))
                       (Genetic.pop_fitness self)).
  { apply map_ext. intros f. now apply np_divide_nonzero. }
  rewrite Hmap. split; [reflexivity |].
  unfold Qsum_fin. rewrite map_map. cbn beta iota.
  rewrite Qsum_map_div. now apply Qmult_inv_r.
Qed.

(** With fitness values that are not negative and a positive total,
    [calculate_probs] stores a probability distribution: every entry is a
    finite number in [[0, 1]] and the entries sum to 1. *)
Theorem calculate_probs_distribution (self : Genetic.t) :
  (forall f, In f (Genetic.pop_fitness self) -> (0 <= f)%Q) ->
  (0 < Qsum (Genetic.pop_fitness self))%Q ->
  exists self',
    Genetic.calculate_probs self = Ok self' /\
    Forall (fun p => exists q, p = Fin q /\ (0 <= q)%Q /\ (q <= 1)%Q)
           (Genetic.probs self') /\
    (Qsum_fin (Genetic.probs self') == 1)%Q.
Proof.
  intros Hpos Htotal.
  destruct (calculate_probs_normalises_aux self) as [self' [Hrun [Hprobs Hsum]]].
  { intros H. rewrite H in Htotal. lra. }
  exists self'. split; [exact Hrun |]. split; [| exact Hsum].
  rewrite Hprobs. apply Forall_forall. intros p Hp.
  apply in_map_iff in Hp as [f [<- Hf]].
  destruct (Qsum_nonneg _ Hpos) as [_ Hle].
  exists (f / Qsum (Genetic.pop_fitness self))%Q. split; [reflexivity |]. split.
  - apply Qle_shift_div_l; [exact Htotal |]. rewrite Qmult_0_l. now apply Hpos.
  - apply Qle_shift_div_r; [exact Htotal |]. rewrite Qmult_1_l. now apply Hle.
Qed.

Lemma calculate_probs_distribution_witness :
  exists self',
    Genetic.calculate_probs ex_genetic = Ok self' /\
    Forall (fun p => exists q, p = Fin q /\ (0 <= q)%Q /\ (q <= 1)%Q)
           (Genetic.probs self') /\
    (Qsum_fin (Genetic.probs self') == 1)%Q.
Proof.
  apply calculate_probs_distribution.
  - intros f [<- | [<- | [<- | []]]]; discriminate.
  - reflexivity.
Defined.

(** ** ProbOpt: the table of update_probs *)

(** [update_probs], on an elite sample that is not empty and has rows of
    the length [L >= 1] of the object, fills the table with the
    conditional frequencies of the sample: the table has shape 2 x L; both
    rows of column 0 hold the fraction of ones at position 0; and
    [probs[j, i]], for [i >= 1], is the fraction of ones at position [i]
    among the rows whose bit at the parent of [i] is [j], or 0 when there
    is no such row. *)
Theorem update_probs_conditional_frequencies (lib : scilib) (self : ProbOpt.t) :
  1 <= ProbOpt.length self ->
  elite_of_length self ->
  scilib_contract lib self ->
  exists self',
    ProbOpt.update_probs lib self = Ok self' /\
    ProbOpt.keep_sample self' = ProbOpt.keep_sample self /\
    ProbOpt.length self' = ProbOpt.length self /\
    shape 2 (ProbOpt.length self) (ProbOpt.probs self') /\
    (forall j, j < 2 ->
       entry (Fin 0) (ProbOpt.probs self') j 0
       = marginal_freq (ProbOpt.keep_sample self)) /\
    (forall i j, 1 <= i < ProbOpt.length self -> j < 2 ->
       exists p,
         nth_error (ProbOpt.parent self') (i - 1) = Some p /\
         entry (Fin 0) (ProbOpt.probs self') j i
         = cond_freq (ProbOpt.keep_sample self) p (Z.of_nat j) i).
Proof.
  intros HL Hel Hlib.
  destruct (update_probs_run HL Hel Hlib)
    as [parent [probs (Hrun & Hlen & _ & _ & Hshape & Hroot & Hcond)]].
  eexists. split; [exact Hrun |].
  cbn [ProbOpt.keep_sample ProbOpt.probs ProbOpt.parent].
  split; [reflexivity |]. split; [reflexivity |]. split; [exact Hshape |].
  split; [exact Hroot |].
  intros i j Hi Hj. exists (nth (i - 1) parent 0).
  split; [apply nth_error_nth'; lia | now apply Hcond].
Qed.

Lemma update_probs_conditional_frequencies_witness :
  exists self',
    ProbOpt.update_probs ex_scilib ex_probopt = Ok self' /\
    ProbOpt.keep_sample self' = ProbOpt.keep_sample ex_probopt /\
    ProbOpt.length self' = ProbOpt.length ex_probopt /\
    shape 2 (ProbOpt.length ex_probopt) (ProbOpt.probs self') /\
    (forall j, j < 2 ->
       entry (Fin 0) (ProbOpt.probs self') j 0
       = marginal_freq (ProbOpt.keep_sample ex_probopt)) /\
    (forall i j, 1 <= i < ProbOpt.length ex_probopt -> j < 2 ->
       exists p,
         nth_error (ProbOpt.parent self') (i - 1) = Some p /\
         entry (Fin 0) (ProbOpt.probs self') j i
         = cond_freq (ProbOpt.keep_sample ex_probopt) p (Z.of_nat j) i).
Proof.
  apply update_probs_conditional_frequencies.
  - vm_compute. lia.
  - exact ex_probopt_elite.
  - apply ex_scilib_contract.
Defined.

Lemma frequency_is_probability (rows : matrix Z) (i : nat) :
  Forall (Forall is_bit) rows ->
  is_probability
    (if Nat.eqb (length rows) 0 then Fin 0
     else np_divide (inject_Z (Zsum (col 0%Z rows i)))
                    (inject_Z (Z.of_nat (length rows)))).
Proof.
  intros Hbits. destruct (Nat.eqb_spec (length rows) 0) as [H0 | Hn].
  - exists 0%Q. split; [reflexivity |]. split; [apply Qle_refl | discriminate].
  - assert (Hcol : Forall is_bit (col 0%Z rows i)).
    { unfold col. apply Forall_map. eapply Forall_impl; [| exact Hbits].
      intros row Hrow. simpl. apply Forall_nth_default; [exact Hrow | now left]. }
    pose proof (Zsum_bits Hcol) as Hsum. rewrite length_col in Hsum.
    assert (Hpos : (0 < inject_Z (Z.of_nat (length rows)))%Q).
    { change 0%Q with (inject_Z 0). rewrite <- Zlt_Qlt. lia. }
    rewrite np_divide_nonzero by (intros H; rewrite H in Hpos; lra).
    eexists. split; [reflexivity |]. split.
    + apply Qle_shift_div_l; [exact Hpos |]. rewrite Qmult_0_l.
      change 0%Q with (inject_Z 0). rewrite <- Zle_Qle. lia.
    + apply Qle_shift_div_r; [exact Hpos |]. rewrite Qmult_1_l.
      rewrite <- Zle_Qle. lia.
Qed.

(** For an elite sample of bits that is not empty and has rows of the
    length [L >= 1] of the object, every entry of the table that
    [update_probs] stores is a finite probability in [[0, 1]]. *)
Theorem update_probs_table_of_probabilities (lib : scilib) (self : ProbOpt.t) :
  1 <= ProbOpt.length self ->
  elite_of_length self ->
  scilib_contract lib self ->
  Forall (Forall is_bit) (ProbOpt.keep_sample self) ->
  exists self',
    ProbOpt.update_probs lib self = Ok self' /\
    forall j c, j < 2 -> c < ProbOpt.length self ->
                is_probability (entry (Fin 0) (ProbOpt.probs self') j c).
Proof.
  intros HL Hel Hlib Hbits.
  destruct (update_probs_run HL Hel Hlib)
    as [parent [probs (Hrun & _ & _ & _ & _ & Hroot & Hcond)]].
  eexists. split; [exact Hrun |]. cbn [ProbOpt.probs]. intros j c Hj Hc.
  destruct c as [| c].
  - rewrite (Hroot j Hj). now apply frequency_is_probability.
  - rewrite (Hcond (S c) j ltac:(lia) Hj).
    unfold cond_freq. cbv zeta. apply frequency_is_probability.
    apply Forall_forall. intros row Hrow. apply filter_In in Hrow as [Hrow _].
    rewrite Forall_forall in Hbits. now apply Hbits.
Qed.

Lemma update_probs_table_of_probabilities_witness :
  exists self',
    ProbOpt.update_probs ex_scilib ex_probopt = Ok self' /\
    forall j c, j < 2 -> c < ProbOpt.length ex_probopt ->
                is_probability (entry (Fin 0) (ProbOpt.probs self') j c).
Proof.
  apply update_probs_table_of_probabilities.
  - vm_compute. lia.
  - exact ex_probopt_elite.
  - apply ex_scilib_contract.
  - repeat (apply Forall_cons;
            [repeat (apply Forall_cons; [unfold is_bit; auto |]); apply Forall_nil |]).
    apply Forall_nil.
Defined.

(** ** ProbOpt: the elite sample *)

Lemma np_take_where_combine (A : Type) (h : Q -> bool) (m : matrix A) :
  forall (pf : list Q) (pre : matrix A),
    length m = length pf ->
    mapM (fun r => match nth_error (pre ++ m) r with
                   | Some row => Ok row
                   | None => Raise IndexError
                   end)
         (where_from (length pre) (map h pf))
    = Ok (map fst (filter (fun rf => h (snd rf)) (combine m pf))).
Proof.
  induction m as [| row m IH]; intros [| f pf] pre Hlen; simpl in *; try lia;
    [reflexivity |].
  assert (Hnext : mapM (fun r => match nth_error (pre ++ row :: m) r with
                                 | Some row => Ok row
                                 | None => Raise IndexError
                                 end)
                       (where_from (S (length pre)) (map h pf))
                  = Ok (map fst (filter (fun rf => h (snd rf)) (combine m pf)))).
  { replace (pre ++ row :: m) with ((pre ++ [row]) ++ m) by now rewrite <- app_assoc.
    replace (S (length pre)) with (length (pre ++ [row]))
      by (rewrite length_app; simpl; lia).
    apply IH. lia. }
  destruct (h f); simpl.
  - rewrite nth_error_app2, Nat.sub_diag by lia. simpl. now rewrite Hnext.
  - exact Hnext.
Qed.

Lemma keep_above_filter (self : ProbOpt.t) (theta : npfloat) :
  length (ProbOpt.population self) = length (ProbOpt.pop_fitness self) ->
  ProbOpt.keep_above self theta
  = Ok (ProbOpt.mk (ProbOpt.base self)
          (map fst (filter (fun rf => np_greater_equal (snd rf) theta)
                           (combine (ProbOpt.population self)
                                    (ProbOpt.pop_fitness self))))
          (ProbOpt.probs self) (ProbOpt.parent self)).
Proof.
  intros Hlen. unfold ProbOpt.keep_above. cbv zeta.
  unfold np_take, np_where.
  pose proof (@np_take_where_combine _ (fun f => np_greater_equal f theta)
                (ProbOpt.population self) (ProbOpt.pop_fitness self) [] Hlen) as H.
  cbn [app length] in H. rewrite H. reflexivity.
Qed.

Lemma filter_none (A : Type) (h : A -> bool) (l : list A) :
  (forall x, In x l -> h x = false) -> filter h l = [].
Proof.
  induction l as [| x t IH]; intros H; simpl; [reflexivity |].
  rewrite (H x (or_introl eq_refl)). apply IH. intros y Hy. apply H. now right.
Qed.

(** The selection step of [select_keep_sample], for whatever threshold
    the percentile call returned: it keeps, in population order and with
    repetitions, exactly the members whose fitness is at least the
    threshold, and changes no other attribute; with a threshold [nan]
    nothing is kept. *)
Theorem select_keep_sample_filters_in_order (self : ProbOpt.t) (theta : npfloat) :
  length (ProbOpt.population self) = length (ProbOpt.pop_fitness self) ->
  exists self',
    ProbOpt.keep_above self theta = Ok self' /\
    ProbOpt.keep_sample self'
    = map fst (filter (fun rf => np_greater_equal (snd rf) theta)
                      (combine (ProbOpt.population self)
                               (ProbOpt.pop_fitness self))) /\
    ProbOpt.base self' = ProbOpt.base self /\
    ProbOpt.probs self' = ProbOpt.probs self /\
    ProbOpt.parent self' = ProbOpt.parent self /\
    (theta = NaN -> ProbOpt.keep_sample self' = []).
Proof.
  intros Hlen. eexists. split; [exact (keep_above_filter self theta Hlen) |].
  cbn [ProbOpt.keep_sample ProbOpt.base ProbOpt.probs ProbOpt.parent].
  repeat split. intros ->. rewrite filter_none; [reflexivity |].
  intros rf _. reflexivity.
Qed.

Lemma select_keep_sample_filters_in_order_witness :
  exists self',
    ProbOpt.keep_above ex_population (Fin (3 # 2)) = Ok self' /\
    ProbOpt.keep_sample self'
    = map fst (filter (fun rf => np_greater_equal (snd rf) (Fin (3 # 2)))
                      (combine (ProbOpt.population ex_population)
                               (ProbOpt.pop_fitness ex_population))) /\
    ProbOpt.base self' = ProbOpt.base ex_population /\
    ProbOpt.probs self' = ProbOpt.probs ex_population /\
    ProbOpt.parent self' = ProbOpt.parent ex_population /\
    (Fin (3 # 2) = NaN -> ProbOpt.keep_sample self' = []).
Proof.
  apply select_keep_sample_filters_in_order. reflexivity.
Defined.








(** ** find_sample_order returns only on trees *)

Lemma sample_order_loop_returns (parent : list nat) :
  forall fuel d so last order,
    bfs_inv parent d so last ->
    ProbOpt.sample_order_loop fuel parent so last = Some order ->
    exists d' last',
      bfs_inv parent d' order last' /\ length parent + 1 <= length order.
Proof.
  induction fuel as [| fuel IH]; intros d so last order Hinv;
    rewrite sample_order_loop_eq;
    destruct (Nat.ltb_spec (length so) (length parent + 1)) as [Hlt | Hge];
    try discriminate.
  - intros [= <-]. exists d, last. auto.
  - intros Hrun. apply (IH (S d) _ _ _ (bfs_inv_step Hinv) Hrun).
  - intros [= <-]. exists d, last. auto.
Qed.

(** [find_sample_order] returns only for a parent array that encodes a tree
    rooted at 0, and what it returns is then a breadth-first order of that
    tree; on any other parent array the loop never ends. *)
Theorem find_sample_order_returns_only_on_trees (parent : list nat)
  (fuel : nat) (order : list nat) :
  ProbOpt.find_sample_order fuel parent = Some order ->
  is_tree parent /\ bfs_order parent order.
Proof.
  intros Hrun. unfold ProbOpt.find_sample_order in Hrun.
  destruct (sample_order_loop_returns _ (bfs_inv_init parent) Hrun)
    as [d [last [Hinv Hlen]]].
  split; [| exact (bfs_inv_order Hinv Hlen)].
  destruct Hinv as (Hso & _ & Nso & _).
  assert (Hincl : incl order (seq 0 (length parent + 1))).
  { intros x Hx. apply Hso in Hx as [d' [_ Hx]].
    apply at_depth_bound in Hx. apply in_seq. lia. }
  assert (Hall : incl (seq 0 (length parent + 1)) order).
  { apply (NoDup_length_incl Nso); [rewrite length_seq; lia | exact Hincl]. }
  intros i Hi. assert (Hin : In i order) by (apply Hall, in_seq; lia).
  apply Hso in Hin as [d' [_ Hd']]. now exists d'.
Qed.

Lemma find_sample_order_returns_only_on_trees_witness :
  is_tree ex_parent /\ bfs_order ex_parent [0; 2; 1; 5; 3; 4].
Proof.
  apply (@find_sample_order_returns_only_on_trees ex_parent 6). reflexivity.
Defined.

(** ** One generation of the optimizer *)





(** ** Knapsack *)

Lemma np_multiply_same_length (a b : list Q) :
  length a = length b ->
  np_multiply a b = Ok (map (fun xy => (fst xy * snd xy)%Q) (combine a b)).
Proof.
  intros H. unfold np_multiply. apply Nat.eqb_eq in H. now rewrite H.
Qed.

Lemma combine_repeat_map (b : Q) (w : list Q) :
  map (fun xy => (fst xy * snd xy)%Q) (combine (repeat b (length w)) w)
  = map (fun y => (b * y)%Q) w.
Proof.
  induction w as [| y t IH]; simpl; [reflexivity | now rewrite IH].
Qed.

Lemma selected_sum_bounds (bs : list Z) (vs : list Q) :
  length bs = length vs -> Forall is_bit bs ->
  (forall v, In v vs -> (0 <= v)%Q) ->
  (0 <= Qsum (map (fun xy => (fst xy * snd xy)%Q) (combine (map inject_Z bs) vs))
   /\ Qsum (map (fun xy => (fst xy * snd xy)%Q) (combine (map inject_Z bs) vs))
      <= Qsum vs)%Q.
Proof.
  revert vs. induction bs as [| b bs IH]; intros [| v vs] Hlen Hbits Hpos;
    simpl in Hlen; try lia.
  - simpl. unfold Qsum. simpl. split; apply Qle_refl.
  - inversion Hbits as [| ? ? Hb Hbs]; subst. cbn [map combine fst snd].
    rewrite !Qsum_cons.
    destruct (IH vs) as [IH0 IH1]; [lia | exact Hbs | intros u Hu; apply Hpos; now right |].
    pose proof (Hpos v (or_introl eq_refl)) as Hv.
    destruct Hb as [-> | ->];
      [change (inject_Z 0) with 0%Q | change (inject_Z 1) with 1%Q]; split; lra.
Qed.

(** [Knapsack.evaluate] on a bit vector with one bit per item, for
    integer weights and values that are not negative and whose totals stay
    below 2^53 (so that no sum is rounded): the fitness lies between 0 and
    the total value of all items, and it is 0 when the selected weight is
    not within the capacity [W] that the constructor stored, the rounded
    product [sum(weights)*max_weight_pct] taken to the next integer. *)
Theorem Knapsack_fitness_bounds (ws vs : list Z) (max_weight_pct : Q)
  (bs : list Z) :
  length bs = length ws -> length bs = length vs ->
  Forall is_bit bs ->
  Forall (fun w => (0 <= w)%Z) ws -> Forall (fun v => (0 <= v)%Z) vs ->
  (Zsum ws < 2 ^ 53)%Z -> (Zsum vs < 2 ^ 53)%Z ->
  exists f,
    Knapsack_evaluate (map inject_Z ws) (map inject_Z vs) max_weight_pct bs = Ok f /\
    (0 <= f)%Q /\ (f <= Qsum (map inject_Z vs))%Q /\
    (np_less_equal
       (Qsum (map (fun xy => (fst xy * snd xy)%Q)
                  (combine (map inject_Z bs) (map inject_Z ws))))
       (Knapsack_W (map inject_Z ws) max_weight_pct) = false ->
     f = 0%Q).
Proof.
  intros Hw Hv Hbits _ Hpos _ _. unfold Knapsack_evaluate.
  rewrite !np_multiply_same_length by (rewrite !length_map; assumption).
  cbn [bind]. cbv zeta.
  assert (Hposq : forall v, In v (map inject_Z vs) -> (0 <= v)%Q).
  { intros v Hin. apply in_map_iff in Hin as [z [<- Hz]].
    rewrite Forall_forall in Hpos. change 0%Q with (inject_Z 0).
    rewrite <- Zle_Qle. now apply Hpos. }
  assert (Hlen : length bs = length (map inject_Z vs)) by now rewrite length_map.
  destruct (selected_sum_bounds (map inject_Z vs) Hlen Hbits Hposq) as [H0 H1].
  destruct (np_less_equal _ _) eqn:E.
  - eexists. split; [reflexivity |]. split; [exact H0 |]. split; [exact H1 |].
    discriminate.
  - exists 0%Q. split; [reflexivity |]. split; [apply Qle_refl |]. split; [| reflexivity].
    apply Qle_trans with (2 := H1). exact H0.
Qed.

Lemma Knapsack_fitness_bounds_witness :
  exists f,
    Knapsack_evaluate (map inject_Z [8; 92]%Z) (map inject_Z [5; 1]%Z) (7 # 100)
                      [1; 0]%Z = Ok f /\
    (0 <= f)%Q /\ (f <= Qsum (map inject_Z [5; 1]%Z))%Q /\
    (np_less_equal
       (Qsum (map (fun xy => (fst xy * snd xy)%Q)
                  (combine (map inject_Z [1; 0]%Z) (map inject_Z [8; 92]%Z))))
       (Knapsack_W (map inject_Z [8; 92]%Z) (7 # 100)) = false ->
     f = 0%Q).
Proof.
  apply Knapsack_fitness_bounds.
  - reflexivity.
  - reflexivity.
  - repeat (apply Forall_cons; [unfold is_bit; auto |]). apply Forall_nil.
  - repeat (apply Forall_cons; [lia |]). apply Forall_nil.
  - repeat (apply Forall_cons; [lia |]). apply Forall_nil.
  - vm_compute. reflexivity.
  - vm_compute. reflexivity.
Defined.

(** The capacity is the rounded product taken to the next integer: for
    the weights 8 and 92 and [max_weight_pct = 0.07] the product is the
    float above 7 and [W] is 8, so that the first item alone fits. *)
Lemma Knapsack_rounded_capacity :
  Knapsack_W (map inject_Z [8; 92]%Z) (7 # 100) = Fin 8 /\
  Knapsack_evaluate (map inject_Z [8; 92]%Z) (map inject_Z [5; 1]%Z) (7 # 100)
                    [1; 0]%Z = Ok 5%Q.
Proof. vm_compute. split; reflexivity. Qed.

(** [Knapsack.evaluate] on a bitstring whose length is not the number of
    items: a bitstring of one bit is broadcast to all items (it is
    evaluated as that bit repeated for every item), any other length
    raises [ValueError]. *)
Theorem Knapsack_length_mismatch (weights values : list Q) (max_weight_pct : Q)
  (bs : list Z) :
  length weights = length values ->
  length weights <> 1 ->
  length bs <> length weights ->
  (forall b, bs = [b] ->
     Knapsack_evaluate weights values max_weight_pct bs
     = Knapsack_evaluate weights values max_weight_pct (repeat b (length weights))) /\
  (length bs <> 1 ->
   Knapsack_evaluate weights values max_weight_pct bs = Raise ValueError).
Proof.
  intros Hwv Hw1 Hne. split.
  - intros b ->. unfold Knapsack_evaluate.
    assert (Hbw : np_multiply (map inject_Z [b]) weights
                  = np_multiply (map inject_Z (repeat b (length weights))) weights).
    { rewrite (@np_multiply_same_length (map inject_Z (repeat b (length weights))))
        by now rewrite length_map, repeat_length.
      rewrite map_repeat, combine_repeat_map.
      unfold np_multiply. cbn [map length nth].
      destruct (Nat.eqb_spec 1 (length weights)); [simpl in Hne; lia | reflexivity]. }
    assert (Hbv : np_multiply (map inject_Z [b]) values
                  = np_multiply (map inject_Z (repeat b (length weights))) values).
    { rewrite (@np_multiply_same_length (map inject_Z (repeat b (length weights))))
        by now rewrite length_map, repeat_length.
      rewrite map_repeat, Hwv, combine_repeat_map.
      unfold np_multiply. cbn [map length nth].
      destruct (Nat.eqb_spec 1 (length values)); [simpl in Hne; lia | reflexivity]. }
    now rewrite Hbw, Hbv.
  - intros Hb1. unfold Knapsack_evaluate, np_multiply. rewrite length_map.
    destruct (Nat.eqb_spec (length bs) (length weights)); [lia |].
    destruct (Nat.eqb_spec (length bs) 1); [lia |].
    destruct (Nat.eqb_spec (length weights) 1); [lia |]. reflexivity.
Qed.

Lemma Knapsack_length_mismatch_witness :
  (forall b, [1; 1]%Z = [b] ->
     Knapsack_evaluate [10; 5; 2]%Q [1; 2; 3]%Q (35 # 100) [1; 1]%Z
     = Knapsack_evaluate [10; 5; 2]%Q [1; 2; 3]%Q (35 # 100)
         (repeat b (length [10; 5; 2]%Q))) /\
  (length [1; 1]%Z <> 1 ->
   Knapsack_evaluate [10; 5; 2]%Q [1; 2; 3]%Q (35 # 100) [1; 1]%Z = Raise ValueError).
Proof.
  apply Knapsack_length_mismatch; [reflexivity | discriminate | discriminate].
Defined.
